(** * notion-page-retriever: a shallow embedding of [main.go]

    The program reads one Notion page: it lists the children of the page
    through the paginated "list children" operation, recursively for every
    block that reports children, prints an indented rendering of the blocks
    and collects their plain text for a summary.

    Go strings are byte sequences, so they are modelled by [string] (a list
    of 8-bit [ascii]); [len] is [String.length] and the slice [s[i:j]] is
    [substring i (j - i) s].  The package-level map [blockChildren] is a
    [gmap]; the remote API is a transition function on an abstract server
    state, and every call made to it is recorded in a trace. *)

From Stdlib Require Import Ascii String List Arith Lia Bool.
From stdpp Require Import gmap strings list fin_maps pretty.
Import ListNotations.

Local Open Scope list_scope.

(** ** The pieces of package [strings] and [fmt] the program uses *)

Module GoStrings.

(** [len(s)]: the number of bytes. *)
Definition len (s : string) : nat := String.length s.

(** [s[i:j]] for [i <= j <= len(s)]. *)
Definition slice (s : string) (i j : nat) : string := String.substring i (j - i) s.

(** [strings.Contains(s, substr)]. *)
Fixpoint Contains (s substr : string) : bool :=
  if String.prefix substr s then true
  else match s with
       | EmptyString => false
       | String _ s' => Contains s' substr
       end.

(** [strings.Repeat(s, count)]. *)
Fixpoint Repeat (s : string) (count : nat) : string :=
  match count with
  | 0 => ""
  | S n => s +:+ Repeat s n
  end.

(** [strings.Join(elems, sep)]. *)
Fixpoint Join (elems : list string) (sep : string) : string :=
  match elems with
  | [] => ""
  | [x] => x
  | x :: rest => x +:+ sep +:+ Join rest sep
  end.

(** [strings.Split(s, sep)] for a separator of one byte: the pieces of [s]
    between the occurrences of [sep]; there is always at least one piece. *)
Fixpoint Split (s : string) (sep : ascii) : list string :=
  match s with
  | EmptyString => [""]
  | String c s' =>
      if Ascii.eqb c sep then "" :: Split s' sep
      else match Split s' sep with
           | [] => [String c ""]
           | piece :: pieces => String c piece :: pieces
           end
  end.

End GoStrings.

Import GoStrings.

(** The line feed, ["\n"] in the Go source. *)
Definition LF : ascii := Ascii.ascii_of_nat 10.
Definition nl : string := String LF "".

(** ** [notionapi]: the parts of the block model the program reads *)

Definition BlockID := string.

Record RichText := { PlainText : string }.

Record FileObject := { URL : string }.

(** [notionapi.Icon]: [Emoji] is a pointer in Go, [None] is [nil]. *)
Record Icon := { IconType : string; Emoji : option string }.

Record Image := {
  ImageType : string;
  ImageFile : option FileObject;
  ImageExternal : option FileObject
}.

(** The dynamic type of a [notionapi.Block] value together with the fields
    of that type the program reads.  [OtherBlock] stands for every block
    type that no [case] of the program's type switches names. *)
Inductive BlockBody :=
| ParagraphBlock (RichText : list RichText)
| Heading1Block (RichText : list RichText)
| Heading2Block (RichText : list RichText)
| Heading3Block (RichText : list RichText)
| BulletedListItemBlock (RichText : list RichText)
| NumberedListItemBlock (RichText : list RichText)
| ToDoBlock (RichText : list RichText) (Checked : bool)
| ImageBlock (Image : Image)
| CodeBlock (RichText : list RichText) (Language : string)
| QuoteBlock (RichText : list RichText)
| CalloutBlock (RichText : list RichText) (Icon : option Icon)
| DividerBlock
| ToggleBlock (RichText : list RichText)
| TableBlock
| TableRowBlock (Cells : list (list RichText))
| ColumnListBlock
| ColumnBlock
| OtherBlock.

(** A block: the [BasicBlock] fields read through [GetID] and
    [GetHasChildren], and the body. *)
Record Block := {
  GetID : BlockID;
  GetHasChildren : bool;
  body : BlockBody
}.

Record Pagination := { StartCursor : string; PageSize : nat }.

Record GetChildrenResponse := {
  Results : list Block;
  NextCursor : string;
  HasMore : bool
}.

(** ** Pure functions of [main.go] *)

Definition getIndent (depth : nat) : string := Repeat "  " depth.

Definition formatPageID (id : string) : string :=
  if Contains id "-" then id
  else if Nat.eqb (len id) 32 then
    slice id 0 8 +:+ "-" +:+ slice id 8 12 +:+ "-" +:+ slice id 12 16
      +:+ "-" +:+ slice id 16 20 +:+ "-" +:+ slice id 20 32
  else id.

Definition getRichTextContent (richText : list RichText) : string :=
  Join (map PlainText richText) "".

(** [printBlock]: the text the calls of [fmt.Printf] write, in order.
    [None] is the run-time panic of a nil pointer dereference
    ([b.Image.External.URL] and [*b.Callout.Icon.Emoji]); the arguments of a
    call are evaluated before it prints, so a panic leaves no output. *)
Definition printBlock (block : Block) (depth : nat) : option string :=
  let indent := Repeat "    " depth in
  match body block with
  | ParagraphBlock rt =>
      Some (indent +:+ getRichTextContent rt +:+ nl +:+ nl)
  | Heading1Block rt =>
      Some (indent +:+ "# " +:+ getRichTextContent rt +:+ nl +:+ nl)
  | Heading2Block rt =>
      Some (indent +:+ "## " +:+ getRichTextContent rt +:+ nl +:+ nl)
  | Heading3Block rt =>
      Some (indent +:+ "### " +:+ getRichTextContent rt +:+ nl +:+ nl)
  | BulletedListItemBlock rt =>
      Some (indent +:+ "- " +:+ getRichTextContent rt +:+ nl)
  | NumberedListItemBlock rt =>
      Some (indent +:+ "1. " +:+ getRichTextContent rt +:+ nl)
  | ToDoBlock rt checked =>
      let checkbox := if checked then "[x]" else "[ ]" in
      Some (indent +:+ "- " +:+ checkbox +:+ " " +:+ getRichTextContent rt +:+ nl)
  | ImageBlock img =>
      if String.eqb (ImageType img) "external" then
        match ImageExternal img with
        | Some f => Some (indent +:+ "![Image](" +:+ URL f +:+ ")" +:+ nl +:+ nl)
        | None => None
        end
      else if String.eqb (ImageType img) "file" then
        match ImageFile img with
        | Some f => Some (indent +:+ "![Image](" +:+ URL f +:+ ")" +:+ nl +:+ nl)
        | None => None
        end
      else Some ""
  | CodeBlock rt language =>
      Some ((indent +:+ "```" +:+ language +:+ nl)
            +:+ (indent +:+ getRichTextContent rt +:+ nl)
            +:+ (indent +:+ "```" +:+ nl +:+ nl))
  | QuoteBlock rt =>
      let lines := Split (getRichTextContent rt) LF in
      Some (fold_left (fun out line => out +:+ (indent +:+ "> " +:+ line +:+ nl))
                      lines ""
            +:+ nl)
  | CalloutBlock rt icon =>
      let default := Some "💡" in
      let icon :=
        match icon with
        | Some i => if String.eqb (IconType i) "emoji" then Emoji i else default
        | None => default
        end in
      match icon with
      | Some icon =>
          Some (indent +:+ "> " +:+ icon +:+ " " +:+ getRichTextContent rt +:+ nl +:+ nl)
      | None => None
      end
  | DividerBlock => Some (indent +:+ "---" +:+ nl +:+ nl)
  | ToggleBlock rt => Some (indent +:+ "- " +:+ getRichTextContent rt +:+ nl)
  | TableBlock => Some ""
  | TableRowBlock cells =>
      Some (indent +:+ "| " +:+ Join (map getRichTextContent cells) " | " +:+ " |" +:+ nl)
  | ColumnListBlock | ColumnBlock => Some ""
  | OtherBlock => Some ""
  end.

(** ** The process state and the remote services *)

(** [notionapi.Client]: the program configures nothing but the token. *)
Record Client := { Token : string }.

(** One request sent over the network, with the reply of the list-children
    operation.  The trace is the only ghost state of the model. *)
Inductive NetEvent :=
| NotionGetChildren (blockID : BlockID) (pagination : Pagination)
                    (reply : string + GetChildrenResponse)
| OpenAIChatCompletion (apiKey content : string).

(** Everything the program reads or writes: the remote server, the
    package-level map [blockChildren], the environment, the two output
    streams (the messages of package [log] without their time stamp), the
    [strings.Builder] of [main] and the network trace. *)
Record World (Srv : Type) := mkWorld {
  srv : Srv;
  blockChildren : gmap BlockID (list Block);
  environ : gmap string string;
  stdout : string;
  stderr : list string;
  contentBuilder : string;
  net : list NetEvent
}.

Arguments mkWorld {Srv}.
Arguments srv {Srv}.
Arguments blockChildren {Srv}.
Arguments environ {Srv}.
Arguments stdout {Srv}.
Arguments stderr {Srv}.
Arguments contentBuilder {Srv}.
Arguments net {Srv}.

(** A function either returns, returns an error, panics, or is still
    running when the fuel of the model is used up. *)
Inductive outcome (A : Type) :=
| Ok (a : A)
| Err (err : string)
| Panic
| OutOfFuel.

Arguments Ok {A}.
Arguments Err {A}.
Arguments Panic {A}.
Arguments OutOfFuel {A}.

(** How the process ends. *)
Inductive Exit :=
| ExitCode (code : nat)
| Crash
| Hang.

Section Program.

Context {Srv : Type}.

(** [client.Block.GetChildren]: the reply is an error or a page, and the
    server may change state. *)
Variable GetChildren :
  Srv -> Client -> BlockID -> Pagination -> Srv * (string + GetChildrenResponse).

(** [client.Chat.Completions.New]: an error, or the message contents of
    the choices of the response. *)
Variable ChatCompletion : string -> string -> string + list string.

Local Abbreviation world := (World Srv).

Definition M (A : Type) : Type := world -> outcome A * world.

Definition ret {A} (a : A) : M A := fun w => (Ok a, w).

Definition bind {A B} (m : M A) (k : A -> M B) : M B :=
  fun w =>
    match m w with
    | (Ok a, w1) => k a w1
    | (Err e, w1) => (Err e, w1)
    | (Panic, w1) => (Panic, w1)
    | (OutOfFuel, w1) => (OutOfFuel, w1)
    end.

Notation "x <- m ;; k" := (bind m (fun x => k))
  (at level 100, m at next level, right associativity).

(** *** Primitive effects *)

Definition os_Getenv (key : string) (w : world) : string :=
  default "" (environ w !! key).

Definition fmt_Print (s : string) : M unit := fun w =>
  (Ok tt, mkWorld (srv w) (blockChildren w) (environ w) (stdout w +:+ s)
                  (stderr w) (contentBuilder w) (net w)).

Definition log_Print (s : string) (w : world) : world :=
  mkWorld (srv w) (blockChildren w) (environ w) (stdout w)
          (stderr w ++ [s]) (contentBuilder w) (net w).

Definition WriteString (s : string) : M unit := fun w =>
  (Ok tt, mkWorld (srv w) (blockChildren w) (environ w) (stdout w)
                  (stderr w) (contentBuilder w +:+ s) (net w)).

Definition resetBuilder (w : world) : world :=
  mkWorld (srv w) (blockChildren w) (environ w) (stdout w)
          (stderr w) "" (net w).

(** [blockChildren[id] = childBlocks]. *)
Definition storeChildren (id : BlockID) (childBlocks : list Block) : M unit :=
  fun w =>
    (Ok tt, mkWorld (srv w) (<[id := childBlocks]> (blockChildren w)) (environ w)
                    (stdout w) (stderr w) (contentBuilder w) (net w)).

(** One call of the list-children operation. *)
Definition callGetChildren (client : Client) (blockID : BlockID)
    (pagination : Pagination) : M GetChildrenResponse :=
  fun w =>
    let '(s, reply) := GetChildren (srv w) client blockID pagination in
    let w1 := mkWorld s (blockChildren w) (environ w) (stdout w) (stderr w)
                      (contentBuilder w)
                      (net w ++ [NotionGetChildren blockID pagination reply]) in
    match reply with
    | inl err => (Err err, w1)
    | inr resp => (Ok resp, w1)
    end.

(** [for _, block := range blocks { body }], where an error returned by
    the body is returned at once. *)
Fixpoint forBlocks (loopBody : Block -> M unit) (blocks : list Block) : M unit :=
  match blocks with
  | [] => ret tt
  | block :: rest => _ <- loopBody block ;; forBlocks loopBody rest
  end.

(** *** [fetchChildBlocks] *)

(** The pagination loop: [blocks] and [cursor] are the two local
    variables.  An error of the call is wrapped by [fmt.Errorf]. *)
Fixpoint fetchPages (fuel : nat) (client : Client) (blockID : BlockID)
    (cursor : string) (blocks : list Block) : M (list Block) :=
  match fuel with
  | 0 => fun w => (OutOfFuel, w)
  | S fuel' =>
      fun w =>
        match callGetChildren client blockID
                {| StartCursor := cursor; PageSize := 100 |} w with
        | (Ok resp, w1) =>
            let blocks := blocks ++ Results resp in
            if HasMore resp
            then fetchPages fuel' client blockID (NextCursor resp) blocks w1
            else (Ok blocks, w1)
        | (Err err, w1) => (Err ("failed to get blocks: " +:+ err), w1)
        | (Panic, w1) => (Panic, w1)
        | (OutOfFuel, w1) => (OutOfFuel, w1)
        end
  end.

(** The body of the second loop of [fetchChildBlocks]. *)
Definition expandLoopBody (recurse : BlockID -> M (list Block)) (block : Block)
    : M unit :=
  if GetHasChildren block then
    childBlocks <- recurse (GetID block) ;;
    storeChildren (GetID block) childBlocks
  else ret tt.

Fixpoint fetchChildBlocks (fuel : nat) (blockID : BlockID) (client : Client)
    : M (list Block) :=
  match fuel with
  | 0 => fun w => (OutOfFuel, w)
  | S fuel' =>
      blocks <- fetchPages fuel' client blockID "" [] ;;
      _ <- forBlocks (expandLoopBody (fun id => fetchChildBlocks fuel' id client))
                     blocks ;;
      ret blocks
  end.

(** *** The two walks *)

(** The call [printBlock(block, depth)] inside the process. *)
Definition do_printBlock (block : Block) (depth : nat) : M unit :=
  match printBlock block depth with
  | Some out => fmt_Print out
  | None => fun w => (Panic, w)
  end.

(** [_, ok := blockChildren[id]]. *)
Definition hasEntry (id : BlockID) (w : world) : bool :=
  bool_decide (is_Some (blockChildren w !! id)).

(** The body of the loop of [printBlocksRecursive]; [recurse] is the
    recursive call. *)
Definition printLoopBody (recurse : BlockID -> nat -> M unit) (depth : nat)
    (block : Block) : M unit :=
  _ <- do_printBlock block depth ;;
  fun w =>
    if hasEntry (GetID block) w
    then recurse (GetID block) (depth + 1) w
    else (Ok tt, w).

(** The parameter [contentBuilder] of [printBlocksRecursive] is [nil] in
    the only call and is never read; it is left out. *)
Fixpoint printBlocksRecursive (fuel : nat) (client : Client) (blockID : BlockID)
    (depth : nat) : M unit :=
  match fuel with
  | 0 => fun w => (OutOfFuel, w)
  | S fuel' =>
      blocks <- fetchChildBlocks fuel' blockID client ;;
      forBlocks (printLoopBody (printBlocksRecursive fuel' client) depth) blocks
  end.

(** The text the type switch of [collectContent] writes for a block. *)
Definition blockText (block : Block) : string :=
  match body block with
  | ParagraphBlock rt
  | Heading1Block rt
  | Heading2Block rt
  | Heading3Block rt
  | BulletedListItemBlock rt
  | NumberedListItemBlock rt
  | ToDoBlock rt _
  | QuoteBlock rt
  | CalloutBlock rt _
  | ToggleBlock rt => getRichTextContent rt
  | _ => ""
  end.

(** The body of the loop of [collectContent]. *)
Definition collectLoopBody (recurse : BlockID -> M unit) (block : Block) : M unit :=
  _ <- WriteString (blockText block) ;;
  _ <- WriteString (nl +:+ nl) ;;
  fun w =>
    if hasEntry (GetID block) w
    then recurse (GetID block) w
    else (Ok tt, w).

Fixpoint collectContent (fuel : nat) (client : Client) (blockID : BlockID)
    : M unit :=
  match fuel with
  | 0 => fun w => (OutOfFuel, w)
  | S fuel' =>
      blocks <- fetchChildBlocks fuel' blockID client ;;
      forBlocks (collectLoopBody (collectContent fuel' client)) blocks
  end.

(** *** [summarizeContent] and [main] *)

Definition summarizeContent (content : string) : M string := fun w =>
  let apiKey := os_Getenv "OPENAI_API_KEY" w in
  if String.eqb apiKey "" then (Err "OPENAI_API_KEY is not set", w)
  else
    let w1 := mkWorld (srv w) (blockChildren w) (environ w) (stdout w)
                      (stderr w) (contentBuilder w)
                      (net w ++ [OpenAIChatCompletion apiKey content]) in
    match ChatCompletion apiKey content with
    | inl err => (Err ("summarization failed: " +:+ err), w1)
    | inr [] => (Panic, w1)
    | inr (choice :: _) => (Ok choice, w1)
    end.

Definition summaryBanner : string := nl +:+ "=== AI による要約 ===" +:+ nl +:+ nl.

(** [main]: [args] is [os.Args].  [os.Exit(1)], [log.Fatal] and
    [log.Fatalf] end the process with status 1; returning from [main]
    ends it with status 0. *)
Definition main (fuel : nat) (args : list string) (w : world) : Exit * world :=
  if negb (Nat.eqb (length args) 2) then
    (ExitCode 1, snd (fmt_Print ("Usage: go run main.go <page-id>" +:+ nl) w))
  else
    let token := os_Getenv "NOTION_API_TOKEN" w in
    if String.eqb token "" then
      (ExitCode 1, log_Print "NOTION_API_TOKEN is not set" w)
    else
      let pageID := formatPageID (nth 1 args "") in
      let client := {| Token := token |} in
      match printBlocksRecursive fuel client pageID 0 w with
      | (Err err, w1) => (ExitCode 1, log_Print ("Error fetching blocks: " +:+ err) w1)
      | (Panic, w1) => (Crash, w1)
      | (OutOfFuel, w1) => (Hang, w1)
      | (Ok _, w1) =>
          match collectContent fuel client pageID (resetBuilder w1) with
          | (Err err, w2) =>
              (ExitCode 1, log_Print ("Error collecting content: " +:+ err) w2)
          | (Panic, w2) => (Crash, w2)
          | (OutOfFuel, w2) => (Hang, w2)
          | (Ok _, w2) =>
              let content := contentBuilder w2 in
              let w3 := snd (fmt_Print summaryBanner w2) in
              match summarizeContent content w3 with
              | (Err err, w4) =>
                  (ExitCode 0, log_Print ("Error generating summary: " +:+ err) w4)
              | (Ok summary, w4) => (ExitCode 0, snd (fmt_Print (summary +:+ nl) w4))
              | (Panic, w4) => (Crash, w4)
              | (OutOfFuel, w4) => (Hang, w4)
              end
          end
      end.

(** *** Vocabulary for the properties *)

(** The state after the calls of [tr] that leave the server in state [s]. *)
Definition afterCalls (s : Srv) (tr : list NetEvent) (w : world) : world :=
  mkWorld s (blockChildren w) (environ w) (stdout w) (stderr w)
          (contentBuilder w) (net w ++ tr).

(** [Paged client blockID s cursor rs s']: from state [s], the server
    answers the requests for pages of 100 children of [blockID], the first
    at [cursor] and each next one at the cursor of the previous reply, with
    the pages [rs]; every page but the last reports more pages, the last
    reports none, and the server ends in state [s']. *)
Inductive Paged (client : Client) (blockID : BlockID)
    : Srv -> string -> list GetChildrenResponse -> Srv -> Prop :=
| Paged_last s cursor r s' :
    GetChildren s client blockID {| StartCursor := cursor; PageSize := 100 |}
      = (s', inr r) ->
    HasMore r = false ->
    Paged client blockID s cursor [r] s'
| Paged_more s cursor r s1 rs s' :
    GetChildren s client blockID {| StartCursor := cursor; PageSize := 100 |}
      = (s1, inr r) ->
    HasMore r = true ->
    Paged client blockID s1 (NextCursor r) rs s' ->
    Paged client blockID s cursor (r :: rs) s'.

(** The frame of the fetch: everything but the server, the map and the
    trace. *)
Definition fetchFrame (w w' : world) : Prop :=
  environ w' = environ w /\ stdout w' = stdout w /\ stderr w' = stderr w /\
  contentBuilder w' = contentBuilder w.

(** The frame of the two walks. *)
Definition walkFrame (w w' : world) : Prop :=
  environ w' = environ w /\ stderr w' = stderr w.

Definition sameMap (w w' : world) : Prop := blockChildren w' = blockChildren w.

(** The server, when it is in state [s], stays there. *)
Definition staysAt (s : Srv) (w w' : world) : Prop := srv w = s -> srv w' = s.

Definition netGrows (w w' : world) : Prop := exists tr, net w' = net w ++ tr.

(** The run from [w] to [w'] has made at least one call, and the first was
    the request for the first page of the children of [id]. *)
Definition firstCallOn (id : BlockID) (w w' : world) : Prop :=
  exists reply tr,
    net w' = net w
             ++ NotionGetChildren id {| StartCursor := ""; PageSize := 100 |} reply
             :: tr.

(** *** A server that answers every request the same way *)

(** A state of the process in which nothing has happened yet. *)
Definition blank (s : Srv) : world := mkWorld s ∅ ∅ "" [] "" [].

(** [srvOnly m]: the outcome of [m] and the state in which it leaves the
    server depend on the state of the server only. *)
Definition srvOnly {A} (m : M A) : Prop :=
  forall w w2 : world,
    srv w = srv w2 ->
    fst (m w) = fst (m w2) /\ srv (snd (m w)) = srv (snd (m w2)).

(** [Kids client s id blocks]: in state [s] the server serves [blocks], page
    by page, as the children of [id]. *)
Definition Kids (client : Client) (s : Srv) (id : BlockID) (blocks : list Block)
    : Prop :=
  exists rs s', Paged client id s "" rs s' /\ blocks = concat (map Results rs).

(** [FetchedAt client fuel s id blocks]: with the server in state [s], the
    fetch of the subtree of [id] returns [blocks] within [fuel]. *)
Definition FetchedAt (client : Client) (fuel : nat) (s : Srv) (id : BlockID)
    (blocks : list Block) : Prop :=
  fst (fetchChildBlocks fuel id client (blank s)) = Ok blocks.

(** [TreeOK client hc s m]: every entry of the map [m] belongs to a block
    that has children according to [hc] and holds the children the server
    serves for it. *)
Definition TreeOK (client : Client) (hc : BlockID -> bool) (s : Srv)
    (m : gmap BlockID (list Block)) : Prop :=
  forall k v, m !! k = Some v -> hc k = true /\ Kids client s k v.

(** What a successful fetch establishes, apart from the entries of the
    blocks it returns. *)
Definition fetchPost (client : Client) (hc : BlockID -> bool) (s : Srv)
    (id : BlockID) (w : world) (blocks : list Block) (w' : world) : Prop :=
  srv w' = s /\
  TreeOK client hc s (blockChildren w') /\
  blockChildren w ⊆ blockChildren w' /\
  Kids client s id blocks.

(** The entries of the blocks a fetch returns: a block whose flag is set
    has an entry, which holds what the fetch of its own subtree returns. *)
Definition entriesOf (client : Client) (fuel : nat) (s : Srv)
    (m : gmap BlockID (list Block)) (blocks : list Block)
    : Prop :=
  Forall (fun b =>
            GetHasChildren b = true ->
            exists kb, m !! GetID b = Some kb /\
                       FetchedAt client fuel s (GetID b) kb) blocks.

(** An outcome that is neither an error nor a computation cut short. *)
Definition noFetchError {A} (o : outcome A) : Prop :=
  match o with
  | Ok _ | Panic => True
  | Err _ | OutOfFuel => False
  end.

(** What a walk keeps when it returns: the server is in state [s], the map
    is well formed and has only grown. *)
Definition walkPost (client : Client) (hc : BlockID -> bool) (s : Srv)
    (w w' : world) : Prop :=
  srv w' = s /\
  TreeOK client hc s (blockChildren w') /\
  blockChildren w ⊆ blockChildren w'.

(** [preserves R m]: whatever [m] does, the final state is related to the
    initial one by [R]. *)
Definition preserves {A} (R : world -> world -> Prop) (m : M A) : Prop :=
  forall w o w', m w = (o, w') -> R w w'.

End Program.

(** The calls that fetch the pages [rs] of [blockID], the first at
    [cursor]. *)
Fixpoint pageCalls (blockID : BlockID) (cursor : string)
    (rs : list GetChildrenResponse) : list NetEvent :=
  match rs with
  | [] => []
  | r :: rest =>
      NotionGetChildren blockID {| StartCursor := cursor; PageSize := 100 |} (inr r)
        :: pageCalls blockID (NextCursor r) rest
  end.

(** The blocks a trace has received, in order. *)
Definition fetchedBlocks (tr : list NetEvent) : list Block :=
  flat_map (fun e => match e with
                     | NotionGetChildren _ _ (inr r) => Results r
                     | _ => []
                     end) tr.

(** The list-children calls of a trace for one block. *)
Definition callsFor (blockID : BlockID) (tr : list NetEvent) : list NetEvent :=
  List.filter (fun e => match e with
                        | NotionGetChildren id _ _ => String.eqb id blockID
                        | _ => false
                        end) tr.

(** The ids of the blocks of a list whose [has_children] flag is set. *)
Definition flagged (blocks : list Block) : gset BlockID :=
  list_to_set (map GetID (filter (fun b => GetHasChildren b = true) blocks)).

(** *** The flattened text *)

(** The kinds for which the type switch of [collectContent] has a case. *)
Definition hasTextPayload (b : Block) : bool :=
  match body b with
  | ParagraphBlock _ | Heading1Block _ | Heading2Block _ | Heading3Block _
  | BulletedListItemBlock _ | NumberedListItemBlock _ | ToDoBlock _ _
  | QuoteBlock _ | CalloutBlock _ _ | ToggleBlock _ => true
  | _ => false
  end.

(** What [collectContent] writes for the blocks [blocks] and, to the depth
    [n], for their descendants in the map [tree], in depth-first document
    order: for every block its text (empty when the kind has none) and two
    line feeds, then the text of its children. *)
Fixpoint flatten (n : nat) (tree : gmap BlockID (list Block)) (blocks : list Block)
    : string :=
  match n with
  | 0 => ""
  | S n' =>
      fold_right
        (fun b rest =>
           blockText b +:+ nl +:+ nl
           +:+ match tree !! GetID b with
               | Some kids => flatten n' tree kids
               | None => ""
               end
           +:+ rest)
        "" blocks
  end.

(** What a successful [collectContent] establishes: the server and the
    standard output are as before, the map has only grown, and the builder
    has received the flattened text of [blocks], read in any map [m] that
    extends the final one. *)
Definition collectPost {Srv : Type}
    (GetChildren :
       Srv -> Client -> BlockID -> Pagination -> Srv * (string + GetChildrenResponse))
    (client : Client) (hc : BlockID -> bool) (s : Srv) (n : nat)
    (blocks : list Block) (w w' : World Srv) : Prop :=
  srv w' = s /\
  TreeOK GetChildren client hc s (blockChildren w') /\
  blockChildren w ⊆ blockChildren w' /\
  stdout w' = stdout w /\
  forall m,
    blockChildren w' ⊆ m -> TreeOK GetChildren client hc s m ->
    contentBuilder w' = contentBuilder w +:+ flatten n m blocks.

(** The next three definitions are modelled on the words of the claim
    (C1) and of its amendment, not on the code. *)

(** The concatenated plain text of the runs of a rich text. *)
Definition plainText (richText : list RichText) : string :=
  fold_right (fun run rest => PlainText run +:+ rest) "" richText.

(** The text payload of a block: the rich text of a paragraph, a heading of
    level 1, 2 or 3, a bulleted item, a numbered item, a checkbox item, a
    quote, a callout and a collapsible section; the other kinds (media,
    code, divider, table, table row, column list, column, unknown) have
    none. *)
Definition textPayload (b : Block) : option (list RichText) :=
  match body b with
  | ParagraphBlock rt => Some rt
  | Heading1Block rt => Some rt
  | Heading2Block rt => Some rt
  | Heading3Block rt => Some rt
  | BulletedListItemBlock rt => Some rt
  | NumberedListItemBlock rt => Some rt
  | ToDoBlock rt _ => Some rt
  | QuoteBlock rt => Some rt
  | CalloutBlock rt _ => Some rt
  | ToggleBlock rt => Some rt
  | ImageBlock _ | CodeBlock _ _ | DividerBlock | TableBlock | TableRowBlock _
  | ColumnListBlock | ColumnBlock | OtherBlock => None
  end.

(** C1 as the claim states it: a block of a kind with a text payload
    contributes its concatenated plain text followed by the blank-line
    separator, a block of another kind contributes no character at all, and
    the children are visited in both cases. *)
Fixpoint flattenSpec (n : nat) (tree : gmap BlockID (list Block)) (blocks : list Block)
    : string :=
  match n with
  | 0 => ""
  | S n' =>
      fold_right
        (fun b rest =>
           match textPayload b with
           | Some rt => plainText rt +:+ nl +:+ nl
           | None => ""
           end
           +:+ match tree !! GetID b with
               | Some kids => flattenSpec n' tree kids
               | None => ""
               end
           +:+ rest)
        "" blocks
  end.

(** C1 as amended: a block of a kind with a text payload contributes its
    concatenated plain text, a block of another kind no text of its own,
    and every block, whatever its kind, the two line feeds of the
    separator; the children follow, in depth-first document order. *)
Fixpoint flattenAmended (n : nat) (tree : gmap BlockID (list Block))
    (blocks : list Block) : string :=
  match n with
  | 0 => ""
  | S n' =>
      fold_right
        (fun b rest =>
           match textPayload b with
           | Some rt => plainText rt
           | None => ""
           end
           +:+ nl +:+ nl
           +:+ match tree !! GetID b with
               | Some kids => flattenAmended n' tree kids
               | None => ""
               end
           +:+ rest)
        "" blocks
  end.

(** *** Lines and indentation *)

(** The number of space characters at the start of a string. *)
Fixpoint leadingSpaces (s : string) : nat :=
  match s with
  | EmptyString => 0
  | String c s' => if Ascii.eqb c " " then S (leadingSpaces s') else 0
  end.

(** A string without line feed. *)
Fixpoint lineFree (s : string) : bool :=
  match s with
  | EmptyString => true
  | String c s' => negb (Ascii.eqb c LF) && lineFree s'
  end.


(** The lines [ls], each followed by a line feed. *)
Definition unlines (ls : list string) : string :=
  fold_right (fun l acc => l +:+ nl +:+ acc) "" ls.




(** The next definitions are modelled on the words of the amended claim
    (C8). *)





(** ** Concrete servers *)

(** A scripted server answers the calls it receives with the replies of a
    fixed list, in order, whatever the request; when the list is used up
    every call fails. *)
Definition scripted (s : list (string + GetChildrenResponse)) (client : Client)
    (blockID : BlockID) (pagination : Pagination)
    : list (string + GetChildrenResponse) * (string + GetChildrenResponse) :=
  match s with
  | [] => ([], inl "connection refused")
  | reply :: rest => (rest, reply)
  end.

(** The blocks of [blocks] from the one whose id is [cursor] on. *)
Fixpoint fromCursor (cursor : string) (blocks : list Block) : list Block :=
  match blocks with
  | [] => []
  | b :: rest => if String.eqb (GetID b) cursor then blocks else fromCursor cursor rest
  end.

(** A static server holds a document, the children of every block, and
    never changes: it answers a request with the next [PageSize] children of
    the block from the cursor on (the cursor is the id of the first child of
    the next page, empty for the first page), and with an error for a block
    it does not know. *)
Definition static (doc : gmap BlockID (list Block)) (client : Client)
    (blockID : BlockID) (pagination : Pagination)
    : gmap BlockID (list Block) * (string + GetChildrenResponse) :=
  match doc !! blockID with
  | None => (doc, inl "object_not_found")
  | Some children =>
      let pending :=
        if String.eqb (StartCursor pagination) "" then children
        else fromCursor (StartCursor pagination) children in
      let page := firstn (PageSize pagination) pending in
      let rest := skipn (PageSize pagination) pending in
      (doc, inr {| Results := page;
                   NextCursor := match rest with [] => "" | b :: _ => GetID b end;
                   HasMore := match rest with [] => false | _ => true end |})
  end.

(** A summarizer that always answers with one choice. *)
Definition echoSummary (apiKey content : string) : string + list string :=
  inr ["- summary"].

Definition initWorld {Srv} (s : Srv) (env : gmap string string) : World Srv :=
  mkWorld s ∅ env "" [] "" [].

Definition text (s : string) : list RichText := [ {| PlainText := s |} ].

Definition leaf (id : BlockID) (b : BlockBody) : Block :=
  {| GetID := id; GetHasChildren := false; body := b |}.

Definition parent (id : BlockID) (b : BlockBody) : Block :=
  {| GetID := id; GetHasChildren := true; body := b |}.

Definition bothKeys : gmap string string :=
  <["NOTION_API_TOKEN" := "secret"]> (<["OPENAI_API_KEY" := "sk"]> ∅).

Definition introDoc : gmap BlockID (list Block) :=
  <["root" := [leaf "h" (Heading1Block (text "Intro"));
               parent "b" (BulletedListItemBlock (text "item"))]]>
  (<["b" := [leaf "s" (BulletedListItemBlock (text "Sub"))]]> ∅).

(** [t] is [s] cut into groups of 8, 4, 4, 4 and 12 bytes joined by
    hyphens. *)
Definition hyphenated (s t : string) : Prop :=
  exists a b c d e : string,
    s = a +:+ b +:+ c +:+ d +:+ e /\
    len a = 8 /\ len b = 4 /\ len c = 4 /\ len d = 4 /\ len e = 12 /\
    t = a +:+ "-" +:+ b +:+ "-" +:+ c +:+ "-" +:+ d +:+ "-" +:+ e.


(** *** Documents and scripts used as concrete inputs *)

Definition someClient : Client := {| Token := "secret" |}.

Definition onlyNotionToken : gmap string string :=
  <["NOTION_API_TOKEN" := "secret"]> ∅.

Definition onlyPage (blocks : list Block) : string + GetChildrenResponse :=
  inr {| Results := blocks; NextCursor := ""; HasMore := false |}.

(** The second request for the children of ["p"] fails. *)
Definition flakyScript : list (string + GetChildrenResponse) :=
  [ onlyPage [parent "p" (ParagraphBlock (text "Hello"))];
    onlyPage [leaf "q" (ParagraphBlock (text "World"))];
    inl "rate_limited" ].

(** The second request for the children of ["p"] is answered with a block
    that was not there before. *)
Definition editedScript : list (string + GetChildrenResponse) :=
  [ onlyPage [parent "p" (ParagraphBlock (text "Hello"))];
    onlyPage [leaf "q" (ParagraphBlock (text "World"))];
    onlyPage [parent "q2" (ParagraphBlock (text "New"))];
    onlyPage [leaf "r" (ParagraphBlock (text "Newer"))] ].



Definition dividerDoc : gmap BlockID (list Block) :=
  <["root" := [leaf "d" DividerBlock]]> ∅.

Definition twoNumbered : list Block :=
  [ leaf "n1" (NumberedListItemBlock (text "first"));
    leaf "n2" (NumberedListItemBlock (text "second")) ].

(** ** More vocabulary: strings and single blocks *)

(** [s] with every hyphen removed. *)
Fixpoint withoutHyphens (s : string) : string :=
  match s with
  | EmptyString => ""
  | String c s' =>
      if Ascii.eqb c "-" then withoutHyphens s' else String c (withoutHyphens s')
  end.

(** The number of hyphens of [s]. *)
Fixpoint countHyphens (s : string) : nat :=
  match s with
  | EmptyString => 0
  | String c s' => (if Ascii.eqb c "-" then 1 else 0) + countHyphens s'
  end.

(** The blocks on which [printBlock] dereferences a nil pointer: an image
    of type ["external"] without external file object, an image of type
    ["file"] without file object, a callout whose icon has type ["emoji"]
    and no emoji. *)
Definition nilDeref (b : Block) : bool :=
  match body b with
  | ImageBlock img =>
      if String.eqb (ImageType img) "external"
      then match ImageExternal img with Some _ => false | None => true end
      else if String.eqb (ImageType img) "file"
      then match ImageFile img with Some _ => false | None => true end
      else false
  | CalloutBlock _ (Some i) =>
      if String.eqb (IconType i) "emoji"
      then match Emoji i with Some _ => false | None => true end
      else false
  | _ => false
  end.

(** The blocks for which [printBlock] prints nothing: a table, a column
    list, a column, a kind the type switch does not list, and an image
    whose type is neither ["external"] nor ["file"]. *)
Definition silent (b : Block) : bool :=
  match body b with
  | TableBlock | ColumnListBlock | ColumnBlock | OtherBlock => true
  | ImageBlock img =>
      negb (String.eqb (ImageType img) "external")
      && negb (String.eqb (ImageType img) "file")
  | _ => false
  end.

(** ** More vocabulary: traces and frames *)

(** A list-children request for a page of 100 that was answered with a
    page. *)
Definition answered (e : NetEvent) : Prop :=
  match e with
  | NotionGetChildren _ p (inr _) => PageSize p = 100
  | _ => False
  end.

(** [traceShape o w w']: what the run from [w] to [w'] with outcome [o] has
    sent over the network.  Every request was a list-children request for a
    page of 100.  When [o] is not an error all of them were answered; when
    [o] is the error [e], all were answered but the last, which failed with
    a message [msg], and [e] is ["failed to get blocks: "] followed by
    [msg]. *)
Definition traceShape {Srv A} (o : outcome A) (w w' : World Srv) : Prop :=
  exists tr,
    Forall answered tr /\
    match o with
    | Err e =>
        exists id p msg,
          PageSize p = 100 /\
          e = "failed to get blocks: " +:+ msg /\
          net w' = net w ++ tr ++ [NotionGetChildren id p (inl msg)]
    | _ => net w' = net w ++ tr
    end.

Definition shaped {Srv A} (m : World Srv -> outcome A * World Srv) : Prop :=
  forall w o w', m w = (o, w') -> traceShape o w w'.

(** No key of the map is removed. *)
Definition keysKept {Srv} (w w' : World Srv) : Prop :=
  dom (blockChildren w) ⊆ dom (blockChildren w').

(** The frame of [printBlocksRecursive]: it only appends to the standard
    output (and fetches). *)
Definition printFrame {Srv} (w w' : World Srv) : Prop :=
  environ w' = environ w /\ stderr w' = stderr w /\
  contentBuilder w' = contentBuilder w /\
  exists out, stdout w' = stdout w +:+ out.

(** The frame of [collectContent]: it only appends to the builder (and
    fetches). *)
Definition collectFrame {Srv} (w w' : World Srv) : Prop :=
  environ w' = environ w /\ stderr w' = stderr w /\
  stdout w' = stdout w /\
  exists text, contentBuilder w' = contentBuilder w +:+ text.

(** ** More concrete servers *)

(** A server that answers every request with an empty page and reports more
    pages. *)
Definition endless (s : unit) (client : Client) (blockID : BlockID)
    (pagination : Pagination) : unit * (string + GetChildrenResponse) :=
  (tt, inr {| Results := []; NextCursor := "next"; HasMore := true |}).

(** A document in which two blocks list each other as their child. *)
Definition cyclicDoc : gmap BlockID (list Block) :=
  <["root" := [leaf "t" (ParagraphBlock (text "top"));
               parent "a" (ToggleBlock (text "a"))]]>
  (<["a" := [parent "root" (ToggleBlock (text "back"))]]> ∅).

(** ** The rendering *)

(** What [printBlocksRecursive] prints for the blocks [blocks] at depth
    [depth] and, to [n] levels, for their descendants in the map [tree], in
    depth-first document order: for every block what [printBlock] prints
    for it at its depth, then the rendering of its children one level
    deeper. *)
Fixpoint render (n depth : nat) (tree : gmap BlockID (list Block))
    (blocks : list Block) : string :=
  match n with
  | 0 => ""
  | S n' =>
      fold_right
        (fun b rest =>
           default "" (printBlock b depth)
           +:+ match tree !! GetID b with
               | Some kids => render n' (depth + 1) tree kids
               | None => ""
               end
           +:+ rest)
        "" blocks
  end.

(** What a successful [printBlocksRecursive] establishes on a server that
    answers the same way: the server and the builder are as before, the map
    has only grown, and the standard output has received the rendering of
    [blocks], read in any map [m] that extends the final one. *)
Definition printPost {Srv : Type}
    (GetChildren :
       Srv -> Client -> BlockID -> Pagination -> Srv * (string + GetChildrenResponse))
    (client : Client) (hc : BlockID -> bool) (s : Srv) (n depth : nat)
    (blocks : list Block) (w w' : World Srv) : Prop :=
  srv w' = s /\
  TreeOK GetChildren client hc s (blockChildren w') /\
  blockChildren w ⊆ blockChildren w' /\
  contentBuilder w' = contentBuilder w /\
  forall m,
    blockChildren w' ⊆ m -> TreeOK GetChildren client hc s m ->
    stdout w' = stdout w +:+ render n depth m blocks.

(** [Deep n m blocks]: the map [m] holds the whole tree below [blocks], and
    the tree is less than [n] levels deep below them: every block of
    [blocks] whose flag is set has an entry, and so on for the blocks of
    the entry, [n] times. *)
Fixpoint Deep (n : nat) (m : gmap BlockID (list Block)) (blocks : list Block) : Prop :=
  match n with
  | 0 => False
  | S n' =>
      Forall (fun b =>
                GetHasChildren b = true ->
                exists kb, m !! GetID b = Some kb /\ Deep n' m kb) blocks
  end.

(** ** The earlier version of the program *)

(** The earlier version of the program, as far as it differs:
    [fetchChildBlocks] is called once, by [main], and
    [printBlocksRecursive] walks the blocks it returned and the map.  The
    functions [formatPageID], [getRichTextContent], [printBlock] and
    [fetchChildBlocks] are the same, but that the client is a global
    variable. *)
Module Earlier.

Section Program.

Context {Srv : Type}.

Variable GetChildren :
  Srv -> Client -> BlockID -> Pagination -> Srv * (string + GetChildrenResponse).

Local Abbreviation world := (World Srv).
Local Abbreviation M := (@M Srv).

(** The body of the loop of [printBlocksRecursive]; [recurse] is the
    recursive call on the children found in the map. *)
Definition printLoopBody (recurse : list Block -> nat -> M unit) (depth : nat)
    (block : Block) : M unit :=
  bind (do_printBlock block depth)
    (fun _ w =>
       match blockChildren w !! GetID block with
       | Some children => recurse children (depth + 1) w
       | None => (Ok tt, w)
       end).

(** The function returns nothing: its outcome is never an error. *)
Fixpoint printBlocksRecursive (fuel : nat) (blocks : list Block) (depth : nat)
    : M unit :=
  match fuel with
  | 0 => fun w => (OutOfFuel, w)
  | S fuel' => forBlocks (printLoopBody (printBlocksRecursive fuel') depth) blocks
  end.

(** [main]: the token is checked first, then the number of arguments. *)
Definition main (fuel : nat) (args : list string) (w : world) : Exit * world :=
  let token := os_Getenv "NOTION_API_TOKEN" w in
  if String.eqb token "" then
    (ExitCode 1, log_Print "NOTION_API_TOKEN environment variable is not set" w)
  else
    let client := {| Token := token |} in
    if Nat.ltb (length args) 2 then
      (ExitCode 1, log_Print "Please provide a page ID as an argument" w)
    else
      let pageID := formatPageID (nth 1 args "") in
      match fetchChildBlocks GetChildren fuel pageID client w with
      | (Err err, w1) => (ExitCode 1, log_Print ("Error fetching blocks: " +:+ err) w1)
      | (Panic, w1) => (Crash, w1)
      | (OutOfFuel, w1) => (Hang, w1)
      | (Ok blocks, w1) =>
          match printBlocksRecursive fuel blocks 0 w1 with
          | (Ok _, w2) | (Err _, w2) => (ExitCode 0, w2)
          | (Panic, w2) => (Crash, w2)
          | (OutOfFuel, w2) => (Hang, w2)
          end
      end.

End Program.

End Earlier.

(** A step that neither talks to the server nor touches the map, the
    environment, the error stream or the builder: it only appends to the
    standard output. *)
Definition offline {Srv} (w w' : World Srv) : Prop :=
  srv w' = srv w /\ blockChildren w' = blockChildren w /\
  environ w' = environ w /\ stderr w' = stderr w /\
  contentBuilder w' = contentBuilder w /\ net w' = net w /\
  exists out, stdout w' = stdout w +:+ out.

(** A computation that never returns an error. *)
Definition neverErr {Srv A} (m : World Srv -> outcome A * World Srv) : Prop :=
  forall w e w', m w <> (Err e, w').

(** A list-children request for a page of 100, answered or not. *)
Definition listRequest (e : NetEvent) : Prop :=
  match e with
  | NotionGetChildren _ p _ => PageSize p = 100
  | OpenAIChatCompletion _ _ => False
  end.

(** A document whose second block announces children the server does not
    know. *)
Definition brokenDoc : gmap BlockID (list Block) :=
  <["root" := [leaf "h" (ParagraphBlock (text "Hello"));
               parent "p" (ToggleBlock (text "more"))]]> ∅.

(** A paragraph quoted over two lines. *)
Definition twoLineQuote : list RichText :=
  [ {| PlainText := "one" +:+ nl |}; {| PlainText := "two" |} ].

(** ** More vocabulary: which blocks are asked for *)

(** The ids of a list of blocks. *)
Fixpoint idsOf (blocks : list Block) : gset BlockID :=
  match blocks with
  | [] => ∅
  | b :: rest => {[ GetID b ]} ∪ idsOf rest
  end.

(** The ids of the blocks a reply holds. *)
Definition receivedBy (e : NetEvent) : gset BlockID :=
  match e with
  | NotionGetChildren _ _ (inr r) => idsOf (Results r)
  | _ => ∅
  end.

Fixpoint received (tr : list NetEvent) : gset BlockID :=
  match tr with
  | [] => ∅
  | e :: rest => receivedBy e ∪ received rest
  end.

(** [requestsFrom known tr]: every request of [tr] is a list-children
    request, for a block of [known] or for a block that an earlier reply of
    [tr] held. *)
Fixpoint requestsFrom (known : gset BlockID) (tr : list NetEvent) : Prop :=
  match tr with
  | [] => True
  | e :: rest =>
      match e with
      | NotionGetChildren id _ _ => id ∈ known
      | OpenAIChatCompletion _ _ => False
      end /\
      requestsFrom (known ∪ receivedBy e) rest
  end.

Definition asksFrom {Srv A} (known : gset BlockID)
    (m : World Srv -> outcome A * World Srv) : Prop :=
  forall w o w', m w = (o, w') ->
    exists tr, net w' = net w ++ tr /\ requestsFrom known tr.
(** * Properties *)

(** ** Strings *)

Lemma append_cons (c : ascii) (a b : string) : String c a +:+ b = String c (a +:+ b).
Proof. reflexivity. Qed.

Lemma append_nil_l (s : string) : "" +:+ s = s.
Proof. reflexivity. Qed.

Lemma append_nil_r (s : string) : s +:+ "" = s.
Proof.
  induction s as [|c s IH]; [reflexivity | now rewrite append_cons, IH].
Qed.

Lemma append_assoc (a b c : string) : (a +:+ b) +:+ c = a +:+ (b +:+ c).
Proof.
  induction a as [|x a IH]; [reflexivity | now rewrite !append_cons, IH].
Qed.

Lemma length_append (a b : string) :
  String.length (a +:+ b) = String.length a + String.length b.
Proof.
  induction a as [|x a IH]; [reflexivity | rewrite append_cons; simpl; now rewrite IH].
Qed.

Lemma prefix_hyphen (c : ascii) (s : string) :
  String.prefix "-" (String c s) = bool_decide (c = "-"%char).
Proof.
  change (String.prefix "-" (String c s))
    with (if ascii_dec "-" c then String.prefix "" s else false).
  destruct (ascii_dec "-" c) as [e|n].
  - subst c. destruct s; reflexivity.
  - symmetry. apply bool_decide_eq_false. congruence.
Qed.

Lemma Contains_hyphen_cons (c : ascii) (s : string) :
  Contains (String c s) "-" = bool_decide (c = "-"%char) || Contains s "-".
Proof.
  change (Contains (String c s) "-")
    with (if String.prefix "-" (String c s) then true else Contains s "-").
  rewrite prefix_hyphen. destruct (bool_decide (c = "-"%char)); reflexivity.
Qed.

Lemma Contains_hyphen_nil : Contains "" "-" = false.
Proof. reflexivity. Qed.

Lemma Contains_hyphen_app (a b : string) :
  Contains (a +:+ b) "-" = Contains a "-" || Contains b "-".
Proof.
  induction a as [|c a IH].
  - reflexivity.
  - change (String c a +:+ b) with (String c (a +:+ b)).
    rewrite !Contains_hyphen_cons, IH. now rewrite orb_assoc.
Qed.

Lemma Contains_hyphen_mid (a b : string) : Contains (a +:+ "-" +:+ b) "-" = true.
Proof.
  rewrite Contains_hyphen_app.
  change ("-" +:+ b) with (String "-"%char b).
  rewrite Contains_hyphen_cons. apply orb_true_r.
Qed.

(** ** Page identifiers *)

Lemma formatPageID_hyphen (id : string) :
  Contains id "-" = true -> formatPageID id = id.
Proof. intros H. unfold formatPageID. now rewrite H. Qed.

Lemma formatPageID_other (id : string) :
  Contains id "-" = false -> len id <> 32 -> formatPageID id = id.
Proof.
  intros H Hl. unfold formatPageID. rewrite H.
  destruct (Nat.eqb_spec (len id) 32); [contradiction | reflexivity].
Qed.

Lemma formatPageID_len32 (id : string) :
  Contains id "-" = false -> len id = 32 -> hyphenated id (formatPageID id).
Proof.
  intros H Hl. unfold formatPageID. rewrite H, Hl. simpl Nat.eqb. cbv iota.
  exists (slice id 0 8), (slice id 8 12), (slice id 12 16), (slice id 16 20),
    (slice id 20 32).
  unfold len in Hl.
  do 32 (destruct id as [|? id]; [discriminate Hl|]).
  destruct id; [|discriminate Hl].
  clear H Hl. repeat split.
Qed.

(** What [formatPageID] returns, by the three cases of the input. *)
Lemma formatPageID_cases (id : string) :
  (Contains id "-" = true -> formatPageID id = id) /\
  (Contains id "-" = false -> len id = 32 -> hyphenated id (formatPageID id)) /\
  (Contains id "-" = false -> len id <> 32 -> formatPageID id = id).
Proof.
  split; [apply formatPageID_hyphen|].
  split; [apply formatPageID_len32 | apply formatPageID_other].
Qed.

Lemma hyphenated_Contains (s t : string) : hyphenated s t -> Contains t "-" = true.
Proof.
  intros (a & b & c & d & e & _ & _ & _ & _ & _ & _ & ->).
  apply Contains_hyphen_mid.
Qed.

Lemma formatPageID_idempotent_aux (s : string) :
  formatPageID (formatPageID s) = formatPageID s.
Proof.
  destruct (Contains s "-") eqn:Hc.
  - now rewrite !(formatPageID_hyphen s Hc).
  - destruct (Nat.eq_dec (len s) 32) as [Hl|Hl].
    + apply formatPageID_hyphen.
      apply (hyphenated_Contains s), formatPageID_len32; assumption.
    + now rewrite !(formatPageID_other s Hc Hl).
Qed.

(** C10: [formatPageID] is idempotent: normalizing a normalized identifier
    returns it unchanged. *)
Theorem formatPageID_idempotent (s : string) :
  formatPageID (formatPageID s) = formatPageID s.
Proof. apply formatPageID_idempotent_aux. Qed.



(** ** Lines and indentation *)

Lemma nl_append (s : string) : nl +:+ s = String LF s.
Proof. reflexivity. Qed.




Lemma Split_LF_cons (s : string) : Split (String LF s) LF = "" :: Split s LF.
Proof. reflexivity. Qed.

Lemma Split_other_cons (c : ascii) (s : string) :
  Ascii.eqb c LF = false ->
  Split (String c s) LF
  = match Split s LF with
    | [] => [String c ""]
    | piece :: pieces => String c piece :: pieces
    end.
Proof. intros H. simpl. now rewrite H. Qed.


Lemma Split_lineFree (a : string) : lineFree a = true -> Split a LF = [a].
Proof.
  induction a as [|c a IH]; intros H; [reflexivity|].
  simpl in H. apply andb_prop in H as [Hc Ha]. apply negb_true_iff in Hc.
  now rewrite (Split_other_cons _ _ Hc), (IH Ha).
Qed.

(** The pieces of a split contain no line feed. *)
Lemma Split_pieces_lineFree (s : string) :
  Forall (fun piece => lineFree piece = true) (Split s LF).
Proof.
  induction s as [|c s IH]; [repeat constructor|].
  destruct (Ascii.eqb c LF) eqn:Hc.
  - apply Ascii.eqb_eq in Hc. subst c. rewrite Split_LF_cons.
    constructor; [reflexivity | exact IH].
  - rewrite (Split_other_cons _ _ Hc).
    destruct (Split s LF) as [|piece pieces].
    + repeat constructor. simpl. now rewrite Hc.
    + inversion IH; subst. constructor; [|assumption].
      simpl. rewrite Hc. assumption.
Qed.

Lemma unlines_cons (l : string) (ls : list string) :
  unlines (l :: ls) = l +:+ String LF (unlines ls).
Proof. reflexivity. Qed.




Lemma length_indent (depth : nat) : String.length (Repeat "    " depth) = 4 * depth.
Proof.
  induction depth as [|depth IH]; [reflexivity|].
  change (Repeat "    " (S depth)) with ("    " +:+ Repeat "    " depth).
  rewrite length_append, IH. simpl. lia.
Qed.


(** The loop of the quote case prints one line for each piece. *)
Lemma quote_lines (indent : string) (pieces : list string) (acc : string) :
  fold_left (fun out line => out +:+ (indent +:+ "> " +:+ line +:+ nl)) pieces acc
  = acc +:+ unlines (map (fun line => indent +:+ "> " +:+ line) pieces).
Proof.
  revert acc. induction pieces as [|p pieces IH]; intros acc.
  - simpl. now rewrite append_nil_r.
  - simpl fold_left. rewrite IH. simpl map. rewrite unlines_cons.
    rewrite !append_assoc. reflexivity.
Qed.


Lemma Split_nonempty (s : string) : Split s LF <> [].
Proof.
  destruct s as [|c s]; [discriminate|].
  simpl. destruct (Ascii.eqb c LF); [discriminate|].
  destruct (Split s LF); discriminate.
Qed.



Lemma Join_no_separator (x : string) (l : list string) :
  Join (x :: l) "" = x +:+ Join l "".
Proof. destruct l as [|y l]; [simpl; now rewrite append_nil_r | reflexivity]. Qed.

(** [getRichTextContent] is the concatenated plain text of the runs. *)
Lemma getRichTextContent_plainText (rt : list RichText) :
  getRichTextContent rt = plainText rt.
Proof.
  unfold getRichTextContent. induction rt as [|r rt IH]; [reflexivity|].
  simpl map. rewrite Join_no_separator, IH. reflexivity.
Qed.





(** ** The output of [printBlock], line by line *)





(** ** Lines inside the text *)







(** * Further properties of the pure functions *)

(** ** [getRichTextContent] *)

Lemma Join_empty_cons (x : string) (l : list string) :
  Join (x :: l) "" = x +:+ Join l "".
Proof. destruct l as [|y l]; [simpl; now rewrite append_nil_r | reflexivity]. Qed.

Lemma Join_empty_app (l1 l2 : list string) :
  Join (l1 ++ l2) "" = Join l1 "" +:+ Join l2 "".
Proof.
  induction l1 as [|x l1 IH]; [reflexivity|].
  change ((x :: l1) ++ l2) with (x :: (l1 ++ l2)).
  now rewrite !Join_empty_cons, IH, append_assoc.
Qed.

(** X1: [getRichTextContent] is the plain concatenation of the plain texts
    of the runs: it maps the concatenation of two lists of runs to the
    concatenation of their texts, and its length is the sum of the lengths of
    the runs, so nothing is inserted between two runs. *)
Theorem getRichTextContent_concatenates :
  (forall a b : list RichText,
     getRichTextContent (a ++ b) = getRichTextContent a +:+ getRichTextContent b) /\
  (forall a : list RichText,
     len (getRichTextContent a) = sum_list (map (fun r => len (PlainText r)) a)).
Proof.
  split.
  - intros a b. unfold getRichTextContent. rewrite map_app. apply Join_empty_app.
  - intros a. unfold getRichTextContent, len. induction a as [|r a IH]; [reflexivity|].
    simpl map. rewrite Join_empty_cons, length_append, IH. reflexivity.
Qed.

(** ** [formatPageID] and hyphens *)

Lemma withoutHyphens_app (a b : string) :
  withoutHyphens (a +:+ b) = withoutHyphens a +:+ withoutHyphens b.
Proof.
  induction a as [|c a IH]; [reflexivity|].
  rewrite append_cons. simpl. rewrite IH. destruct (Ascii.eqb c "-"); reflexivity.
Qed.

Lemma no_hyphen_cons (c : ascii) (s : string) :
  Contains (String c s) "-" = false ->
  Ascii.eqb c "-" = false /\ Contains s "-" = false.
Proof.
  rewrite Contains_hyphen_cons. intros H. apply orb_false_elim in H as [Hc Hs].
  split; [|exact Hs]. apply bool_decide_eq_false in Hc.
  now apply Ascii.eqb_neq.
Qed.

Lemma withoutHyphens_id (s : string) :
  Contains s "-" = false -> withoutHyphens s = s.
Proof.
  induction s as [|c s IH]; intros H; [reflexivity|].
  apply no_hyphen_cons in H as [Hc Hs]. simpl. now rewrite Hc, IH.
Qed.

Lemma countHyphens_app (a b : string) :
  countHyphens (a +:+ b) = countHyphens a + countHyphens b.
Proof.
  induction a as [|c a IH]; [reflexivity|].
  rewrite append_cons. simpl. rewrite IH. lia.
Qed.

Lemma countHyphens_none (s : string) :
  Contains s "-" = false -> countHyphens s = 0.
Proof.
  induction s as [|c s IH]; intros H; [reflexivity|].
  apply no_hyphen_cons in H as [Hc Hs]. simpl. now rewrite Hc, IH.
Qed.

Lemma hyphenated_parts (s t : string) :
  Contains s "-" = false -> hyphenated s t ->
  withoutHyphens t = s /\ countHyphens t = 4.
Proof.
  intros Hs (a & b & c & d & e & -> & _ & _ & _ & _ & _ & ->).
  rewrite !Contains_hyphen_app in Hs.
  repeat (apply orb_false_elim in Hs as [? Hs]).
  split.
  - rewrite !withoutHyphens_app.
    change (withoutHyphens "-") with "". rewrite !append_nil_l.
    now rewrite !withoutHyphens_id by assumption.
  - rewrite !countHyphens_app.
    change (countHyphens "-") with 1.
    rewrite !countHyphens_none by assumption. reflexivity.
Qed.

Lemma formatPageID_withoutHyphens (id : string) :
  withoutHyphens (formatPageID id) = withoutHyphens id.
Proof.
  destruct (Contains id "-") eqn:Hc.
  - now rewrite (formatPageID_hyphen id Hc).
  - destruct (Nat.eq_dec (len id) 32) as [Hl|Hl].
    + destruct (hyphenated_parts id _ Hc (formatPageID_len32 id Hc Hl)) as [-> _].
      symmetry. now apply withoutHyphens_id.
    + now rewrite (formatPageID_other id Hc Hl).
Qed.

(** X2: [formatPageID] only adds hyphens.  Removing the hyphens from its
    result gives the same string as removing them from its input; an input
    without hyphen is recovered from the result by removing the hyphens, so
    on such inputs [formatPageID] is injective. *)
Theorem formatPageID_only_adds_hyphens :
  (forall id, withoutHyphens (formatPageID id) = withoutHyphens id) /\
  (forall id, Contains id "-" = false -> withoutHyphens (formatPageID id) = id) /\
  (forall id1 id2,
     Contains id1 "-" = false -> Contains id2 "-" = false ->
     formatPageID id1 = formatPageID id2 -> id1 = id2).
Proof.
  split; [exact formatPageID_withoutHyphens|].
  assert (forall id, Contains id "-" = false -> withoutHyphens (formatPageID id) = id)
    as Hback.
  { intros id Hc. rewrite formatPageID_withoutHyphens. now apply withoutHyphens_id. }
  split; [exact Hback|].
  intros id1 id2 H1 H2 Heq.
  rewrite <- (Hback id1 H1), <- (Hback id2 H2). now rewrite Heq.
Qed.

Lemma formatPageID_len32_positions (id : string) :
  Contains id "-" = false -> len id = 32 ->
  len (formatPageID id) = 36 /\
  String.get 8 (formatPageID id) = Some "-"%char /\
  String.get 13 (formatPageID id) = Some "-"%char /\
  String.get 18 (formatPageID id) = Some "-"%char /\
  String.get 23 (formatPageID id) = Some "-"%char.
Proof.
  intros H Hl. unfold formatPageID. rewrite H, Hl. simpl Nat.eqb. cbv iota.
  unfold len in Hl.
  do 32 (destruct id as [|? id]; [discriminate Hl|]).
  destruct id; [|discriminate Hl].
  clear H Hl. repeat split.
Qed.

(** X3: the shape of a normalized identifier.  For an input of 32 bytes
    without hyphen the result has 36 bytes, of which exactly four are
    hyphens, at the positions 8, 13, 18 and 23; and for no input at all is
    the result a string of 32 bytes without hyphen. *)
Theorem formatPageID_canonical_shape :
  (forall id,
     Contains id "-" = false -> len id = 32 ->
     len (formatPageID id) = 36 /\
     countHyphens (formatPageID id) = 4 /\
     String.get 8 (formatPageID id) = Some "-"%char /\
     String.get 13 (formatPageID id) = Some "-"%char /\
     String.get 18 (formatPageID id) = Some "-"%char /\
     String.get 23 (formatPageID id) = Some "-"%char) /\
  (forall id, Contains (formatPageID id) "-" = true \/ len (formatPageID id) <> 32).
Proof.
  split.
  - intros id Hc Hl.
    destruct (formatPageID_len32_positions id Hc Hl) as (H36 & Hpos).
    destruct (hyphenated_parts id _ Hc (formatPageID_len32 id Hc Hl)) as [_ H4].
    split; [exact H36|]. split; [exact H4 | exact Hpos].
  - intros id. destruct (Contains id "-") eqn:Hc.
    + left. now rewrite (formatPageID_hyphen id Hc).
    + destruct (Nat.eq_dec (len id) 32) as [Hl|Hl].
      * right. destruct (formatPageID_len32_positions id Hc Hl) as [H36 _].
        rewrite H36. discriminate.
      * right. now rewrite (formatPageID_other id Hc Hl).
Qed.

(** ** [getIndent] *)

Lemma Repeat_add (s : string) (a b : nat) :
  Repeat s (a + b) = Repeat s a +:+ Repeat s b.
Proof.
  induction a as [|a IH]; [reflexivity|].
  simpl. now rewrite IH, append_assoc.
Qed.

(** X4: [getIndent depth] is a run of [2 * depth] spaces and nothing else,
    half of the indentation [printBlock] builds for the same depth, and it
    is additive in the depth. *)
Theorem getIndent_spaces :
  (forall depth,
     len (getIndent depth) = 2 * depth /\
     leadingSpaces (getIndent depth) = 2 * depth /\
     len (Repeat "    " depth) = 2 * len (getIndent depth)) /\
  (forall a b, getIndent (a + b) = getIndent a +:+ getIndent b).
Proof.
  split.
  - intros depth. unfold getIndent, len.
    assert (String.length (Repeat "  " depth) = 2 * depth) as Hl.
    { induction depth as [|depth IH]; [reflexivity|].
      change (Repeat "  " (S depth)) with ("  " +:+ Repeat "  " depth).
      rewrite length_append, IH. simpl. lia. }
    split; [exact Hl|]. split.
    + induction depth as [|depth IH]; [reflexivity|].
      change (Repeat "  " (S depth)) with ("  " +:+ Repeat "  " depth).
      change (leadingSpaces ("  " +:+ Repeat "  " depth))
        with (S (S (leadingSpaces (Repeat "  " depth)))).
      rewrite IH.
      * lia.
      * clear IH Hl. induction depth as [|depth IH]; [reflexivity|].
        change (Repeat "  " (S depth)) with ("  " +:+ Repeat "  " depth).
        rewrite length_append, IH. simpl. lia.
    + rewrite Hl, length_indent. lia.
  - intros a b. apply Repeat_add.
Qed.

(** ** [printBlock] *)

Lemma printBlock_None_nilDeref (b : Block) (depth : nat) :
  printBlock b depth = None <-> nilDeref b = true.
Proof.
  unfold printBlock, nilDeref.
  destruct (body b) as [rt|rt|rt|rt|rt|rt|rt checked|img|rt language|rt|rt icon| |rt| |cells| | |];
    try (split; intros H; discriminate H).
  - destruct (String.eqb (ImageType img) "external").
    + destruct (ImageExternal img); split; intros H; try discriminate H; reflexivity.
    + destruct (String.eqb (ImageType img) "file").
      * destruct (ImageFile img); split; intros H; try discriminate H; reflexivity.
      * split; intros H; discriminate H.
  - destruct icon as [i|]; [|split; intros H; discriminate H].
    destruct (String.eqb (IconType i) "emoji").
    + destruct (Emoji i); split; intros H; try discriminate H; reflexivity.
    + split; intros H; discriminate H.
Qed.

(** X5: [printBlock] panics on exactly three kinds of blocks, whatever the
    depth: an image of type ["external"] whose external file object is nil,
    an image of type ["file"] whose file object is nil, and a callout whose
    icon has type ["emoji"] and a nil emoji.  On every other block it
    returns. *)
Theorem printBlock_panics_on_nil_only (b : Block) (depth : nat) :
  printBlock b depth = None <-> nilDeref b = true.
Proof. apply printBlock_None_nilDeref. Qed.

Lemma ends_with_nl_app (a b : string) :
  (exists pre, b = pre +:+ nl) -> exists pre, a +:+ b = pre +:+ nl.
Proof. intros [pre ->]. exists (a +:+ pre). now rewrite append_assoc. Qed.

Lemma ends_with_nl_nl : exists pre, nl = pre +:+ nl.
Proof. exists "". reflexivity. Qed.

Ltac ends_nl :=
  repeat (apply ends_with_nl_app); first [apply ends_with_nl_nl | (exists nl; reflexivity)].

(** X6: whatever [printBlock] prints ends a line: its output is empty (a
    table, a column list, a column, an unknown kind, an image of unknown
    type) or ends with a line feed. *)
Theorem printBlock_ends_the_line (b : Block) (depth : nat) (out : string) :
  printBlock b depth = Some out ->
  out = "" \/ exists pre, out = pre +:+ nl.
Proof.
  unfold printBlock. intros Hout.
  destruct (body b) as [rt|rt|rt|rt|rt|rt|rt checked|img|rt language|rt|rt icon| |rt| |cells| | |];
    try (injection Hout as <-; first [left; reflexivity | right; ends_nl]).
  - destruct (String.eqb (ImageType img) "external").
    { destruct (ImageExternal img); [|discriminate Hout].
      injection Hout as <-. right. ends_nl. }
    destruct (String.eqb (ImageType img) "file").
    { destruct (ImageFile img); [|discriminate Hout].
      injection Hout as <-. right. ends_nl. }
    injection Hout as <-. left. reflexivity.
  - destruct icon as [i|]; [destruct (String.eqb (IconType i) "emoji");
                            [destruct (Emoji i) as [e|]; [|discriminate Hout]|]|];
      injection Hout as <-; right; ends_nl.
Qed.

Lemma ends_with_nl_nonempty (out : string) :
  (exists pre, out = pre +:+ nl) -> out <> "".
Proof.
  intros [pre ->] H. apply (f_equal String.length) in H.
  rewrite length_append in H. simpl in H. lia.
Qed.

(** X22: [printBlock] prints nothing for exactly these blocks, whatever the
    depth: a table, a column list, a column, a kind the type switch does
    not list, and an image whose type is neither ["external"] nor
    ["file"].  For every other block it prints at least a line feed or
    panics. *)
Theorem printBlock_silent_blocks (b : Block) (depth : nat) :
  printBlock b depth = Some "" <-> silent b = true.
Proof.
  unfold printBlock, silent.
  destruct (body b) as [rt|rt|rt|rt|rt|rt|rt checked|img|rt language|rt|rt icon| |rt| |cells| | |];
    try (split; intros H; reflexivity);
    try (split; intros H; [exfalso; injection H as H; revert H;
                           apply ends_with_nl_nonempty; ends_nl
                          | discriminate H]).
  - destruct (String.eqb (ImageType img) "external").
    { split; [|intros H; discriminate H].
      destruct (ImageExternal img); intros H; [|discriminate H].
      exfalso. injection H as H. revert H. apply ends_with_nl_nonempty. ends_nl. }
    destruct (String.eqb (ImageType img) "file").
    { split; [|intros H; discriminate H].
      destruct (ImageFile img); intros H; [|discriminate H].
      exfalso. injection H as H. revert H. apply ends_with_nl_nonempty. ends_nl. }
    split; reflexivity.
  - split; [|intros H; discriminate H].
    destruct icon as [i|]; [destruct (String.eqb (IconType i) "emoji");
                            [destruct (Emoji i) as [e|]|]|];
      intros H; try discriminate H;
      exfalso; injection H as H; revert H; apply ends_with_nl_nonempty; ends_nl.
Qed.

(** ** The quote case *)

Lemma Join_cons_cons (x y : string) (l : list string) (sep : string) :
  Join (x :: y :: l) sep = x +:+ sep +:+ Join (y :: l) sep.
Proof. reflexivity. Qed.

(** Joining the pieces of a split with line feeds gives the string back. *)
Lemma Join_Split (s : string) : Join (Split s LF) nl = s.
Proof.
  induction s as [|c s IH]; [reflexivity|].
  destruct (Ascii.eqb c LF) eqn:Hc.
  - apply Ascii.eqb_eq in Hc. subst c. rewrite Split_LF_cons.
    destruct (Split s LF) as [|p ps] eqn:Hs; [now apply Split_nonempty in Hs|].
    rewrite Join_cons_cons, IH. reflexivity.
  - rewrite (Split_other_cons _ _ Hc).
    destruct (Split s LF) as [|p ps] eqn:Hs; [now apply Split_nonempty in Hs|].
    destruct ps as [|q ps].
    + simpl in IH. simpl. now rewrite IH.
    + rewrite Join_cons_cons in IH. rewrite Join_cons_cons, append_cons, IH.
      reflexivity.
Qed.

(** X7: a quote is printed line by line.  Its text is cut at the line
    feeds into pieces without line feed (joined by line feeds they give the
    text back); each piece is printed on a line of its own after the
    indentation and ["> "], in order, and an empty line follows.  So a
    quote of [n] lines prints [n + 1] lines. *)
Theorem printBlock_quote_line_by_line (b : Block) (depth : nat) (rt : list RichText) :
  body b = QuoteBlock rt ->
  exists pieces,
    Join pieces nl = getRichTextContent rt /\
    Forall (fun piece => lineFree piece = true) pieces /\
    pieces <> [] /\
    printBlock b depth
    = Some (unlines (map (fun piece => Repeat "    " depth +:+ "> " +:+ piece) pieces)
            +:+ nl).
Proof.
  intros Hb. exists (Split (getRichTextContent rt) LF).
  split; [apply Join_Split|]. split; [apply Split_pieces_lineFree|].
  split; [apply Split_nonempty|].
  unfold printBlock. rewrite Hb. now rewrite quote_lines.
Qed.
(** ** The monad and the loops *)

Section Facts.

Context {Srv : Type}.
Variable GetChildren :
  Srv -> Client -> BlockID -> Pagination -> Srv * (string + GetChildrenResponse).

Local Abbreviation world := (World Srv).
Local Abbreviation M := (@M Srv).

Section Preserves.

Variable R : world -> world -> Prop.
Hypothesis R_refl : forall w, R w w.
Hypothesis R_trans : forall w1 w2 w3, R w1 w2 -> R w2 w3 -> R w1 w3.

Lemma preserves_ret {A} (a : A) : preserves R (ret a).
Proof. intros w o w' H. inversion H. apply R_refl. Qed.

Lemma preserves_stop {A} (o : outcome A) : preserves R (fun w => (o, w)).
Proof. intros w o' w' H. inversion H. apply R_refl. Qed.

Lemma preserves_bind {A B} (m : M A) (k : A -> M B) :
  preserves R m -> (forall a, preserves R (k a)) -> preserves R (bind m k).
Proof.
  intros Hm Hk w o w' H. unfold bind in H.
  destruct (m w) as [[a|e| |] w1] eqn:E; specialize (Hm _ _ _ E).
  - eapply R_trans; [exact Hm | eapply Hk; exact H].
  - inversion H; subst; assumption.
  - inversion H; subst; assumption.
  - inversion H; subst; assumption.
Qed.

Lemma preserves_forBlocks (loopBody : Block -> M unit) (blocks : list Block) :
  (forall b, preserves R (loopBody b)) -> preserves R (forBlocks loopBody blocks).
Proof.
  intros Hb. induction blocks as [|b rest IH]; simpl.
  - apply preserves_ret.
  - apply preserves_bind; [apply Hb | intros _; exact IH].
Qed.

Lemma preserves_if {A} (c : world -> bool) (m1 m2 : M A) :
  preserves R m1 -> preserves R m2 ->
  preserves R (fun w => if c w then m1 w else m2 w).
Proof. intros H1 H2 w o w' H. destruct (c w); eauto. Qed.

End Preserves.

Lemma bind_Ok_inv {A B} (m : M A) (k : A -> M B) w b w' :
  bind m k w = (Ok b, w') ->
  exists a w1, m w = (Ok a, w1) /\ k a w1 = (Ok b, w').
Proof.
  unfold bind. destruct (m w) as [[a|e| |] w1]; intros H; try discriminate H.
  eauto.
Qed.

Lemma bind_Ok {A B} (m : M A) (k : A -> M B) w a w1 :
  m w = (Ok a, w1) -> bind m k w = k a w1.
Proof. intros H. unfold bind. now rewrite H. Qed.

Lemma forBlocks_app (loopBody : Block -> M unit) (l1 l2 : list Block) w w1 :
  forBlocks loopBody l1 w = (Ok tt, w1) ->
  forBlocks loopBody (l1 ++ l2) w = forBlocks loopBody l2 w1.
Proof.
  revert w. induction l1 as [|b l1 IH]; intros w H; simpl in *.
  - inversion H. reflexivity.
  - apply bind_Ok_inv in H as (u & w2 & Hb & Hrest).
    rewrite (bind_Ok _ _ _ _ _ Hb). apply IH. exact Hrest.
Qed.


(** ** What the functions leave unchanged *)

Lemma fetchFrame_refl (w : world) : fetchFrame w w.
Proof. repeat split. Qed.

Lemma fetchFrame_trans (w1 w2 w3 : world) : fetchFrame w1 w2 -> fetchFrame w2 w3 -> fetchFrame w1 w3.
Proof. unfold fetchFrame. intros (?&?&?&?) (?&?&?&?). repeat split; congruence. Qed.

Lemma walkFrame_refl (w : world) : walkFrame w w.
Proof. repeat split. Qed.

Lemma walkFrame_trans (w1 w2 w3 : world) : walkFrame w1 w2 -> walkFrame w2 w3 -> walkFrame w1 w3.
Proof. unfold walkFrame. intros (?&?) (?&?). repeat split; congruence. Qed.

Lemma fetchFrame_walkFrame (w w' : world) : fetchFrame w w' -> walkFrame w w'.
Proof. unfold fetchFrame, walkFrame. tauto. Qed.

Lemma sameMap_refl (w : world) : sameMap w w.
Proof. reflexivity. Qed.

Lemma sameMap_trans (w1 w2 w3 : world) : sameMap w1 w2 -> sameMap w2 w3 -> sameMap w1 w3.
Proof. unfold sameMap. congruence. Qed.

Lemma netGrows_refl (w : world) : netGrows w w.
Proof. exists []. now rewrite app_nil_r. Qed.

Lemma netGrows_trans (w1 w2 w3 : world) : netGrows w1 w2 -> netGrows w2 w3 -> netGrows w1 w3.
Proof.
  intros [t1 H1] [t2 H2]. exists (t1 ++ t2). now rewrite H2, H1, app_assoc.
Qed.

Lemma callGetChildren_spec client blockID pagination (w : world) :
  callGetChildren GetChildren client blockID pagination w =
  let reply := snd (GetChildren (srv w) client blockID pagination) in
  (match reply with inl err => Err err | inr resp => Ok resp end,
   afterCalls (fst (GetChildren (srv w) client blockID pagination))
              [NotionGetChildren blockID pagination reply] w).
Proof.
  unfold callGetChildren, afterCalls.
  destruct (GetChildren (srv w) client blockID pagination) as [s [e|r]]; reflexivity.
Qed.

Lemma afterCalls_afterCalls s1 s2 t1 t2 (w : world) :
  afterCalls s2 t2 (afterCalls s1 t1 w) = afterCalls s2 (t1 ++ t2) w.
Proof. unfold afterCalls. simpl. now rewrite app_assoc. Qed.

Lemma afterCalls_frame s tr (w : world) :
  fetchFrame w (afterCalls s tr w) /\ sameMap w (afterCalls s tr w) /\
  netGrows w (afterCalls s tr w).
Proof. repeat split. now exists tr. Qed.

(** The pagination loop only talks to the server. *)
Lemma fetchPages_afterCalls fuel client blockID cursor blocks (w : world) o w' :
  fetchPages GetChildren fuel client blockID cursor blocks w = (o, w') ->
  exists tr, w' = afterCalls (srv w') tr w.
Proof.
  revert cursor blocks w. induction fuel as [|fuel IH]; intros cursor blocks w H.
  - inversion H; subst. exists []. unfold afterCalls. rewrite app_nil_r.
    now destruct w'.
  - simpl in H. rewrite callGetChildren_spec in H. cbv zeta in H.
    destruct (GetChildren (srv w) client blockID
                {| StartCursor := cursor; PageSize := 100 |}) as [s [e|r]];
      simpl in H.
    + inversion H; subst. eexists. reflexivity.
    + destruct (HasMore r).
      * apply IH in H as [tr H]. rewrite afterCalls_afterCalls in H. eauto.
      * inversion H; subst. eexists. reflexivity.
Qed.

(** A relation that holds across any sequence of calls holds across the
    pagination loop. *)
Lemma fetchPages_respects (R : world -> world -> Prop) :
  (forall s tr w, R w (afterCalls s tr w)) ->
  forall fuel client blockID cursor blocks,
    preserves R (fetchPages GetChildren fuel client blockID cursor blocks).
Proof.
  intros R_call fuel client blockID cursor blocks w o w' H.
  apply fetchPages_afterCalls in H as [tr ->]. apply R_call.
Qed.

(** A relation between states that every primitive step respects is
    respected by the functions built from them. *)
Section Invariant.

Variable R : world -> world -> Prop.
Hypothesis R_refl : forall w, R w w.
Hypothesis R_trans : forall w1 w2 w3, R w1 w2 -> R w2 w3 -> R w1 w3.
Hypothesis R_pages :
  forall fuel client blockID cursor blocks,
    preserves R (fetchPages GetChildren fuel client blockID cursor blocks).
Hypothesis R_store : forall id kids w, R w (snd (storeChildren id kids w)).
Hypothesis R_print : forall out w, R w (snd (fmt_Print out w)).
Hypothesis R_write : forall out w, R w (snd (WriteString out w)).

Lemma storeChildren_preserves id kids : preserves R (storeChildren id kids).
Proof. intros w o w' H. inversion H; subst. apply (R_store id kids w). Qed.

Lemma fmt_Print_preserves out : preserves R (fmt_Print out).
Proof. intros w o w' H. inversion H; subst. apply (R_print out w). Qed.

Lemma WriteString_preserves out : preserves R (WriteString out).
Proof. intros w o w' H. inversion H; subst. apply (R_write out w). Qed.

Lemma expandLoopBody_preserves recurse block :
  (forall id, preserves R (recurse id)) ->
  preserves R (expandLoopBody recurse block).
Proof.
  intros Hr. unfold expandLoopBody. destruct (GetHasChildren block).
  - apply (preserves_bind _ R_trans); [apply Hr|].
    intros kids. apply storeChildren_preserves.
  - apply preserves_ret, R_refl.
Qed.

Lemma fetchChildBlocks_preserves fuel blockID client :
  preserves R (fetchChildBlocks GetChildren fuel blockID client).
Proof.
  revert blockID. induction fuel as [|fuel IH]; intros blockID; simpl.
  - apply preserves_stop, R_refl.
  - apply (preserves_bind _ R_trans); [apply R_pages|].
    intros blocks. apply (preserves_bind _ R_trans).
    + apply (preserves_forBlocks _ R_refl R_trans).
      intros b. apply expandLoopBody_preserves. intros id. apply IH.
    + intros _. apply preserves_ret, R_refl.
Qed.

Lemma do_printBlock_preserves block depth : preserves R (do_printBlock block depth).
Proof.
  unfold do_printBlock. destruct (printBlock block depth).
  - apply fmt_Print_preserves.
  - apply preserves_stop, R_refl.
Qed.

Lemma printLoopBody_preserves recurse depth block :
  (forall id d, preserves R (recurse id d)) ->
  preserves R (printLoopBody recurse depth block).
Proof.
  intros Hr. unfold printLoopBody.
  apply (preserves_bind _ R_trans); [apply do_printBlock_preserves|].
  intros _. apply preserves_if; [apply Hr | apply preserves_ret, R_refl].
Qed.

Lemma printBlocksRecursive_preserves fuel client blockID depth :
  preserves R (printBlocksRecursive GetChildren fuel client blockID depth).
Proof.
  revert blockID depth. induction fuel as [|fuel IH]; intros blockID depth; simpl.
  - apply preserves_stop, R_refl.
  - apply (preserves_bind _ R_trans); [apply fetchChildBlocks_preserves|].
    intros blocks. apply (preserves_forBlocks _ R_refl R_trans).
    intros b. apply printLoopBody_preserves. intros id d. apply IH.
Qed.

Lemma collectLoopBody_preserves recurse block :
  (forall id, preserves R (recurse id)) ->
  preserves R (collectLoopBody recurse block).
Proof.
  intros Hr. unfold collectLoopBody.
  apply (preserves_bind _ R_trans); [apply WriteString_preserves|].
  intros _. apply (preserves_bind _ R_trans); [apply WriteString_preserves|].
  intros _. apply preserves_if; [apply Hr | apply preserves_ret, R_refl].
Qed.

Lemma collectContent_preserves fuel client blockID :
  preserves R (collectContent GetChildren fuel client blockID).
Proof.
  revert blockID. induction fuel as [|fuel IH]; intros blockID; simpl.
  - apply preserves_stop, R_refl.
  - apply (preserves_bind _ R_trans); [apply fetchChildBlocks_preserves|].
    intros blocks. apply (preserves_forBlocks _ R_refl R_trans).
    intros b. apply collectLoopBody_preserves. intros id. apply IH.
Qed.

End Invariant.

Lemma fetchChildBlocks_fetchFrame fuel blockID client :
  preserves fetchFrame (fetchChildBlocks GetChildren fuel blockID client).
Proof.
  apply fetchChildBlocks_preserves;
    [apply fetchFrame_refl | apply fetchFrame_trans | apply fetchPages_respects |];
    intros; repeat split.
Qed.

Lemma fetchChildBlocks_netGrows fuel blockID client :
  preserves netGrows (fetchChildBlocks GetChildren fuel blockID client).
Proof.
  apply fetchChildBlocks_preserves;
    [apply netGrows_refl | apply netGrows_trans | apply fetchPages_respects |];
    intros.
  - now exists tr.
  - exists []. simpl. now rewrite app_nil_r.
Qed.

Lemma printBlocksRecursive_walkFrame fuel client blockID depth :
  preserves walkFrame (printBlocksRecursive GetChildren fuel client blockID depth).
Proof.
  apply printBlocksRecursive_preserves;
    [apply walkFrame_refl | apply walkFrame_trans | apply fetchPages_respects | |];
    intros; repeat split.
Qed.

Lemma collectContent_walkFrame fuel client blockID :
  preserves walkFrame (collectContent GetChildren fuel client blockID).
Proof.
  apply collectContent_preserves;
    [apply walkFrame_refl | apply walkFrame_trans | apply fetchPages_respects | |];
    intros; repeat split.
Qed.

(** ** The pagination loop *)

Lemma fetchPages_step fuel client blockID cursor blocks (w : world) :
  fetchPages GetChildren (S fuel) client blockID cursor blocks w =
  let request := {| StartCursor := cursor; PageSize := 100 |} in
  let w1 := afterCalls (fst (GetChildren (srv w) client blockID request))
              [NotionGetChildren blockID request
                 (snd (GetChildren (srv w) client blockID request))] w in
  match snd (GetChildren (srv w) client blockID request) with
  | inl err => (Err ("failed to get blocks: " +:+ err), w1)
  | inr resp =>
      if HasMore resp
      then fetchPages GetChildren fuel client blockID (NextCursor resp)
             (blocks ++ Results resp) w1
      else (Ok (blocks ++ Results resp), w1)
  end.
Proof.
  simpl. rewrite callGetChildren_spec. cbv zeta.
  destruct (snd (GetChildren (srv w) client blockID
                   {| StartCursor := cursor; PageSize := 100 |})); reflexivity.
Qed.


(** Conversely the loop returns only after the server has reported that no
    page is left. *)
Lemma fetchPages_Ok_Paged fuel client blockID cursor blocks (w : world) result w' :
  fetchPages GetChildren fuel client blockID cursor blocks w = (Ok result, w') ->
  exists rs,
    Paged GetChildren client blockID (srv w) cursor rs (srv w') /\
    result = blocks ++ concat (map Results rs) /\
    w' = afterCalls (srv w') (pageCalls blockID cursor rs) w.
Proof.
  revert cursor blocks w. induction fuel as [|fuel IH]; intros cursor blocks w H.
  - discriminate H.
  - rewrite fetchPages_step in H. cbv zeta in H.
    destruct (GetChildren (srv w) client blockID
                {| StartCursor := cursor; PageSize := 100 |}) as [s [e|r]] eqn:Hcall;
      simpl in H; [discriminate H|].
    destruct (HasMore r) eqn:Hmore.
    + apply IH in H as (rs & Hp & -> & Hw). exists (r :: rs). split; [|split].
      * eapply Paged_more; eauto.
      * simpl. now rewrite <- app_assoc.
      * rewrite Hw at 1. now rewrite afterCalls_afterCalls.
    + inversion H; subst. exists [r]. split; [|split].
      * apply Paged_last; assumption.
      * simpl. now rewrite app_nil_r.
      * reflexivity.
Qed.

Lemma fetchedBlocks_app t1 t2 : fetchedBlocks (t1 ++ t2) = fetchedBlocks t1 ++ fetchedBlocks t2.
Proof. unfold fetchedBlocks. apply flat_map_app. Qed.

Lemma fetchedBlocks_pageCalls blockID cursor rs :
  fetchedBlocks (pageCalls blockID cursor rs) = concat (map Results rs).
Proof.
  revert cursor. induction rs as [|r rs IH]; intros cursor; [reflexivity|].
  simpl. f_equal. apply IH.
Qed.



(** ** The keys of [blockChildren] *)

Ltac set_taut :=
  apply set_eq; intros ?;
  rewrite ?elem_of_union, ?elem_of_singleton, ?elem_of_empty; tauto.

Lemma elem_of_flagged (k : BlockID) (blocks : list Block) :
  k ∈ flagged blocks <->
  exists b, b ∈ blocks /\ GetID b = k /\ GetHasChildren b = true.
Proof.
  unfold flagged. rewrite elem_of_list_to_set, list_elem_of_fmap. split.
  - intros (b & -> & Hb). apply list_elem_of_filter in Hb as [Hc Hb]. eauto.
  - intros (b & Hb & <- & Hc). exists b. split; [reflexivity|].
    apply list_elem_of_filter. auto.
Qed.

Lemma flagged_nil : flagged [] = ∅.
Proof. reflexivity. Qed.

Lemma flagged_app (l1 l2 : list Block) : flagged (l1 ++ l2) = flagged l1 ∪ flagged l2.
Proof.
  apply set_eq. intros k. rewrite elem_of_union, !elem_of_flagged. split.
  - intros (b & Hb & ? & ?). apply elem_of_app in Hb as [Hb|Hb]; eauto.
  - intros [(b & Hb & ? & ?)|(b & Hb & ? & ?)]; exists b;
      (split; [apply elem_of_app; auto | auto]).
Qed.

Lemma flagged_cons_true (b : Block) (l : list Block) :
  GetHasChildren b = true -> flagged (b :: l) = {[GetID b]} ∪ flagged l.
Proof.
  intros Hb. unfold flagged. rewrite filter_cons_True by exact Hb. reflexivity.
Qed.

Lemma flagged_cons_false (b : Block) (l : list Block) :
  GetHasChildren b = false -> flagged (b :: l) = flagged l.
Proof.
  intros Hb. unfold flagged. rewrite filter_cons_False; [reflexivity|]. congruence.
Qed.

(** The second loop of [fetchChildBlocks] adds to the keys of the map the
    ids of the blocks of its list, and of the blocks received below them,
    whose flag [has_children] is set. *)
Lemma expandLoop_keys (recurse : BlockID -> M (list Block)) :
  (forall id w kids w',
     recurse id w = (Ok kids, w') ->
     exists tr, net w' = net w ++ tr /\
       dom (blockChildren w') = dom (blockChildren w) ∪ flagged (fetchedBlocks tr)) ->
  forall blocks w w',
    forBlocks (expandLoopBody recurse) blocks w = (Ok tt, w') ->
    exists tr, net w' = net w ++ tr /\
      dom (blockChildren w') =
      dom (blockChildren w) ∪ flagged blocks ∪ flagged (fetchedBlocks tr).
Proof.
  intros Hrec. induction blocks as [|b rest IH]; intros w w' H.
  - inversion H; subst. exists []. rewrite app_nil_r. split; [reflexivity|].
    change (fetchedBlocks []) with (@nil Block). rewrite flagged_nil. set_taut.
  - simpl in H. apply bind_Ok_inv in H as (u & w1 & Hb & Hrest).
    apply IH in Hrest as (tr2 & Hn2 & Hd2).
    unfold expandLoopBody in Hb. destruct (GetHasChildren b) eqn:Hc.
    + apply bind_Ok_inv in Hb as (kids & w0 & Hk & Hs).
      apply Hrec in Hk as (tr1 & Hn1 & Hd1). inversion Hs; subst w1; clear Hs.
      simpl in Hn2, Hd2. exists (tr1 ++ tr2). split.
      * now rewrite Hn2, Hn1, app_assoc.
      * rewrite Hd2, dom_insert_L, Hd1, fetchedBlocks_app, flagged_app,
          (flagged_cons_true _ _ Hc).
        set_taut.
    + inversion Hb; subst w1. exists tr2. split; [exact Hn2|].
      rewrite Hd2, (flagged_cons_false _ _ Hc). reflexivity.
Qed.

Lemma fetchChildBlocks_keys fuel blockID client (w : world) blocks w' :
  fetchChildBlocks GetChildren fuel blockID client w = (Ok blocks, w') ->
  exists tr, net w' = net w ++ tr /\
    dom (blockChildren w') = dom (blockChildren w) ∪ flagged (fetchedBlocks tr).
Proof.
  revert blockID w blocks w'.
  induction fuel as [|fuel IH]; intros blockID w blocks w' H; [discriminate H|].
  simpl in H. apply bind_Ok_inv in H as (bs & w1 & Hpages & H).
  apply bind_Ok_inv in H as (u & w2 & Hloop & H). inversion H; subst; clear H.
  apply fetchPages_Ok_Paged in Hpages as (rs & _ & -> & Hw1).
  destruct u.
  apply (expandLoop_keys _ (fun id => IH id)) in Hloop as (tr & Hn & Hd).
  exists (pageCalls blockID "" rs ++ tr). split.
  - rewrite Hn, Hw1. simpl. now rewrite app_assoc.
  - rewrite Hd, Hw1, fetchedBlocks_app, fetchedBlocks_pageCalls, !flagged_app,
      flagged_nil.
    simpl. set_taut.
Qed.

(** ** Blocks without an entry in the map are leaves of the walks *)

Lemma hasEntry_None id (w : world) :
  blockChildren w !! id = None -> hasEntry id w = false.
Proof.
  intros H. unfold hasEntry. apply bool_decide_eq_false. rewrite H.
  intros [x Hx]. discriminate Hx.
Qed.

Lemma hasEntry_Some id (w : world) kids :
  blockChildren w !! id = Some kids -> hasEntry id w = true.
Proof.
  intros H. unfold hasEntry. apply bool_decide_eq_true. rewrite H. eauto.
Qed.

Lemma printLoopBody_leaf recurse depth block (w : world) :
  blockChildren w !! GetID block = None ->
  printLoopBody recurse depth block w = do_printBlock block depth w.
Proof.
  intros H. unfold printLoopBody, bind, do_printBlock.
  destruct (printBlock block depth) as [out|]; [|reflexivity].
  unfold fmt_Print, hasEntry. simpl. rewrite H.
  rewrite bool_decide_eq_false_2; [reflexivity | intros [x Hx]; discriminate Hx].
Qed.

Lemma collectLoopBody_leaf recurse block (w : world) :
  blockChildren w !! GetID block = None ->
  collectLoopBody recurse block w = WriteString (blockText block +:+ nl +:+ nl) w.
Proof.
  intros H. unfold collectLoopBody, bind, WriteString, hasEntry. simpl. rewrite H.
  rewrite bool_decide_eq_false_2; [|intros [x Hx]; discriminate Hx].
  now rewrite !append_assoc.
Qed.

(** C5: after a fetch that returns, the keys of [blockChildren] are the keys
    it had before (none in a fresh process) and the ids of the blocks
    received during the fetch whose flag [has_children] was set, and nothing
    else; and the loops of both walks treat a block whose id has no entry in
    the map as a leaf: they print it, or write its text, and do not call
    themselves for it. *)
Theorem tree_keys_are_flagged_blocks fuel blockID client (w : world) blocks w' :
  fetchChildBlocks GetChildren fuel blockID client w = (Ok blocks, w') ->
  (exists tr,
     net w' = net w ++ tr /\
     forall k,
       k ∈ dom (blockChildren w') <->
       k ∈ dom (blockChildren w) \/
       exists b, b ∈ fetchedBlocks tr /\ GetID b = k /\ GetHasChildren b = true) /\
  (forall printRec collectRec depth block,
     blockChildren w' !! GetID block = None ->
     printLoopBody printRec depth block w' = do_printBlock block depth w' /\
     collectLoopBody collectRec block w'
     = WriteString (blockText block +:+ nl +:+ nl) w').
Proof.
  intros H. split.
  - apply fetchChildBlocks_keys in H as (tr & Hn & Hd). exists tr.
    split; [exact Hn|]. intros k. now rewrite Hd, elem_of_union, elem_of_flagged.
  - intros printRec collectRec depth block Hk.
    split; [now apply printLoopBody_leaf | now apply collectLoopBody_leaf].
Qed.

(** ** Rendering sibling leaves *)

Lemma fmt_Print_nil (w : world) : fmt_Print "" w = (Ok tt, w).
Proof. unfold fmt_Print. rewrite append_nil_r. now destruct w. Qed.

Lemma fmt_Print_twice a b (w : world) :
  fmt_Print b (snd (fmt_Print a w)) = fmt_Print (a +:+ b) w.
Proof. unfold fmt_Print. simpl. now rewrite append_assoc. Qed.

Lemma printLoop_leaves recurse depth blocks outs (w : world) :
  Forall2 (fun b out => printBlock b depth = Some out) blocks outs ->
  Forall (fun b => blockChildren w !! GetID b = None) blocks ->
  forBlocks (printLoopBody recurse depth) blocks w
  = fmt_Print (String.concat "" outs) w.
Proof.
  intros H. revert w. induction H as [|b out blocks outs Hb _ IH]; intros w Hl.
  - simpl. now rewrite fmt_Print_nil.
  - inversion Hl as [|? ? Hk Hl']; subst. simpl forBlocks. unfold bind.
    rewrite (printLoopBody_leaf _ _ _ _ Hk). unfold do_printBlock. rewrite Hb.
    change (fmt_Print out w) with (Ok tt, snd (fmt_Print out w)). cbv iota beta.
    rewrite IH by exact Hl'. rewrite fmt_Print_twice. f_equal.
    destruct outs; simpl; [now rewrite append_nil_r | reflexivity].
Qed.

(** C9: a numbered-list item is printed as the indentation, the literal
    ["1. "], its text and a line feed, whatever its position: a sequence of
    sibling numbered items (leaves of the walk) is printed as that many
    lines, each with the prefix ["1. "]; no counter is kept. *)
Theorem numbered_items_literal_prefix :
  (forall b depth rt,
     body b = NumberedListItemBlock rt ->
     printBlock b depth
     = Some (Repeat "    " depth +:+ "1. " +:+ getRichTextContent rt +:+ nl)) /\
  (forall recurse depth blocks (w : world),
     Forall (fun b => exists rt, body b = NumberedListItemBlock rt) blocks ->
     Forall (fun b => blockChildren w !! GetID b = None) blocks ->
     forBlocks (printLoopBody recurse depth) blocks w
     = fmt_Print
         (String.concat ""
            (map (fun b => Repeat "    " depth +:+ "1. " +:+ blockText b +:+ nl)
                 blocks)) w).
Proof.
  split.
  - intros b depth rt Hb. unfold printBlock. now rewrite Hb.
  - intros recurse depth blocks w Hn Hl. apply printLoop_leaves; [|exact Hl].
    clear Hl. induction Hn as [|b blocks [rt Hb] _ IH]; simpl; constructor.
    + unfold printBlock, blockText. now rewrite Hb.
    + exact IH.
Qed.


(** * Further properties of the fetch and of the walks *)

(** ** What is sent over the network *)

Lemma traceShape_quiet {A} (o : outcome A) (w w' : world) :
  (forall e, o <> Err e) -> net w' = net w -> traceShape o w w'.
Proof.
  intros Ho Hn. exists []. split; [constructor|].
  destruct o as [a|e| |]; try (now rewrite Hn, app_nil_r).
  now contradiction (Ho e).
Qed.

Lemma shaped_ret {A} (a : A) : shaped (ret a : M A).
Proof.
  intros w o w' H. injection H as <- <-. apply traceShape_quiet; [discriminate | reflexivity].
Qed.

Lemma traceShape_Ok_then {A B} (a : A) (o : outcome B) (w w1 w' : world) :
  traceShape (Ok a) w w1 -> traceShape o w1 w' -> traceShape o w w'.
Proof.
  intros (tr1 & Hf1 & Hn1) (tr2 & Hf2 & Hn2). exists (tr1 ++ tr2).
  split; [apply Forall_app; auto|].
  destruct o as [b|e| |]; try (now rewrite Hn2, Hn1, app_assoc).
  destruct Hn2 as (id & p & msg & Hp & He & Hn2). exists id, p, msg.
  split; [exact Hp|]. split; [exact He|]. now rewrite Hn2, Hn1, !app_assoc.
Qed.

Lemma shaped_bind {A B} (m : M A) (k : A -> M B) :
  shaped m -> (forall a, shaped (k a)) -> shaped (bind m k).
Proof.
  intros Hm Hk w o w' H. unfold bind in H.
  destruct (m w) as [[a|e| |] w1] eqn:E; specialize (Hm _ _ _ E).
  - eapply traceShape_Ok_then; [exact Hm | eapply Hk; exact H].
  - injection H as <- <-. exact Hm.
  - injection H as <- <-. exact Hm.
  - injection H as <- <-. exact Hm.
Qed.

Lemma shaped_forBlocks (loopBody : Block -> M unit) (blocks : list Block) :
  (forall b, shaped (loopBody b)) -> shaped (forBlocks loopBody blocks).
Proof.
  intros Hb. induction blocks as [|b rest IH]; simpl.
  - apply shaped_ret.
  - apply shaped_bind; [apply Hb | intros _; exact IH].
Qed.

Lemma shaped_fetchPages fuel client blockID cursor blocks :
  shaped (fetchPages GetChildren fuel client blockID cursor blocks).
Proof.
  revert cursor blocks. induction fuel as [|fuel IH]; intros cursor blocks w o w' H.
  - injection H as <- <-. apply traceShape_quiet; [discriminate | reflexivity].
  - rewrite fetchPages_step in H. cbv zeta in H.
    destruct (GetChildren (srv w) client blockID
                {| StartCursor := cursor; PageSize := 100 |}) as [s [e|r]];
      cbn [fst snd] in H.
    + injection H as <- <-. exists []. split; [constructor|].
      eexists _, _, e. split; [|split; reflexivity]. reflexivity.
    + assert (traceShape (Ok r) w
                (afterCalls s
                   [NotionGetChildren blockID
                      {| StartCursor := cursor; PageSize := 100 |} (inr r)] w)) as Hcall.
      { eexists. split; [|reflexivity]. repeat constructor. }
      destruct (HasMore r).
      * eapply traceShape_Ok_then; [exact Hcall | eapply IH; exact H].
      * injection H as <- <-. destruct Hcall as (tr & Hf & Hn). exists tr. auto.
Qed.

Lemma shaped_quiet {A} (m : M A) :
  (forall w o w', m w = (o, w') -> (forall e, o <> Err e) /\ net w' = net w) ->
  shaped m.
Proof. intros Hm w o w' H. destruct (Hm _ _ _ H). now apply traceShape_quiet. Qed.

Lemma shaped_storeChildren id kids : shaped (storeChildren id kids : M unit).
Proof.
  apply shaped_quiet. intros w o w' H. injection H as <- <-. split; [discriminate | reflexivity].
Qed.

Lemma shaped_fmt_Print out : shaped (fmt_Print out : M unit).
Proof.
  apply shaped_quiet. intros w o w' H. injection H as <- <-. split; [discriminate | reflexivity].
Qed.

Lemma shaped_WriteString out : shaped (WriteString out : M unit).
Proof.
  apply shaped_quiet. intros w o w' H. injection H as <- <-. split; [discriminate | reflexivity].
Qed.

Lemma shaped_fetchChildBlocks fuel blockID client :
  shaped (fetchChildBlocks GetChildren fuel blockID client).
Proof.
  revert blockID. induction fuel as [|fuel IH]; intros blockID.
  - apply shaped_quiet. intros w o w' H. injection H as <- <-.
    split; [discriminate | reflexivity].
  - simpl. apply shaped_bind; [apply shaped_fetchPages|].
    intros blocks. apply shaped_bind; [|intros _; apply shaped_ret].
    apply shaped_forBlocks. intros b. unfold expandLoopBody.
    destruct (GetHasChildren b); [|apply shaped_ret].
    apply shaped_bind; [apply IH | intros kids; apply shaped_storeChildren].
Qed.

Lemma shaped_if {A} (c : world -> bool) (m1 m2 : M A) :
  shaped m1 -> shaped m2 -> shaped (fun w => if c w then m1 w else m2 w).
Proof. intros H1 H2 w o w' H. destruct (c w); eauto. Qed.

Lemma shaped_printBlocksRecursive fuel client blockID depth :
  shaped (printBlocksRecursive GetChildren fuel client blockID depth).
Proof.
  revert blockID depth. induction fuel as [|fuel IH]; intros blockID depth.
  - apply shaped_quiet. intros w o w' H. injection H as <- <-.
    split; [discriminate | reflexivity].
  - simpl. apply shaped_bind; [apply shaped_fetchChildBlocks|].
    intros blocks. apply shaped_forBlocks. intros b. unfold printLoopBody.
    apply shaped_bind.
    + unfold do_printBlock. destruct (printBlock b depth); [apply shaped_fmt_Print|].
      apply shaped_quiet. intros w o w' H. injection H as <- <-.
      split; [discriminate | reflexivity].
    + intros _. apply shaped_if; [apply IH | apply shaped_ret].
Qed.

Lemma shaped_collectContent fuel client blockID :
  shaped (collectContent GetChildren fuel client blockID).
Proof.
  revert blockID. induction fuel as [|fuel IH]; intros blockID.
  - apply shaped_quiet. intros w o w' H. injection H as <- <-.
    split; [discriminate | reflexivity].
  - simpl. apply shaped_bind; [apply shaped_fetchChildBlocks|].
    intros blocks. apply shaped_forBlocks. intros b. unfold collectLoopBody.
    apply shaped_bind; [apply shaped_WriteString|]. intros _.
    apply shaped_bind; [apply shaped_WriteString|]. intros _.
    apply shaped_if; [apply IH | apply shaped_ret].
Qed.

(** X8: the fetch and both walks fail fast and wrap the error once.
    Whatever the server does, every request they send is a list-children
    request for a page of 100; when they return an error, the failed
    request is the last one they sent, every request before it was
    answered, and the error is ["failed to get blocks: "] followed by the
    message of the failed request (an error that comes up through the
    recursion is not wrapped again); when they do not return an error,
    every request was answered. *)
Theorem fetch_fails_fast :
  (forall fuel blockID client (w : world) o w',
     fetchChildBlocks GetChildren fuel blockID client w = (o, w') ->
     traceShape o w w') /\
  (forall fuel client blockID depth (w : world) o w',
     printBlocksRecursive GetChildren fuel client blockID depth w = (o, w') ->
     traceShape o w w') /\
  (forall fuel client blockID (w : world) o w',
     collectContent GetChildren fuel client blockID w = (o, w') ->
     traceShape o w w').
Proof.
  split; [|split].
  - intros fuel blockID client. apply shaped_fetchChildBlocks.
  - intros fuel client blockID depth. apply shaped_printBlocksRecursive.
  - intros fuel client blockID. apply shaped_collectContent.
Qed.

(** ** Who writes what *)

Lemma printFrame_refl (w : world) : printFrame w w.
Proof. repeat split. exists "". now rewrite append_nil_r. Qed.

Lemma printFrame_trans (w1 w2 w3 : world) :
  printFrame w1 w2 -> printFrame w2 w3 -> printFrame w1 w3.
Proof.
  intros (He1 & Hr1 & Hc1 & o1 & Ho1) (He2 & Hr2 & Hc2 & o2 & Ho2).
  split; [congruence|]. split; [congruence|]. split; [congruence|].
  exists (o1 +:+ o2). now rewrite Ho2, Ho1, append_assoc.
Qed.

Lemma collectFrame_refl (w : world) : collectFrame w w.
Proof. repeat split. exists "". now rewrite append_nil_r. Qed.

Lemma collectFrame_trans (w1 w2 w3 : world) :
  collectFrame w1 w2 -> collectFrame w2 w3 -> collectFrame w1 w3.
Proof.
  intros (He1 & Hr1 & Hc1 & o1 & Ho1) (He2 & Hr2 & Hc2 & o2 & Ho2).
  split; [congruence|]. split; [congruence|]. split; [congruence|].
  exists (o1 +:+ o2). now rewrite Ho2, Ho1, append_assoc.
Qed.

Lemma printBlocksRecursive_printFrame fuel client blockID depth :
  preserves printFrame (printBlocksRecursive GetChildren fuel client blockID depth).
Proof.
  apply printBlocksRecursive_preserves;
    [apply printFrame_refl | apply printFrame_trans
    | apply fetchPages_respects | |].
  - intros s tr w. apply (printFrame_refl w).
  - intros id kids w. apply (printFrame_refl w).
  - intros out w. repeat split. now exists out.
Qed.

Lemma collectContent_collectFrame fuel client blockID :
  preserves collectFrame (collectContent GetChildren fuel client blockID).
Proof.
  apply collectContent_preserves;
    [apply collectFrame_refl | apply collectFrame_trans
    | apply fetchPages_respects | |].
  - intros s tr w. apply (collectFrame_refl w).
  - intros id kids w. apply (collectFrame_refl w).
  - intros out w. repeat split. now exists out.
Qed.

(** X9: who writes what.  [fetchChildBlocks] leaves the environment, both
    output streams and the builder as they are: it only talks to the server
    and fills the map.  [printBlocksRecursive] appends to the standard
    output and writes neither to the error stream nor to the builder.
    [collectContent] appends to the builder and prints nothing.  This holds
    for every outcome, also when the function fails or panics. *)
Theorem walks_write_to_their_own_stream :
  (forall fuel blockID client (w : world) o w',
     fetchChildBlocks GetChildren fuel blockID client w = (o, w') ->
     environ w' = environ w /\ stdout w' = stdout w /\ stderr w' = stderr w /\
     contentBuilder w' = contentBuilder w) /\
  (forall fuel client blockID depth (w : world) o w',
     printBlocksRecursive GetChildren fuel client blockID depth w = (o, w') ->
     environ w' = environ w /\ stderr w' = stderr w /\
     contentBuilder w' = contentBuilder w /\
     exists out, stdout w' = stdout w +:+ out) /\
  (forall fuel client blockID (w : world) o w',
     collectContent GetChildren fuel client blockID w = (o, w') ->
     environ w' = environ w /\ stderr w' = stderr w /\ stdout w' = stdout w /\
     exists text, contentBuilder w' = contentBuilder w +:+ text).
Proof.
  split; [|split].
  - intros fuel blockID client w o w' H.
    exact (fetchChildBlocks_fetchFrame _ _ _ _ _ _ H).
  - intros fuel client blockID depth w o w' H.
    exact (printBlocksRecursive_printFrame _ _ _ _ _ _ _ H).
  - intros fuel client blockID w o w' H.
    exact (collectContent_collectFrame _ _ _ _ _ _ H).
Qed.

(** ** The map only grows *)

Lemma keysKept_refl (w : world) : keysKept w w.
Proof. unfold keysKept. reflexivity. Qed.

Lemma keysKept_trans (w1 w2 w3 : world) :
  keysKept w1 w2 -> keysKept w2 w3 -> keysKept w1 w3.
Proof. unfold keysKept. intros H1 H2. etransitivity; eassumption. Qed.

Lemma keysKept_store id kids (w : world) : keysKept w (snd (storeChildren id kids w)).
Proof.
  unfold keysKept. simpl. rewrite dom_insert_L. apply union_subseteq_r.
Qed.

(** X10: no entry of [blockChildren] is ever removed.  Across a fetch and
    across either walk, whatever the server answers and whatever the
    outcome, every key the map had is still a key afterwards; the program
    has no operation that deletes from the map. *)
Theorem blockChildren_keys_are_kept :
  (forall fuel blockID client (w : world) o w',
     fetchChildBlocks GetChildren fuel blockID client w = (o, w') ->
     dom (blockChildren w) ⊆ dom (blockChildren w')) /\
  (forall fuel client blockID depth (w : world) o w',
     printBlocksRecursive GetChildren fuel client blockID depth w = (o, w') ->
     dom (blockChildren w) ⊆ dom (blockChildren w')) /\
  (forall fuel client blockID (w : world) o w',
     collectContent GetChildren fuel client blockID w = (o, w') ->
     dom (blockChildren w) ⊆ dom (blockChildren w')).
Proof.
  assert (forall fuel client blockID cursor blocks,
            preserves keysKept
              (fetchPages GetChildren fuel client blockID cursor blocks)) as Hpages.
  { apply fetchPages_respects. intros s tr w. apply (keysKept_refl w). }
  split; [|split].
  - intros fuel blockID client w o w' H.
    exact (fetchChildBlocks_preserves keysKept keysKept_refl keysKept_trans Hpages
             keysKept_store fuel blockID client w o w' H).
  - intros fuel client blockID depth w o w' H.
    exact (printBlocksRecursive_preserves keysKept keysKept_refl keysKept_trans Hpages
             keysKept_store (fun out w => keysKept_refl w)
             fuel client blockID depth w o w' H).
  - intros fuel client blockID w o w' H.
    exact (collectContent_preserves keysKept keysKept_refl keysKept_trans Hpages
             keysKept_store (fun out w => keysKept_refl w)
             fuel client blockID w o w' H).
Qed.

(** ** Runs that never return *)

Lemma fetchPages_endless :
  (forall s c id p,
     exists s' r, GetChildren s c id p = (s', inr r) /\ HasMore r = true) ->
  forall fuel client blockID cursor blocks (w : world),
    exists w',
      fetchPages GetChildren fuel client blockID cursor blocks w = (OutOfFuel, w') /\
      length (net w') = length (net w) + fuel.
Proof.
  intros Hmore. induction fuel as [|fuel IH]; intros client blockID cursor blocks w.
  - exists w. split; [reflexivity | lia].
  - rewrite fetchPages_step. cbv zeta.
    destruct (Hmore (srv w) client blockID
                {| StartCursor := cursor; PageSize := 100 |}) as (s' & r & Hc & Hm).
    rewrite Hc. cbn [fst snd]. rewrite Hm.
    destruct (IH client blockID (NextCursor r) (blocks ++ Results r)
                (afterCalls s'
                   [NotionGetChildren blockID
                      {| StartCursor := cursor; PageSize := 100 |} (inr r)] w))
      as (w' & Hrun & Hlen).
    exists w'. split; [exact Hrun|]. rewrite Hlen. simpl. rewrite length_app. simpl. lia.
Qed.

(** X11: the pagination loop has no bound of its own.  On a server that
    reports more pages in every reply, [fetchChildBlocks] never returns:
    whatever the fuel, the model runs out of it, after one more request for
    each unit of fuel, all of them for the first block; the two walks, which
    begin with a fetch, never return either and print or collect nothing. *)
Theorem endless_pagination_never_returns :
  (forall s c id p,
     exists s' r, GetChildren s c id p = (s', inr r) /\ HasMore r = true) ->
  forall fuel client blockID depth (w : world),
    (exists w',
       fetchChildBlocks GetChildren (S fuel) blockID client w = (OutOfFuel, w') /\
       length (net w') = length (net w) + fuel) /\
    (exists w',
       printBlocksRecursive GetChildren (S (S fuel)) client blockID depth w
       = (OutOfFuel, w') /\
       stdout w' = stdout w) /\
    (exists w',
       collectContent GetChildren (S (S fuel)) client blockID w = (OutOfFuel, w') /\
       contentBuilder w' = contentBuilder w).
Proof.
  intros Hmore fuel client blockID depth w.
  destruct (fetchPages_endless Hmore fuel client blockID "" [] w) as (w' & Hrun & Hlen).
  assert (fetchChildBlocks GetChildren (S fuel) blockID client w = (OutOfFuel, w'))
    as Hfetch by (simpl; unfold bind; now rewrite Hrun).
  split; [exists w'; split; [exact Hfetch | exact Hlen]|].
  destruct (fetchChildBlocks_fetchFrame _ _ _ _ _ _ Hfetch) as (_ & Ho & _ & Hc).
  split; exists w'; (split; [simpl; unfold bind; simpl in Hfetch; unfold bind in Hfetch;
                             now rewrite Hfetch | assumption]).
Qed.

Lemma expandLoop_first_flagged (recurse : BlockID -> M (list Block))
    (P : BlockID -> Prop) (Q : Srv -> Prop) :
  (forall id (w : world), Q (srv w) -> P id -> fst (recurse id w) = OutOfFuel) ->
  forall blocks (w : world),
    Q (srv w) ->
    Exists (fun b => GetHasChildren b = true) blocks ->
    Forall (fun b => GetHasChildren b = true -> P (GetID b)) blocks ->
    fst (forBlocks (expandLoopBody recurse) blocks w) = OutOfFuel.
Proof.
  intros Hrec. induction blocks as [|b rest IH]; intros w Hq Hex Hall.
  - inversion Hex.
  - pose proof (Forall_inv Hall) as Hb. pose proof (Forall_inv_tail Hall) as Hrest.
    simpl in Hb. simpl forBlocks. unfold bind at 1. unfold expandLoopBody at 1.
    destruct (GetHasChildren b) eqn:Hc.
    + unfold bind at 1. specialize (Hrec (GetID b) w Hq (Hb eq_refl)).
      destruct (recurse (GetID b) w) as [o w1]. simpl in Hrec. subst o. reflexivity.
    + simpl. apply IH; [exact Hq | | exact Hrest].
      inversion Hex as [? ? Hh|? ? Hh]; subst; [congruence | exact Hh].
Qed.

(** X12: the recursion of [fetchChildBlocks] has no guard against a cycle:
    it does not consult the map before it fetches the children of a block.
    When, in the server states [Q], the blocks of a set [P] are served each
    as one page that contains a block with children, every such block is in
    [P] again and the server stays in [Q], the fetch of a block of [P]
    never returns, whatever the fuel. *)
Theorem cyclic_document_never_returns
    (P : BlockID -> Prop) (Q : Srv -> Prop) client :
  (forall s id,
     Q s -> P id ->
     exists s' r,
       GetChildren s client id {| StartCursor := ""; PageSize := 100 |} = (s', inr r) /\
       Q s' /\
       HasMore r = false /\
       Exists (fun b => GetHasChildren b = true) (Results r) /\
       Forall (fun b => GetHasChildren b = true -> P (GetID b)) (Results r)) ->
  forall fuel blockID (w : world),
    Q (srv w) -> P blockID ->
    fst (fetchChildBlocks GetChildren fuel blockID client w) = OutOfFuel.
Proof.
  intros Hcyc. induction fuel as [|fuel IH]; intros blockID w Hq Hp; [reflexivity|].
  simpl. unfold bind at 1.
  destruct fuel as [|fuel]; [reflexivity|].
  rewrite fetchPages_step. cbv zeta.
  destruct (Hcyc (srv w) blockID Hq Hp) as (s' & r & Hc & Hq' & Hm & Hex & Hall).
  rewrite Hc. cbn [fst snd]. rewrite Hm. simpl app. unfold bind at 1.
  pose proof (expandLoop_first_flagged
                (fun id => fetchChildBlocks GetChildren (S fuel) id client) P Q
                (fun id w0 Hq0 Hid => IH id w0 Hq0 Hid) (Results r)
                (afterCalls s'
                   [NotionGetChildren blockID
                      {| StartCursor := ""; PageSize := 100 |} (inr r)] w)
                Hq' Hex Hall) as Hloop.
  destruct (forBlocks _ (Results r) _) as [o w2]. simpl in Hloop. subst o. reflexivity.
Qed.

(** * Which blocks are asked for *)

Lemma idsOf_app a b x : x ∈ idsOf (a ++ b) <-> x ∈ idsOf a \/ x ∈ idsOf b.
Proof.
  induction a as [|c a IH]; simpl.
  - rewrite elem_of_empty. tauto.
  - rewrite !elem_of_union, IH. tauto.
Qed.

Lemma received_app a b x : x ∈ received (a ++ b) <-> x ∈ received a \/ x ∈ received b.
Proof.
  induction a as [|c a IH]; simpl.
  - rewrite elem_of_empty. tauto.
  - rewrite !elem_of_union, IH. tauto.
Qed.

Lemma requestsFrom_mono tr : forall K K' : gset BlockID,
  (forall x, x ∈ K -> x ∈ K') -> requestsFrom K tr -> requestsFrom K' tr.
Proof.
  induction tr as [|e tr IH]; intros K K' Hsub H; [exact I|].
  destruct H as [He Hrest]. split.
  - destruct e as [id p reply|k c]; [apply Hsub; exact He | exact He].
  - apply (IH (K ∪ receivedBy e)); [|exact Hrest].
    intros x. rewrite !elem_of_union. intros [Hx|Hx]; [left; apply Hsub; exact Hx | now right].
Qed.

Lemma requestsFrom_app tr1 : forall (K : gset BlockID) tr2,
  requestsFrom K tr1 -> requestsFrom (K ∪ received tr1) tr2 ->
  requestsFrom K (tr1 ++ tr2).
Proof.
  induction tr1 as [|e tr1 IH]; intros K tr2 H1 H2.
  - simpl in *. eapply requestsFrom_mono; [|exact H2].
    intros x. rewrite elem_of_union, elem_of_empty. tauto.
  - destruct H1 as [He Hrest]. split; [exact He|].
    apply IH; [exact Hrest|]. eapply requestsFrom_mono; [|exact H2].
    intros x. simpl. rewrite !elem_of_union. tauto.
Qed.

Lemma asksFrom_mono {A} (K K' : gset BlockID) (m : M A) :
  (forall x, x ∈ K -> x ∈ K') -> asksFrom K m -> asksFrom K' m.
Proof.
  intros Hsub Hm w o w' H. destruct (Hm _ _ _ H) as (tr & Hn & Hr).
  exists tr. split; [exact Hn|]. eapply requestsFrom_mono; eassumption.
Qed.

Lemma asksFrom_quiet {A} (K : gset BlockID) (m : M A) :
  (forall w o w', m w = (o, w') -> net w' = net w) -> asksFrom K m.
Proof.
  intros Hm w o w' H. exists []. split; [|exact I].
  rewrite app_nil_r. eapply Hm. exact H.
Qed.

Lemma asksFrom_bind {A B} (K : gset BlockID) (m : M A) (k : A -> M B) :
  asksFrom K m -> (forall a, asksFrom K (k a)) -> asksFrom K (bind m k).
Proof.
  intros Hm Hk w o w' H. unfold bind in H.
  destruct (m w) as [[a|e| |] w1] eqn:E; destruct (Hm _ _ _ E) as (tr1 & Hn1 & Hr1);
    try (injection H as <- <-; exists tr1; split; assumption).
  destruct (Hk a _ _ _ H) as (tr2 & Hn2 & Hr2).
  exists (tr1 ++ tr2). split; [now rewrite Hn2, Hn1, app_assoc|].
  apply requestsFrom_app; [exact Hr1|].
  eapply requestsFrom_mono; [|exact Hr2]. intros x Hx. apply elem_of_union. now left.
Qed.

Lemma asksFrom_forBlocks (K : gset BlockID) (loopBody : Block -> M unit) blocks :
  (forall b, GetID b ∈ K -> asksFrom K (loopBody b)) ->
  (forall x, x ∈ idsOf blocks -> x ∈ K) ->
  asksFrom K (forBlocks loopBody blocks).
Proof.
  intros Hb. induction blocks as [|b rest IH]; intros Hids.
  - apply asksFrom_quiet. intros w o w' H. now injection H as <- <-.
  - change (forBlocks loopBody (b :: rest))
      with (bind (loopBody b) (fun _ => forBlocks loopBody rest)).
    apply asksFrom_bind.
    + apply Hb, Hids. simpl. apply elem_of_union. left. now apply elem_of_singleton.
    + intros _. apply IH. intros x Hx. apply Hids. simpl. apply elem_of_union. now right.
Qed.

Lemma fetchPages_asks client id fuel :
  forall cursor blocks0 (w : world) o w',
    fetchPages GetChildren fuel client id cursor blocks0 w = (o, w') ->
    exists tr,
      net w' = net w ++ tr /\ requestsFrom {[ id ]} tr /\
      forall blocks, o = Ok blocks ->
        forall x, x ∈ idsOf blocks -> x ∈ idsOf blocks0 \/ x ∈ received tr.
Proof.
  induction fuel as [|fuel IH]; intros cursor blocks0 w o w' H.
  - injection H as <- <-. exists []. split; [now rewrite app_nil_r|].
    split; [exact I|]. intros blocks Habs. discriminate Habs.
  - rewrite fetchPages_step in H. cbv zeta in H.
    set (request := {| StartCursor := cursor; PageSize := 100 |}) in *.
    destruct (GetChildren (srv w) client id request) as [s [err|r]]; cbn [fst snd] in H.
    + injection H as <- <-. eexists. split; [reflexivity|]. split.
      * split; [now apply elem_of_singleton | exact I].
      * intros blocks Habs. discriminate Habs.
    + destruct (HasMore r).
      * apply IH in H as (tr & Hn & Hr & Hpost).
        exists (NotionGetChildren id request (inr r) :: tr). split.
        { rewrite Hn. simpl. now rewrite <- app_assoc. }
        split.
        { split; [now apply elem_of_singleton|].
          eapply requestsFrom_mono; [|exact Hr].
          intros x Hx. apply elem_of_union. now left. }
        intros blocks Ho x Hx. destruct (Hpost blocks Ho x Hx) as [Hin|Hin].
        -- apply idsOf_app in Hin as [Hin|Hin]; [now left|].
           right. simpl. apply elem_of_union. now left.
        -- right. simpl. apply elem_of_union. now right.
      * injection H as <- <-. eexists. split; [reflexivity|]. split.
        { split; [now apply elem_of_singleton | exact I]. }
        intros blocks Ho x Hx. injection Ho as <-.
        apply idsOf_app in Hx as [Hin|Hin]; [now left|].
        right. simpl. apply elem_of_union. now left.
Qed.

Lemma fetchChildBlocks_asks client fuel :
  forall id (w : world) o w',
    fetchChildBlocks GetChildren fuel id client w = (o, w') ->
    exists tr,
      net w' = net w ++ tr /\ requestsFrom {[ id ]} tr /\
      forall blocks, o = Ok blocks -> forall x, x ∈ idsOf blocks -> x ∈ received tr.
Proof.
  induction fuel as [|fuel IH]; intros id w o w' H.
  - injection H as <- <-. exists []. split; [now rewrite app_nil_r|].
    split; [exact I|]. intros blocks Habs. discriminate Habs.
  - change (fetchChildBlocks GetChildren (S fuel) id client w)
      with (bind (fetchPages GetChildren fuel client id "" [])
              (fun blocks =>
                 bind (forBlocks
                         (expandLoopBody
                            (fun id => fetchChildBlocks GetChildren fuel id client))
                         blocks)
                      (fun _ => ret blocks)) w) in H.
    unfold bind at 1 in H.
    destruct (fetchPages GetChildren fuel client id "" [] w) as [o1 w1] eqn:Hpages.
    apply fetchPages_asks in Hpages as (tr1 & Hn1 & Hr1 & Hpost).
    destruct o1 as [blocks|e| |];
      try (injection H as <- <-; exists tr1; split; [exact Hn1|]; split; [exact Hr1|];
           intros blocks Habs; discriminate Habs).
    assert (asksFrom ({[ id ]} ∪ received tr1)
              (forBlocks
                 (expandLoopBody (fun id => fetchChildBlocks GetChildren fuel id client))
                 blocks : M unit)) as Hloop.
    { apply asksFrom_forBlocks.
      - intros b Hb. unfold expandLoopBody. destruct (GetHasChildren b).
        + apply asksFrom_bind.
          * intros w0 o0 w0' H0. destruct (IH _ _ _ _ H0) as (tr & Hn & Hr & _).
            exists tr. split; [exact Hn|]. eapply requestsFrom_mono; [|exact Hr].
            intros x Hx. apply elem_of_singleton in Hx. now subst x.
          * intros kids. apply asksFrom_quiet. intros w0 o0 w0' H0.
            now injection H0 as <- <-.
        + apply asksFrom_quiet. intros w0 o0 w0' H0. now injection H0 as <- <-.
      - intros x Hx. apply elem_of_union. right.
        destruct (Hpost blocks eq_refl x Hx) as [Hin|Hin]; [|exact Hin].
        simpl in Hin. now apply elem_of_empty in Hin. }
    unfold bind in H.
    destruct (forBlocks _ blocks w1) as [o2 w2] eqn:Hrun.
    destruct (Hloop _ _ _ Hrun) as (tr2 & Hn2 & Hr2).
    assert (net w2 = net w ++ (tr1 ++ tr2)) as Hn by (now rewrite Hn2, Hn1, app_assoc).
    assert (requestsFrom {[ id ]} (tr1 ++ tr2)) as Hr
      by (apply requestsFrom_app; assumption).
    destruct o2 as [u|e| |]; injection H as <- <-; exists (tr1 ++ tr2);
      (split; [exact Hn|]); (split; [exact Hr|]); intros bs Ho; try discriminate Ho.
    injection Ho as <-. intros x Hx. apply received_app. left.
    destruct (Hpost blocks eq_refl x Hx) as [Hin|Hin]; [|exact Hin].
    simpl in Hin. now apply elem_of_empty in Hin.
Qed.

(** A walk: the fetch of the block, then a loop over the blocks it returned
    whose body asks only for the block at hand. *)
Lemma walk_asks client fuel id (loopBody : Block -> M unit) :
  (forall b, asksFrom {[ GetID b ]} (loopBody b)) ->
  asksFrom {[ id ]}
    (bind (fetchChildBlocks GetChildren fuel id client)
       (fun blocks => forBlocks loopBody blocks)).
Proof.
  intros Hbody w o w' H. unfold bind in H.
  destruct (fetchChildBlocks GetChildren fuel id client w) as [o1 w1] eqn:Hfetch.
  apply fetchChildBlocks_asks in Hfetch as (tr1 & Hn1 & Hr1 & Hpost).
  destruct o1 as [blocks|e| |];
    try (injection H as <- <-; exists tr1; split; assumption).
  assert (asksFrom ({[ id ]} ∪ received tr1) (forBlocks loopBody blocks)) as Hloop.
  { apply asksFrom_forBlocks.
    - intros b Hb. eapply asksFrom_mono; [|apply Hbody].
      intros x Hx. apply elem_of_singleton in Hx. now subst x.
    - intros x Hx. apply elem_of_union. right. exact (Hpost blocks eq_refl x Hx). }
  destruct (Hloop _ _ _ H) as (tr2 & Hn2 & Hr2).
  exists (tr1 ++ tr2). split; [now rewrite Hn2, Hn1, app_assoc|].
  apply requestsFrom_app; assumption.
Qed.

Lemma printBlocksRecursive_asks client fuel :
  forall id depth,
    asksFrom {[ id ]} (printBlocksRecursive GetChildren fuel client id depth).
Proof.
  induction fuel as [|fuel IH]; intros id depth.
  - apply asksFrom_quiet. intros w o w' H. now injection H as <- <-.
  - apply walk_asks. intros b. unfold printLoopBody. apply asksFrom_bind.
    + apply asksFrom_quiet. intros w o w' H.
      now destruct (do_printBlock_preserves (fun w w' : world => net w' = net w)
                      (fun _ => eq_refl) (fun _ _ => eq_refl) b depth w o w' H).
    + intros _ w o w' H. destruct (hasEntry (GetID b) w).
      * exact (IH _ _ _ _ _ H).
      * injection H as <- <-. exists []. split; [now rewrite app_nil_r | exact I].
Qed.

Lemma collectContent_asks client fuel :
  forall id, asksFrom {[ id ]} (collectContent GetChildren fuel client id).
Proof.
  induction fuel as [|fuel IH]; intros id.
  - apply asksFrom_quiet. intros w o w' H. now injection H as <- <-.
  - apply walk_asks. intros b. unfold collectLoopBody.
    apply asksFrom_bind;
      [apply asksFrom_quiet; intros w o w' H; now injection H as <- <-|].
    intros _. apply asksFrom_bind;
      [apply asksFrom_quiet; intros w o w' H; now injection H as <- <-|].
    intros _ w o w' H. destruct (hasEntry (GetID b) w).
    + exact (IH _ _ _ _ H).
    + injection H as <- <-. exists []. split; [now rewrite app_nil_r | exact I].
Qed.

(** X21: the requests follow the tree.  Whatever the server answers and
    whatever the map holds, every request that [fetchChildBlocks],
    [printBlocksRecursive] or [collectContent] sends asks for the children
    of the block it was called on or of a block that an earlier reply of the
    same run held: no id is made up, and none is taken from the map
    alone. *)
Theorem requests_follow_the_tree :
  (forall fuel blockID client (w : world) o w',
     fetchChildBlocks GetChildren fuel blockID client w = (o, w') ->
     exists tr, net w' = net w ++ tr /\ requestsFrom {[ blockID ]} tr) /\
  (forall fuel client blockID depth (w : world) o w',
     printBlocksRecursive GetChildren fuel client blockID depth w = (o, w') ->
     exists tr, net w' = net w ++ tr /\ requestsFrom {[ blockID ]} tr) /\
  (forall fuel client blockID (w : world) o w',
     collectContent GetChildren fuel client blockID w = (o, w') ->
     exists tr, net w' = net w ++ tr /\ requestsFrom {[ blockID ]} tr).
Proof.
  split; [|split].
  - intros fuel blockID client w o w' H.
    destruct (fetchChildBlocks_asks _ _ _ _ _ _ H) as (tr & Hn & Hr & _). eauto.
  - intros fuel client blockID depth. apply printBlocksRecursive_asks.
  - intros fuel client blockID. apply collectContent_asks.
Qed.

(** ** The fetch depends on the server only *)

Lemma srvOnly_ret {A} (a : A) : srvOnly (ret a : M A).
Proof. intros w w2 H. simpl. auto. Qed.

Lemma srvOnly_bind {A B} (m : M A) (k : A -> M B) :
  srvOnly m -> (forall a, srvOnly (k a)) -> srvOnly (bind m k).
Proof.
  intros Hm Hk w w2 H. unfold bind. destruct (Hm w w2 H) as [Ho Hs].
  destruct (m w) as [o1 w1], (m w2) as [o2 w2']. simpl in Ho, Hs. subst o2.
  destruct o1 as [a|e| |]; simpl; auto. apply Hk. exact Hs.
Qed.

Lemma srvOnly_forBlocks (loopBody : Block -> M unit) (blocks : list Block) :
  (forall b, srvOnly (loopBody b)) -> srvOnly (forBlocks loopBody blocks).
Proof.
  intros Hb. induction blocks as [|b rest IH]; simpl.
  - apply srvOnly_ret.
  - apply srvOnly_bind; [apply Hb | intros _; exact IH].
Qed.

Lemma srvOnly_storeChildren id kids : srvOnly (storeChildren id kids : M unit).
Proof. intros w w2 H. simpl. auto. Qed.

Lemma srvOnly_fetchPages fuel client blockID cursor blocks :
  srvOnly (fetchPages GetChildren fuel client blockID cursor blocks).
Proof.
  revert cursor blocks. induction fuel as [|fuel IH]; intros cursor blocks w w2 H.
  - simpl. auto.
  - rewrite !fetchPages_step. cbv zeta. rewrite <- H.
    destruct (GetChildren (srv w) client blockID
                {| StartCursor := cursor; PageSize := 100 |}) as [s [e|r]];
      cbn [fst snd]; [auto|].
    destruct (HasMore r); [apply IH; reflexivity | auto].
Qed.

Lemma srvOnly_expandLoopBody recurse block :
  (forall id, srvOnly (recurse id)) -> srvOnly (@expandLoopBody Srv recurse block).
Proof.
  intros Hr. unfold expandLoopBody. destruct (GetHasChildren block).
  - apply srvOnly_bind; [apply Hr | intros kids; apply srvOnly_storeChildren].
  - apply srvOnly_ret.
Qed.

Lemma srvOnly_fetchChildBlocks fuel blockID client :
  srvOnly (fetchChildBlocks GetChildren fuel blockID client).
Proof.
  revert blockID. induction fuel as [|fuel IH]; intros blockID.
  - intros w w2 H. simpl. auto.
  - simpl. apply srvOnly_bind; [apply srvOnly_fetchPages|].
    intros blocks. apply srvOnly_bind; [|intros _; apply srvOnly_ret].
    apply srvOnly_forBlocks. intros b. apply srvOnly_expandLoopBody.
    intros id. apply IH.
Qed.

(** A fetch that returns in one state of the process returns the same
    blocks in every state with the same server. *)
Lemma fetchChildBlocks_transfer fuel blockID client (w w2 : world) blocks w' :
  fetchChildBlocks GetChildren fuel blockID client w = (Ok blocks, w') ->
  srv w2 = srv w ->
  exists w2', fetchChildBlocks GetChildren fuel blockID client w2 = (Ok blocks, w2').
Proof.
  intros H Hs.
  destruct (srvOnly_fetchChildBlocks fuel blockID client w w2 (eq_sym Hs)) as [Ho _].
  rewrite H in Ho. simpl in Ho.
  destruct (fetchChildBlocks GetChildren fuel blockID client w2) as [o w2'].
  simpl in Ho. subst o. eauto.
Qed.

Lemma FetchedAt_intro client fuel blockID (w : world) blocks w' :
  fetchChildBlocks GetChildren fuel blockID client w = (Ok blocks, w') ->
  FetchedAt GetChildren client fuel (srv w) blockID blocks.
Proof.
  intros H. unfold FetchedAt.
  destruct (fetchChildBlocks_transfer _ _ _ w (blank (srv w)) _ _ H eq_refl)
    as [w2' H2].
  now rewrite H2.
Qed.

Lemma FetchedAt_elim client fuel blockID (w : world) blocks :
  FetchedAt GetChildren client fuel (srv w) blockID blocks ->
  exists w', fetchChildBlocks GetChildren fuel blockID client w = (Ok blocks, w').
Proof.
  unfold FetchedAt. intros H.
  destruct (fetchChildBlocks GetChildren fuel blockID client (blank (srv w)))
    as [o w0] eqn:E.
  simpl in H. subst o. eapply fetchChildBlocks_transfer; [exact E | reflexivity].
Qed.

(** ** The pages a server serves *)

Lemma Paged_fun client blockID s cursor rs1 s1 :
  Paged GetChildren client blockID s cursor rs1 s1 ->
  forall rs2 s2, Paged GetChildren client blockID s cursor rs2 s2 -> rs1 = rs2.
Proof.
  induction 1 as [s cursor r s' Hc Hm | s cursor r s1 rs s' Hc Hm Hrest IH];
    intros rs2 s2 H2; inversion H2 as [? ? r2 ? Hc2 Hm2 | ? ? r2 ? rs' ? Hc2 Hm2 Hrest2];
    subst; rewrite Hc in Hc2; inversion Hc2; subst; try congruence.
  f_equal. eapply IH. exact Hrest2.
Qed.

Lemma Kids_fun client s id v1 v2 :
  Kids GetChildren client s id v1 -> Kids GetChildren client s id v2 -> v1 = v2.
Proof.
  intros (rs1 & s1 & H1 & ->) (rs2 & s2 & H2 & ->).
  now rewrite (Paged_fun _ _ _ _ _ _ H1 _ _ H2).
Qed.

Lemma fetchPages_Kids fuel client id (w : world) blocks w' :
  fetchPages GetChildren fuel client id "" [] w = (Ok blocks, w') ->
  Kids GetChildren client (srv w) id blocks.
Proof.
  intros H. apply fetchPages_Ok_Paged in H as (rs & Hp & -> & _).
  exists rs, (srv w'). split; [exact Hp | reflexivity].
Qed.

(** ** A server that answers every request the same way *)

Section Stateless.

(** In state [s] the server does not change state, and the flag
    [has_children] of the blocks it returns is a function [hc] of their
    id. *)
Variable s : Srv.
Hypothesis stateless : forall c id p, fst (GetChildren s c id p) = s.
Variable hc : BlockID -> bool.
Hypothesis flags :
  forall c id p r,
    snd (GetChildren s c id p) = inr r ->
    Forall (fun b => GetHasChildren b = hc (GetID b)) (Results r).

Lemma staysAt_refl (w : world) : staysAt s w w.
Proof. intros H. exact H. Qed.

Lemma staysAt_trans (w1 w2 w3 : world) :
  staysAt s w1 w2 -> staysAt s w2 w3 -> staysAt s w1 w3.
Proof. unfold staysAt. auto. Qed.

Lemma fetchPages_staysAt fuel client blockID cursor blocks :
  preserves (staysAt s) (fetchPages GetChildren fuel client blockID cursor blocks).
Proof.
  revert cursor blocks. induction fuel as [|fuel IH]; intros cursor blocks w o w' H Hs.
  - inversion H; subst w'. exact Hs.
  - rewrite fetchPages_step in H. cbv zeta in H. rewrite Hs in H.
    pose proof (stateless client blockID
                  {| StartCursor := cursor; PageSize := 100 |}) as Hst.
    destruct (GetChildren s client blockID
                {| StartCursor := cursor; PageSize := 100 |}) as [s1 [e|r]];
      cbn [fst snd] in H, Hst; subst s1.
    + inversion H; subst w'. reflexivity.
    + destruct (HasMore r).
      * apply IH in H. apply H. reflexivity.
      * inversion H; subst w'. reflexivity.
Qed.

Lemma fetchChildBlocks_staysAt fuel blockID client :
  preserves (staysAt s) (fetchChildBlocks GetChildren fuel blockID client).
Proof.
  apply fetchChildBlocks_preserves;
    [apply staysAt_refl | apply staysAt_trans | apply fetchPages_staysAt |];
    intros id kids w H; exact H.
Qed.

Lemma Paged_flags client blockID s0 cursor rs s' :
  Paged GetChildren client blockID s0 cursor rs s' ->
  s0 = s ->
  Forall (fun b => GetHasChildren b = hc (GetID b)) (concat (map Results rs)).
Proof.
  induction 1 as [s0 cursor r s' Hc Hm | s0 cursor r s1 rs s' Hc Hm Hrest IH];
    intros ->; simpl.
  - rewrite app_nil_r. eapply flags. rewrite Hc. reflexivity.
  - apply Forall_app. split.
    + eapply flags. rewrite Hc. reflexivity.
    + apply IH. pose proof (stateless client blockID
                              {| StartCursor := cursor; PageSize := 100 |}) as Hst.
      rewrite Hc in Hst. exact Hst.
Qed.

Lemma Kids_flags client id blocks :
  Kids GetChildren client s id blocks ->
  Forall (fun b => GetHasChildren b = hc (GetID b)) blocks.
Proof. intros (rs & s' & Hp & ->). eapply Paged_flags; [exact Hp | reflexivity]. Qed.

Lemma TreeOK_insert client (m : gmap BlockID (list Block)) id kids :
  TreeOK GetChildren client hc s m ->
  hc id = true -> Kids GetChildren client s id kids ->
  TreeOK GetChildren client hc s (<[id := kids]> m) /\ m ⊆ <[id := kids]> m.
Proof.
  intros Hm Hid Hk. split.
  - intros k v Hl. destruct (decide (id = k)) as [->|Hne].
    + rewrite lookup_insert_eq in Hl. inversion Hl; subst v. auto.
    + rewrite lookup_insert_ne in Hl by exact Hne. apply Hm. exact Hl.
  - apply map_subseteq_spec. intros k v Hl. destruct (decide (id = k)) as [->|Hne].
    + rewrite lookup_insert_eq. f_equal.
      destruct (Hm _ _ Hl) as [_ Hv]. eapply Kids_fun; eassumption.
    + now rewrite lookup_insert_ne by exact Hne.
Qed.

Lemma entriesOf_weaken client fuel (m m' : gmap BlockID (list Block)) blocks :
  m ⊆ m' ->
  entriesOf GetChildren client fuel s m blocks ->
  entriesOf GetChildren client fuel s m' blocks.
Proof.
  intros Hm H. eapply Forall_impl; [exact H|]. intros b Hb Hc.
  destruct (Hb Hc) as (kb & Hl & Hf). exists kb. split; [|exact Hf].
  eapply lookup_weaken; eassumption.
Qed.

Lemma expandLoop_tree client fuel :
  (forall id (w : world) kb w',
     srv w = s -> TreeOK GetChildren client hc s (blockChildren w) ->
     fetchChildBlocks GetChildren fuel id client w = (Ok kb, w') ->
     fetchPost GetChildren client hc s id w kb w') ->
  forall blocks (w w' : world),
    srv w = s -> TreeOK GetChildren client hc s (blockChildren w) ->
    Forall (fun b => GetHasChildren b = hc (GetID b)) blocks ->
    forBlocks (expandLoopBody (fun id => fetchChildBlocks GetChildren fuel id client))
      blocks w = (Ok tt, w') ->
    srv w' = s /\
    TreeOK GetChildren client hc s (blockChildren w') /\
    blockChildren w ⊆ blockChildren w' /\
    entriesOf GetChildren client fuel s (blockChildren w') blocks.
Proof.
  intros Hrec. induction blocks as [|b rest IH]; intros w w' Hs Ht Hfl H.
  - inversion H; subst w'.
    split; [exact Hs|]. split; [exact Ht|]. split; [reflexivity|]. constructor.
  - pose proof (Forall_inv Hfl) as Hb. pose proof (Forall_inv_tail Hfl) as Hfl'.
    simpl in Hb. simpl in H. apply bind_Ok_inv in H as (u & w1 & Hbody & Hrest).
    unfold expandLoopBody in Hbody. destruct (GetHasChildren b) eqn:Hc.
    + apply bind_Ok_inv in Hbody as (kb & w0 & Hk & Hst).
      pose proof (FetchedAt_intro _ _ _ _ _ _ Hk) as Hfetched.
      rewrite Hs in Hfetched.
      apply Hrec in Hk as (Hs0 & Ht0 & Hsub0 & Hkids); [|exact Hs | exact Ht].
      inversion Hst; subst w1; clear Hst.
      destruct (TreeOK_insert client (blockChildren w0) (GetID b) kb Ht0
                  (eq_sym Hb) Hkids) as [Ht1 Hsub1].
      apply IH in Hrest as (Hs' & Ht' & Hsub' & He); [|exact Hs0 | exact Ht1 | exact Hfl'].
      split; [exact Hs'|]. split; [exact Ht'|]. split.
      * transitivity (blockChildren w0); [exact Hsub0|].
        etransitivity; [exact Hsub1 | exact Hsub'].
      * constructor; [|exact He]. intros _. exists kb. split; [|exact Hfetched].
        eapply lookup_weaken; [|exact Hsub']. simpl. apply lookup_insert_eq.
    + inversion Hbody; subst w1.
      apply IH in Hrest as (Hs' & Ht' & Hsub' & He); [|exact Hs | exact Ht | exact Hfl'].
      split; [exact Hs'|]. split; [exact Ht'|]. split; [exact Hsub'|].
      constructor; [|exact He]. intros Habs. congruence.
Qed.

Lemma fetchChildBlocks_post client fuel :
  forall id (w : world) blocks w',
    srv w = s -> TreeOK GetChildren client hc s (blockChildren w) ->
    fetchChildBlocks GetChildren fuel id client w = (Ok blocks, w') ->
    fetchPost GetChildren client hc s id w blocks w'.
Proof.
  induction fuel as [|fuel IH]; intros id w blocks w' Hs Ht H; [discriminate H|].
  simpl in H. apply bind_Ok_inv in H as (bs & w1 & Hpages & H).
  apply bind_Ok_inv in H as (u & w2 & Hloop & H). injection H as -> ->.
  pose proof (fetchPages_Kids _ _ _ _ _ _ Hpages) as Hkids. rewrite Hs in Hkids.
  pose proof (fetchPages_staysAt _ _ _ _ _ _ _ _ Hpages Hs) as Hs1.
  pose proof (fetchPages_respects sameMap (fun _ _ _ => eq_refl) _ _ _ _ _ _ _ _ Hpages)
    as Hm1.
  unfold sameMap in Hm1. destruct u.
  apply (expandLoop_tree client fuel (fun id => IH id)) in Hloop
    as (Hs' & Ht' & Hsub & _).
  - split; [exact Hs'|]. split; [exact Ht'|]. split; [|exact Hkids].
    now rewrite <- Hm1.
  - exact Hs1.
  - now rewrite Hm1.
  - eapply Kids_flags. exact Hkids.
Qed.

Lemma fetchChildBlocks_entries client fuel id (w : world) blocks w' :
  srv w = s -> TreeOK GetChildren client hc s (blockChildren w) ->
  fetchChildBlocks GetChildren (S fuel) id client w = (Ok blocks, w') ->
  entriesOf GetChildren client fuel s (blockChildren w') blocks /\
  Forall (fun b => GetHasChildren b = hc (GetID b)) blocks.
Proof.
  intros Hs Ht H.
  simpl in H. apply bind_Ok_inv in H as (bs & w1 & Hpages & H).
  apply bind_Ok_inv in H as (u & w2 & Hloop & H). injection H as -> ->.
  pose proof (fetchPages_Kids _ _ _ _ _ _ Hpages) as Hkids. rewrite Hs in Hkids.
  pose proof (fetchPages_staysAt _ _ _ _ _ _ _ _ Hpages Hs) as Hs1.
  pose proof (fetchPages_respects sameMap (fun _ _ _ => eq_refl) _ _ _ _ _ _ _ _ Hpages)
    as Hm1.
  unfold sameMap in Hm1. destruct u.
  pose proof (Kids_flags _ _ _ Hkids) as Hfl. split; [|exact Hfl].
  apply (expandLoop_tree client fuel
           (fun id => fetchChildBlocks_post client fuel id)) in Hloop
    as (_ & _ & _ & He); [exact He | exact Hs1 | now rewrite Hm1 | exact Hfl].
Qed.

(** ** [collectContent] on a server that answers the same way *)

Lemma flatten_cons n (m : gmap BlockID (list Block)) b bs :
  flatten (S n) m (b :: bs)
  = blockText b +:+ nl +:+ nl
    +:+ match m !! GetID b with
        | Some kids => flatten n m kids
        | None => ""
        end
    +:+ flatten (S n) m bs.
Proof. reflexivity. Qed.

Lemma forBlocks_cons (loopBody : Block -> M unit) b rest (w : world) :
  forBlocks loopBody (b :: rest) w
  = match loopBody b w with
    | (Ok _, w1) => forBlocks loopBody rest w1
    | (Err e, w1) => (Err e, w1)
    | (Panic, w1) => (Panic, w1)
    | (OutOfFuel, w1) => (OutOfFuel, w1)
    end.
Proof. reflexivity. Qed.

Lemma collectLoopBody_unfold recurse block (w : world) :
  collectLoopBody recurse block w
  = let w2 := snd (WriteString (nl +:+ nl) (snd (WriteString (blockText block) w))) in
    if hasEntry (GetID block) w then recurse (GetID block) w2 else (Ok tt, w2).
Proof. reflexivity. Qed.

Lemma collectLoop_flatten client fuel (fetched : gmap BlockID (list Block)) :
  (forall id kb,
     FetchedAt GetChildren client fuel s id kb ->
     forall w : world,
       srv w = s -> TreeOK GetChildren client hc s (blockChildren w) ->
       exists w',
         collectContent GetChildren (S fuel) client id w = (Ok tt, w') /\
         collectPost GetChildren client hc s fuel kb w w') ->
  forall blocks (w : world),
    srv w = s -> TreeOK GetChildren client hc s (blockChildren w) ->
    fetched ⊆ blockChildren w ->
    entriesOf GetChildren client fuel s fetched blocks ->
    Forall (fun b => GetHasChildren b = hc (GetID b)) blocks ->
    exists w',
      forBlocks (collectLoopBody (collectContent GetChildren (S fuel) client)) blocks w
      = (Ok tt, w') /\
      collectPost GetChildren client hc s (S fuel) blocks w w'.
Proof.
  intros Hrec. induction blocks as [|b rest IH]; intros w Hs Ht Hsub He Hfl.
  - exists w. split; [reflexivity|].
    split; [exact Hs|]. split; [exact Ht|]. split; [reflexivity|].
    split; [reflexivity|]. intros m _ _. simpl. now rewrite append_nil_r.
  - pose proof (Forall_inv He) as Hbe. pose proof (Forall_inv_tail He) as He'.
    pose proof (Forall_inv Hfl) as Hbf. pose proof (Forall_inv_tail Hfl) as Hfl'.
    simpl in Hbe, Hbf.
    rewrite forBlocks_cons, collectLoopBody_unfold. cbv zeta.
    set (w2 := snd (WriteString (nl +:+ nl) (snd (WriteString (blockText b) w)))).
    assert (srv w2 = s) as Hs2 by exact Hs.
    assert (blockChildren w2 = blockChildren w) as Hm2 by reflexivity.
    assert (stdout w2 = stdout w) as Ho2 by reflexivity.
    assert (contentBuilder w2 = (contentBuilder w +:+ blockText b) +:+ (nl +:+ nl))
      as Hc2 by reflexivity.
    destruct (blockChildren w !! GetID b) as [v|] eqn:Hl.
    + rewrite (hasEntry_Some _ _ _ Hl).
      destruct (Ht _ _ Hl) as [Hhc _].
      destruct (Hbe ltac:(congruence)) as (kb & Hkb & Hfetched).
      destruct (Hrec _ _ Hfetched w2 Hs2 ltac:(now rewrite Hm2))
        as (w3 & Hrun & Hs3 & Ht3 & Hsub3 & Ho3 & Hc3).
      rewrite Hrun.
      destruct (IH w3 Hs3 Ht3) as (w' & Hloop & Hs' & Ht' & Hsub' & Ho' & Hc');
        [| exact He' | exact Hfl' |].
      { transitivity (blockChildren w); [exact Hsub|]. now rewrite <- Hm2. }
      exists w'. split; [exact Hloop|].
      split; [exact Hs'|]. split; [exact Ht'|]. split.
      { transitivity (blockChildren w3); [|exact Hsub']. now rewrite <- Hm2. }
      split; [congruence|].
      intros m Hm Htm. rewrite (Hc' m Hm Htm).
      rewrite (Hc3 m) by (try exact Htm; transitivity (blockChildren w'); assumption).
      rewrite Hc2, flatten_cons.
      assert (m !! GetID b = Some kb) as ->.
      { eapply lookup_weaken; [exact Hkb|].
        transitivity (blockChildren w); [exact Hsub|].
        transitivity (blockChildren w3); [now rewrite <- Hm2|].
        transitivity (blockChildren w'); assumption. }
      now rewrite !append_assoc.
    + rewrite (hasEntry_None _ _ Hl).
      assert (GetHasChildren b = false) as Hleaf.
      { destruct (GetHasChildren b) eqn:Hc; [|reflexivity].
        destruct (Hbe eq_refl) as (kb & Hkb & _).
        rewrite (lookup_weaken _ _ _ _ Hkb Hsub) in Hl. discriminate Hl. }
      destruct (IH w2 Hs2 ltac:(now rewrite Hm2)) as (w' & Hloop & Hs' & Ht' & Hsub' & Ho' & Hc');
        [now rewrite Hm2 | exact He' | exact Hfl' |].
      exists w'. split; [exact Hloop|].
      split; [exact Hs'|]. split; [exact Ht'|]. split; [now rewrite <- Hm2|].
      split; [congruence|].
      intros m Hm Htm. rewrite (Hc' m Hm Htm), Hc2, flatten_cons.
      destruct (m !! GetID b) as [v|] eqn:Hmb.
      { destruct (Htm _ _ Hmb) as [Hhc _]. congruence. }
      now rewrite !append_assoc.
Qed.

(** On such a server, once the subtree of [id] has been fetched within
    [fuel], [collectContent] returns, and it has written the flattened text
    of the tree. *)
Lemma collectContent_flatten client fuel :
  forall id blocks,
    FetchedAt GetChildren client fuel s id blocks ->
    forall w : world,
      srv w = s -> TreeOK GetChildren client hc s (blockChildren w) ->
      exists w',
        collectContent GetChildren (S fuel) client id w = (Ok tt, w') /\
        collectPost GetChildren client hc s fuel blocks w w'.
Proof.
  induction fuel as [|fuel IH]; intros id blocks Hf w Hs Ht.
  - discriminate Hf.
  - rewrite <- Hs in Hf. destruct (FetchedAt_elim _ _ _ _ _ Hf) as [w1 Hfetch].
    destruct (fetchChildBlocks_post client (S fuel) id w blocks w1 Hs Ht Hfetch)
      as (Hs1 & Ht1 & Hsub1 & _).
    destruct (fetchChildBlocks_entries client fuel id w blocks w1 Hs Ht Hfetch)
      as [He Hfl].
    destruct (fetchChildBlocks_fetchFrame _ _ _ _ _ _ Hfetch) as (_ & Ho1 & _ & Hc1).
    destruct (collectLoop_flatten client fuel (blockChildren w1) IH blocks w1
                Hs1 Ht1 ltac:(reflexivity) He Hfl)
      as (w' & Hloop & Hs' & Ht' & Hsub' & Ho' & Hc').
    exists w'. split.
    + change (collectContent GetChildren (S (S fuel)) client id w)
        with (bind (fetchChildBlocks GetChildren (S fuel) id client)
                (fun blocks =>
                   forBlocks (collectLoopBody (collectContent GetChildren (S fuel) client))
                     blocks) w).
      rewrite (bind_Ok _ _ _ _ _ Hfetch). exact Hloop.
    + split; [exact Hs'|]. split; [exact Ht'|].
      split; [transitivity (blockChildren w1); assumption|].
      split; [congruence|].
      intros m Hm Htm. rewrite (Hc' m Hm Htm). now rewrite Hc1.
Qed.

(** ** [printBlocksRecursive] on a server that answers the same way *)

Lemma printLoopBody_unfold recurse depth block (w : world) :
  printLoopBody recurse depth block w
  = match printBlock block depth with
    | None => (Panic, w)
    | Some out =>
        let w2 := snd (fmt_Print out w) in
        if hasEntry (GetID block) w then recurse (GetID block) (depth + 1) w2
        else (Ok tt, w2)
    end.
Proof.
  unfold printLoopBody, bind, do_printBlock.
  destruct (printBlock block depth); reflexivity.
Qed.

Lemma printLoop_no_fetch_error client fuel (fetched : gmap BlockID (list Block)) :
  (forall id kb depth,
     FetchedAt GetChildren client fuel s id kb ->
     forall w : world,
       srv w = s -> TreeOK GetChildren client hc s (blockChildren w) ->
       exists o w',
         printBlocksRecursive GetChildren (S fuel) client id depth w = (o, w') /\
         noFetchError o /\
         (o = Ok tt -> walkPost GetChildren client hc s w w')) ->
  forall blocks depth (w : world),
    srv w = s -> TreeOK GetChildren client hc s (blockChildren w) ->
    fetched ⊆ blockChildren w ->
    entriesOf GetChildren client fuel s fetched blocks ->
    Forall (fun b => GetHasChildren b = hc (GetID b)) blocks ->
    exists o w',
      forBlocks (printLoopBody (printBlocksRecursive GetChildren (S fuel) client) depth)
        blocks w = (o, w') /\
      noFetchError o /\
      (o = Ok tt -> walkPost GetChildren client hc s w w').
Proof.
  intros Hrec. induction blocks as [|b rest IH]; intros depth w Hs Ht Hsub He Hfl.
  - exists (Ok tt), w. split; [reflexivity|]. split; [exact I|]. intros _.
    split; [exact Hs|]. split; [exact Ht | reflexivity].
  - pose proof (Forall_inv He) as Hbe. pose proof (Forall_inv_tail He) as He'.
    pose proof (Forall_inv Hfl) as Hbf. pose proof (Forall_inv_tail Hfl) as Hfl'.
    simpl in Hbe, Hbf.
    rewrite forBlocks_cons, printLoopBody_unfold.
    destruct (printBlock b depth) as [out|].
    2:{ exists Panic, w. split; [reflexivity|]. split; [exact I|]. discriminate. }
    cbv zeta. set (w2 := snd (fmt_Print out w)).
    assert (srv w2 = s) as Hs2 by exact Hs.
    assert (blockChildren w2 = blockChildren w) as Hm2 by reflexivity.
    destruct (blockChildren w !! GetID b) as [v|] eqn:Hl.
    + rewrite (hasEntry_Some _ _ _ Hl).
      destruct (Ht _ _ Hl) as [Hhc _].
      destruct (Hbe ltac:(congruence)) as (kb & Hkb & Hfetched).
      destruct (Hrec _ _ (depth + 1) Hfetched w2 Hs2 ltac:(now rewrite Hm2))
        as (o3 & w3 & Hrun & Hno & Hpost).
      rewrite Hrun. destruct o3 as [[]|e| |]; try contradiction.
      * destruct (Hpost eq_refl) as (Hs3 & Ht3 & Hsub3).
        destruct (IH depth w3 Hs3 Ht3) as (o & w' & Hloop & Hno' & Hpost');
          [| exact He' | exact Hfl' |].
        { transitivity (blockChildren w); [exact Hsub|]. now rewrite <- Hm2. }
        exists o, w'. split; [exact Hloop|]. split; [exact Hno'|].
        intros Ho. destruct (Hpost' Ho) as (Hs' & Ht' & Hsub').
        split; [exact Hs'|]. split; [exact Ht'|].
        transitivity (blockChildren w3); [now rewrite <- Hm2 | exact Hsub'].
      * exists Panic, w3. split; [reflexivity|]. split; [exact I|]. discriminate.
    + rewrite (hasEntry_None _ _ Hl).
      destruct (IH depth w2 Hs2 ltac:(now rewrite Hm2)) as (o & w' & Hloop & Hno' & Hpost');
        [now rewrite Hm2 | exact He' | exact Hfl' |].
      exists o, w'. split; [exact Hloop|]. split; [exact Hno'|].
      intros Ho. destruct (Hpost' Ho) as (Hs' & Ht' & Hsub').
      split; [exact Hs'|]. split; [exact Ht'|]. now rewrite <- Hm2.
Qed.

(** On such a server, once the subtree of [id] has been fetched within
    [fuel], no request of [printBlocksRecursive] fails: it returns, or a
    block makes [printBlock] panic. *)
Lemma printBlocksRecursive_no_fetch_error client fuel :
  forall id blocks depth,
    FetchedAt GetChildren client fuel s id blocks ->
    forall w : world,
      srv w = s -> TreeOK GetChildren client hc s (blockChildren w) ->
      exists o w',
        printBlocksRecursive GetChildren (S fuel) client id depth w = (o, w') /\
        noFetchError o /\
        (o = Ok tt -> walkPost GetChildren client hc s w w').
Proof.
  induction fuel as [|fuel IH]; intros id blocks depth Hf w Hs Ht.
  - discriminate Hf.
  - rewrite <- Hs in Hf. destruct (FetchedAt_elim _ _ _ _ _ Hf) as [w1 Hfetch].
    destruct (fetchChildBlocks_post client (S fuel) id w blocks w1 Hs Ht Hfetch)
      as (Hs1 & Ht1 & Hsub1 & _).
    destruct (fetchChildBlocks_entries client fuel id w blocks w1 Hs Ht Hfetch)
      as [He Hfl].
    destruct (printLoop_no_fetch_error client fuel (blockChildren w1) IH blocks depth w1
                Hs1 Ht1 ltac:(reflexivity) He Hfl)
      as (o & w' & Hloop & Hno & Hpost).
    exists o, w'. split; [|split; [exact Hno|]].
    + change (printBlocksRecursive GetChildren (S (S fuel)) client id depth w)
        with (bind (fetchChildBlocks GetChildren (S fuel) id client)
                (fun blocks =>
                   forBlocks
                     (printLoopBody (printBlocksRecursive GetChildren (S fuel) client)
                        depth) blocks) w).
      rewrite (bind_Ok _ _ _ _ _ Hfetch). exact Hloop.
    + intros Ho. destruct (Hpost Ho) as (Hs' & Ht' & Hsub').
      split; [exact Hs'|]. split; [exact Ht'|].
      transitivity (blockChildren w1); assumption.
Qed.

(** So on such a server a fetch error can only come from the fetch of the
    whole tree at the start of the walk, before anything is printed. *)
Lemma printBlocksRecursive_error_before_output client fuel id depth (w : world) e w' :
  srv w = s -> TreeOK GetChildren client hc s (blockChildren w) ->
  printBlocksRecursive GetChildren fuel client id depth w = (Err e, w') ->
  stdout w' = stdout w.
Proof.
  intros Hs Ht H. destruct fuel as [|fuel]; [discriminate H|].
  destruct (fetchChildBlocks GetChildren fuel id client w) as [o w1] eqn:Hfetch.
  destruct o as [blocks|e1| |].
  - destruct (printBlocksRecursive_no_fetch_error client fuel id blocks depth
                ltac:(rewrite <- Hs; eapply FetchedAt_intro; exact Hfetch) w Hs Ht)
      as (o & w2 & Hrun & Hno & _).
    rewrite H in Hrun. injection Hrun as <- <-. contradiction Hno.
  - simpl in H. unfold bind in H. rewrite Hfetch in H. injection H as <- <-.
    now destruct (fetchChildBlocks_fetchFrame _ _ _ _ _ _ Hfetch) as (_ & Ho & _).
  - simpl in H. unfold bind in H. rewrite Hfetch in H. discriminate H.
  - simpl in H. unfold bind in H. rewrite Hfetch in H. discriminate H.
Qed.

End Stateless.

(** ** The flattened text, in the words of the claim *)

(** What the type switch of [collectContent] writes for a block is the
    concatenated plain text of its text payload, and nothing for a kind
    that has none. *)
Lemma blockText_textPayload (b : Block) :
  blockText b = match textPayload b with
                | Some rt => plainText rt
                | None => ""
                end.
Proof.
  unfold blockText, textPayload.
  destruct (body b); try reflexivity; apply getRichTextContent_plainText.
Qed.

Lemma flatten_flattenAmended n :
  forall (m : gmap BlockID (list Block)) blocks,
    flatten n m blocks = flattenAmended n m blocks.
Proof.
  induction n as [|n IH]; intros m blocks; [reflexivity|].
  induction blocks as [|b rest IHb]; [reflexivity|].
  rewrite flatten_cons, IHb, blockText_textPayload.
  change (flattenAmended (S n) m (b :: rest))
    with (match textPayload b with
          | Some rt => plainText rt
          | None => ""
          end
          +:+ nl +:+ nl
          +:+ match m !! GetID b with
              | Some kids => flattenAmended n m kids
              | None => ""
              end
          +:+ flattenAmended (S n) m rest).
  destruct (m !! GetID b) as [kids|]; [rewrite IH|]; reflexivity.
Qed.

(** C1, as the code has it.  On a server that answers every request the
    same way and flags the blocks that have children, once the tree below
    [id] can be fetched, [collectContent] returns and has appended to the
    builder the flattened text of the fetched tree as the amended claim
    words it: for every block, in depth-first document order, the
    concatenated plain text of its rich text when it is a paragraph, a
    heading of level 1, 2 or 3, a bulleted, numbered or checkbox item, a
    quote, a callout or a collapsible section, and nothing when it is of
    another kind, followed in both cases by two line feeds, then the text
    of its children.  For a single block: the type switch writes the
    concatenated plain text of the ten kinds, and no character for the
    others, which therefore contribute the separator and nothing else. *)
Theorem collectContent_writes_flattened_text
    (hc : BlockID -> bool) client fuel id blocks (w w1 : world) :
  (forall c id p, fst (GetChildren (srv w) c id p) = srv w) ->
  (forall c id p r,
     snd (GetChildren (srv w) c id p) = inr r ->
     Forall (fun b => GetHasChildren b = hc (GetID b)) (Results r)) ->
  TreeOK GetChildren client hc (srv w) (blockChildren w) ->
  fetchChildBlocks GetChildren fuel id client w = (Ok blocks, w1) ->
  (exists w',
     collectContent GetChildren (S fuel) client id w = (Ok tt, w') /\
     stdout w' = stdout w /\
     contentBuilder w'
     = contentBuilder w +:+ flattenAmended fuel (blockChildren w') blocks) /\
  (forall b, hasTextPayload b = false -> blockText b = "") /\
  (forall b rt, textPayload b = Some rt -> blockText b = plainText rt) /\
  (forall b, textPayload b = None -> blockText b = "").
Proof.
  intros Hst Hfl Ht Hfetch. split; [|split; [|split]].
  - destruct (collectContent_flatten (srv w) Hst hc Hfl client fuel id blocks
                (FetchedAt_intro _ _ _ _ _ _ Hfetch) w eq_refl Ht)
      as (w' & Hrun & _ & Ht' & _ & Ho & Hc).
    exists w'. split; [exact Hrun|]. split; [exact Ho|].
    rewrite <- flatten_flattenAmended.
    apply Hc; [reflexivity | exact Ht'].
  - intros b. unfold hasTextPayload, blockText.
    destruct (body b); intros H; try reflexivity; discriminate H.
  - intros b rt H. rewrite blockText_textPayload, H. reflexivity.
  - intros b H. rewrite blockText_textPayload, H. reflexivity.
Qed.

(** * The map after a fetch holds the whole tree *)

Lemma render_cons n depth (m : gmap BlockID (list Block)) b bs :
  render (S n) depth m (b :: bs)
  = default "" (printBlock b depth)
    +:+ match m !! GetID b with
        | Some kids => render n (depth + 1) m kids
        | None => ""
        end
    +:+ render (S n) depth m bs.
Proof. reflexivity. Qed.

Lemma Deep_weaken n : forall (m m' : gmap BlockID (list Block)) blocks,
  m ⊆ m' -> Deep n m blocks -> Deep n m' blocks.
Proof.
  induction n as [|n IH]; intros m m' blocks Hsub H; [exact H|].
  simpl in *. eapply Forall_impl; [exact H|].
  intros b Hb Hc. destruct (Hb Hc) as (kb & Hkb & Hd).
  exists kb. split; [eapply lookup_weaken; eassumption|]. eapply IH; eassumption.
Qed.

Section WholeTree.

Variable s : Srv.
Hypothesis stateless : forall c id p, fst (GetChildren s c id p) = s.
Variable hc : BlockID -> bool.
Hypothesis flags :
  forall c id p r,
    snd (GetChildren s c id p) = inr r ->
    Forall (fun b => GetHasChildren b = hc (GetID b)) (Results r).

Lemma expandLoop_deep client fuel :
  (forall id (w : world) kb w',
     srv w = s -> TreeOK GetChildren client hc s (blockChildren w) ->
     fetchChildBlocks GetChildren fuel id client w = (Ok kb, w') ->
     Deep fuel (blockChildren w') kb) ->
  forall blocks (w w' : world),
    srv w = s -> TreeOK GetChildren client hc s (blockChildren w) ->
    Forall (fun b => GetHasChildren b = hc (GetID b)) blocks ->
    forBlocks (expandLoopBody (fun id => fetchChildBlocks GetChildren fuel id client))
      blocks w = (Ok tt, w') ->
    Deep (S fuel) (blockChildren w') blocks.
Proof.
  intros Hrec. induction blocks as [|b rest IH]; intros w w' Hs Ht Hfl H.
  - constructor.
  - pose proof (Forall_inv Hfl) as Hb. pose proof (Forall_inv_tail Hfl) as Hfl'.
    simpl in Hb. rewrite forBlocks_cons in H.
    apply bind_Ok_inv in H as (u & w1 & Hbody & Hrest).
    unfold expandLoopBody in Hbody. destruct (GetHasChildren b) eqn:Hc.
    + apply bind_Ok_inv in Hbody as (kb & w0 & Hk & Hst).
      pose proof (Hrec _ _ _ _ Hs Ht Hk) as Hd.
      destruct (fetchChildBlocks_post s stateless hc flags client fuel _ _ _ _ Hs Ht Hk)
        as (Hs0 & Ht0 & Hsub0 & Hkids).
      inversion Hst; subst w1; clear Hst.
      destruct (TreeOK_insert s hc client (blockChildren w0) (GetID b) kb Ht0
                  (eq_sym Hb) Hkids) as [Ht1 Hsub1].
      pose proof Hrest as Hrest'.
      apply (expandLoop_tree s hc client fuel
               (fun id => fetchChildBlocks_post s stateless hc flags client fuel id))
        in Hrest' as (_ & _ & Hsub' & _); [|exact Hs0 | exact Ht1 | exact Hfl'].
      constructor.
      * intros _. exists kb. split.
        -- eapply lookup_weaken; [|exact Hsub']. simpl. apply lookup_insert_eq.
        -- eapply Deep_weaken; [|exact Hd].
           etransitivity; [exact Hsub1 | exact Hsub'].
      * refine (IH _ w' _ _ Hfl' Hrest); [exact Hs0 | exact Ht1].
    + inversion Hbody; subst w1. constructor.
      * intros Habs. congruence.
      * exact (IH _ w' Hs Ht Hfl' Hrest).
Qed.

Lemma fetchChildBlocks_deep client fuel :
  forall id (w : world) blocks w',
    srv w = s -> TreeOK GetChildren client hc s (blockChildren w) ->
    fetchChildBlocks GetChildren fuel id client w = (Ok blocks, w') ->
    Deep fuel (blockChildren w') blocks.
Proof.
  induction fuel as [|fuel IH]; intros id w blocks w' Hs Ht H; [discriminate H|].
  change (fetchChildBlocks GetChildren (S fuel) id client w)
    with (bind (fetchPages GetChildren fuel client id "" [])
            (fun blocks =>
               bind (forBlocks
                       (expandLoopBody
                          (fun id => fetchChildBlocks GetChildren fuel id client))
                       blocks)
                    (fun _ => ret blocks)) w) in H.
  apply bind_Ok_inv in H as (bs & w1 & Hpages & H).
  apply bind_Ok_inv in H as (u & w2 & Hloop & H). injection H as -> ->.
  pose proof (fetchPages_Kids _ _ _ _ _ _ Hpages) as Hkids. rewrite Hs in Hkids.
  pose proof (fetchPages_staysAt s stateless _ _ _ _ _ _ _ _ Hpages Hs) as Hs1.
  pose proof (fetchPages_respects sameMap (fun _ _ _ => eq_refl) _ _ _ _ _ _ _ _ Hpages)
    as Hm1.
  unfold sameMap in Hm1. destruct u.
  eapply (expandLoop_deep client fuel (fun id => IH id)); [exact Hs1 | | | exact Hloop].
  - now rewrite Hm1.
  - eapply Kids_flags; [exact stateless | exact flags | exact Hkids].
Qed.

(** The rendering does not depend on entries added later. *)
Lemma render_weaken client n :
  forall depth (m m' : gmap BlockID (list Block)) blocks,
    m ⊆ m' -> TreeOK GetChildren client hc s m' ->
    Forall (fun b => GetHasChildren b = hc (GetID b)) blocks ->
    Deep n m blocks ->
    render n depth m blocks = render n depth m' blocks.
Proof.
  induction n as [|n IH]; intros depth m m' blocks Hsub Ht Hfl Hd; [reflexivity|].
  induction blocks as [|b rest IHb]; [reflexivity|].
  pose proof (Forall_inv Hfl) as Hb. pose proof (Forall_inv_tail Hfl) as Hfl'.
  simpl in Hd. pose proof (Forall_inv Hd) as Hdb. pose proof (Forall_inv_tail Hd) as Hd'.
  simpl in Hb, Hdb. rewrite !render_cons. rewrite (IHb Hfl' Hd').
  destruct (GetHasChildren b) eqn:Hc.
  - destruct (Hdb eq_refl) as (kb & Hkb & Hdk).
    rewrite Hkb, (lookup_weaken _ _ _ _ Hkb Hsub).
    destruct (Ht _ _ (lookup_weaken _ _ _ _ Hkb Hsub)) as [_ Hkids].
    rewrite (IH (depth + 1) m m' kb Hsub Ht
               (Kids_flags s stateless hc flags _ _ _ Hkids) Hdk).
    reflexivity.
  - destruct (m' !! GetID b) as [v|] eqn:Hl'.
    { destruct (Ht _ _ Hl') as [Hhc _]. congruence. }
    destruct (m !! GetID b) as [v|] eqn:Hl; [|reflexivity].
    rewrite (lookup_weaken _ _ _ _ Hl Hsub) in Hl'. discriminate Hl'.
Qed.

End WholeTree.

(** * Further properties on a server that answers the same way *)

Section ConstantServer.

(** As before the server, in state [s], does not change state and flags the
    blocks by their id; and no block it serves makes [printBlock] panic. *)
Variable s : Srv.
Hypothesis stateless : forall c id p, fst (GetChildren s c id p) = s.
Variable hc : BlockID -> bool.
Hypothesis flags :
  forall c id p r,
    snd (GetChildren s c id p) = inr r ->
    Forall (fun b => GetHasChildren b = hc (GetID b)) (Results r).
Hypothesis safe :
  forall c id p r,
    snd (GetChildren s c id p) = inr r ->
    Forall (fun b => nilDeref b = false) (Results r).

Lemma Paged_safe client blockID s0 cursor rs s' :
  Paged GetChildren client blockID s0 cursor rs s' ->
  s0 = s ->
  Forall (fun b => nilDeref b = false) (concat (map Results rs)).
Proof.
  induction 1 as [s0 cursor r s' Hc Hm | s0 cursor r s1 rs s' Hc Hm Hrest IH];
    intros ->; simpl.
  - rewrite app_nil_r. eapply safe. rewrite Hc. reflexivity.
  - apply Forall_app. split.
    + eapply safe. rewrite Hc. reflexivity.
    + apply IH. pose proof (stateless client blockID
                              {| StartCursor := cursor; PageSize := 100 |}) as Hst.
      rewrite Hc in Hst. exact Hst.
Qed.

Lemma Kids_safe client id blocks :
  Kids GetChildren client s id blocks ->
  Forall (fun b => nilDeref b = false) blocks.
Proof. intros (rs & s' & Hp & ->). eapply Paged_safe; [exact Hp | reflexivity]. Qed.

Lemma printBlock_safe b depth :
  nilDeref b = false -> exists out, printBlock b depth = Some out.
Proof.
  intros Hb. destruct (printBlock b depth) as [out|] eqn:Hp; [eauto|].
  apply printBlock_None_nilDeref in Hp. congruence.
Qed.

Lemma printLoop_render client fuel (fetched : gmap BlockID (list Block)) :
  (forall id kb depth,
     FetchedAt GetChildren client fuel s id kb ->
     forall w : world,
       srv w = s -> TreeOK GetChildren client hc s (blockChildren w) ->
       exists w',
         printBlocksRecursive GetChildren (S fuel) client id depth w = (Ok tt, w') /\
         printPost GetChildren client hc s fuel depth kb w w') ->
  forall blocks depth (w : world),
    srv w = s -> TreeOK GetChildren client hc s (blockChildren w) ->
    fetched ⊆ blockChildren w ->
    entriesOf GetChildren client fuel s fetched blocks ->
    Forall (fun b => GetHasChildren b = hc (GetID b)) blocks ->
    Forall (fun b => nilDeref b = false) blocks ->
    exists w',
      forBlocks (printLoopBody (printBlocksRecursive GetChildren (S fuel) client) depth)
        blocks w = (Ok tt, w') /\
      printPost GetChildren client hc s (S fuel) depth blocks w w'.
Proof.
  intros Hrec. induction blocks as [|b rest IH]; intros depth w Hs Ht Hsub He Hfl Hsafe.
  - exists w. split; [reflexivity|].
    split; [exact Hs|]. split; [exact Ht|]. split; [reflexivity|].
    split; [reflexivity|]. intros m _ _. simpl. now rewrite append_nil_r.
  - pose proof (Forall_inv He) as Hbe. pose proof (Forall_inv_tail He) as He'.
    pose proof (Forall_inv Hfl) as Hbf. pose proof (Forall_inv_tail Hfl) as Hfl'.
    pose proof (Forall_inv Hsafe) as Hbs. pose proof (Forall_inv_tail Hsafe) as Hsafe'.
    simpl in Hbe, Hbf, Hbs.
    destruct (printBlock_safe b depth Hbs) as [out Hout].
    rewrite forBlocks_cons, printLoopBody_unfold, Hout. cbv zeta.
    set (w2 := snd (fmt_Print out w)).
    assert (srv w2 = s) as Hs2 by exact Hs.
    assert (blockChildren w2 = blockChildren w) as Hm2 by reflexivity.
    assert (contentBuilder w2 = contentBuilder w) as Hc2 by reflexivity.
    assert (stdout w2 = stdout w +:+ out) as Ho2 by reflexivity.
    destruct (blockChildren w !! GetID b) as [v|] eqn:Hl.
    + rewrite (hasEntry_Some _ _ _ Hl).
      destruct (Ht _ _ Hl) as [Hhc _].
      destruct (Hbe ltac:(congruence)) as (kb & Hkb & Hfetched).
      destruct (Hrec _ _ (depth + 1) Hfetched w2 Hs2 ltac:(now rewrite Hm2))
        as (w3 & Hrun & Hs3 & Ht3 & Hsub3 & Hc3 & Ho3).
      rewrite Hrun.
      destruct (IH depth w3 Hs3 Ht3) as (w' & Hloop & Hs' & Ht' & Hsub' & Hc' & Ho');
        [| exact He' | exact Hfl' | exact Hsafe' |].
      { transitivity (blockChildren w); [exact Hsub|]. now rewrite <- Hm2. }
      exists w'. split; [exact Hloop|].
      split; [exact Hs'|]. split; [exact Ht'|]. split.
      { transitivity (blockChildren w3); [|exact Hsub']. now rewrite <- Hm2. }
      split; [congruence|].
      intros m Hm Htm. rewrite (Ho' m Hm Htm).
      rewrite (Ho3 m) by (try exact Htm; transitivity (blockChildren w'); assumption).
      rewrite Ho2, render_cons, Hout.
      assert (m !! GetID b = Some kb) as ->.
      { eapply lookup_weaken; [exact Hkb|].
        transitivity (blockChildren w); [exact Hsub|].
        transitivity (blockChildren w3); [now rewrite <- Hm2|].
        transitivity (blockChildren w'); assumption. }
      simpl default. now rewrite !append_assoc.
    + rewrite (hasEntry_None _ _ Hl).
      assert (GetHasChildren b = false) as Hleaf.
      { destruct (GetHasChildren b) eqn:Hc; [|reflexivity].
        destruct (Hbe eq_refl) as (kb & Hkb & _).
        rewrite (lookup_weaken _ _ _ _ Hkb Hsub) in Hl. discriminate Hl. }
      destruct (IH depth w2 Hs2 ltac:(now rewrite Hm2))
        as (w' & Hloop & Hs' & Ht' & Hsub' & Hc' & Ho');
        [now rewrite Hm2 | exact He' | exact Hfl' | exact Hsafe' |].
      exists w'. split; [exact Hloop|].
      split; [exact Hs'|]. split; [exact Ht'|]. split; [now rewrite <- Hm2|].
      split; [congruence|].
      intros m Hm Htm. rewrite (Ho' m Hm Htm), Ho2, render_cons, Hout.
      destruct (m !! GetID b) as [v|] eqn:Hmb.
      { destruct (Htm _ _ Hmb) as [Hhc _]. congruence. }
      simpl default. now rewrite !append_assoc.
Qed.

(** On such a server, once the subtree of [id] has been fetched within
    [fuel], [printBlocksRecursive] returns, and it has printed the
    rendering of the tree. *)
Lemma printBlocksRecursive_render client fuel :
  forall id blocks depth,
    FetchedAt GetChildren client fuel s id blocks ->
    forall w : world,
      srv w = s -> TreeOK GetChildren client hc s (blockChildren w) ->
      exists w',
        printBlocksRecursive GetChildren (S fuel) client id depth w = (Ok tt, w') /\
        printPost GetChildren client hc s fuel depth blocks w w'.
Proof.
  induction fuel as [|fuel IH]; intros id blocks depth Hf w Hs Ht.
  - discriminate Hf.
  - rewrite <- Hs in Hf. destruct (FetchedAt_elim _ _ _ _ _ Hf) as [w1 Hfetch].
    destruct (fetchChildBlocks_post s stateless hc flags client (S fuel) id w blocks w1
                Hs Ht Hfetch) as (Hs1 & Ht1 & Hsub1 & Hkids).
    destruct (fetchChildBlocks_entries s stateless hc flags client fuel id w blocks w1
                Hs Ht Hfetch) as [He Hfl].
    destruct (fetchChildBlocks_fetchFrame _ _ _ _ _ _ Hfetch) as (_ & Ho1 & _ & Hc1).
    destruct (printLoop_render client fuel (blockChildren w1) IH blocks depth w1
                Hs1 Ht1 ltac:(reflexivity) He Hfl (Kids_safe _ _ _ Hkids))
      as (w' & Hloop & Hs' & Ht' & Hsub' & Hc' & Ho').
    exists w'. split.
    + change (printBlocksRecursive GetChildren (S (S fuel)) client id depth w)
        with (bind (fetchChildBlocks GetChildren (S fuel) id client)
                (fun blocks =>
                   forBlocks
                     (printLoopBody (printBlocksRecursive GetChildren (S fuel) client)
                        depth) blocks) w).
      rewrite (bind_Ok _ _ _ _ _ Hfetch). exact Hloop.
    + split; [exact Hs'|]. split; [exact Ht'|].
      split; [transitivity (blockChildren w1); assumption|].
      split; [congruence|].
      intros m Hm Htm. rewrite (Ho' m Hm Htm). now rewrite Ho1.
Qed.

End ConstantServer.

(** X13: on a server that answers every request the same way, flags the
    blocks that have children and serves no block on which [printBlock]
    panics, once the tree below [id] can be fetched, [printBlocksRecursive]
    returns and has appended to the standard output the rendering of the
    fetched tree: for every block, in depth-first document order, what
    [printBlock] prints for it at its depth, then the rendering of its
    children one level deeper.  The builder is not touched. *)
Theorem printBlocksRecursive_prints_the_tree
    (hc : BlockID -> bool) client fuel id depth blocks (w w1 : world) :
  (forall c id p, fst (GetChildren (srv w) c id p) = srv w) ->
  (forall c id p r,
     snd (GetChildren (srv w) c id p) = inr r ->
     Forall (fun b => GetHasChildren b = hc (GetID b)) (Results r)) ->
  (forall c id p r,
     snd (GetChildren (srv w) c id p) = inr r ->
     Forall (fun b => nilDeref b = false) (Results r)) ->
  TreeOK GetChildren client hc (srv w) (blockChildren w) ->
  fetchChildBlocks GetChildren fuel id client w = (Ok blocks, w1) ->
  exists w',
    printBlocksRecursive GetChildren (S fuel) client id depth w = (Ok tt, w') /\
    contentBuilder w' = contentBuilder w /\
    stdout w' = stdout w +:+ render fuel depth (blockChildren w') blocks.
Proof.
  intros Hst Hfl Hsafe Ht Hfetch.
  destruct (printBlocksRecursive_render (srv w) Hst hc Hfl Hsafe client fuel id blocks
              depth (FetchedAt_intro _ _ _ _ _ _ Hfetch) w eq_refl Ht)
    as (w' & Hrun & _ & Ht' & _ & Hc & Ho).
  exists w'. split; [exact Hrun|]. split; [exact Hc|].
  apply Ho; [reflexivity | exact Ht'].
Qed.

(** X14: on a server that answers every request the same way and flags the
    blocks that have children, a fetch that returns leaves the map well
    formed: it returns the children the server serves for [id], page after
    page; every entry of the map holds the children the server serves for
    its key; every returned block whose flag is set has an entry; and an
    entry that was there before holds the same children afterwards. *)
Theorem fetched_entries_hold_the_served_children
    (hc : BlockID -> bool) client fuel id blocks (w w' : world) :
  (forall c id p, fst (GetChildren (srv w) c id p) = srv w) ->
  (forall c id p r,
     snd (GetChildren (srv w) c id p) = inr r ->
     Forall (fun b => GetHasChildren b = hc (GetID b)) (Results r)) ->
  TreeOK GetChildren client hc (srv w) (blockChildren w) ->
  fetchChildBlocks GetChildren fuel id client w = (Ok blocks, w') ->
  srv w' = srv w /\
  Kids GetChildren client (srv w) id blocks /\
  (forall k v, blockChildren w' !! k = Some v -> Kids GetChildren client (srv w) k v) /\
  (forall b, b ∈ blocks -> GetHasChildren b = true ->
             is_Some (blockChildren w' !! GetID b)) /\
  (forall k v, blockChildren w !! k = Some v -> blockChildren w' !! k = Some v).
Proof.
  intros Hst Hfl Ht Hfetch.
  destruct (fetchChildBlocks_post (srv w) Hst hc Hfl client fuel id w blocks w'
              eq_refl Ht Hfetch) as (Hs' & Ht' & Hsub & Hkids).
  split; [exact Hs'|]. split; [exact Hkids|]. split; [|split].
  - intros k v Hk. now destruct (Ht' k v Hk).
  - destruct fuel as [|fuel]; [discriminate Hfetch|].
    destruct (fetchChildBlocks_entries (srv w) Hst hc Hfl client fuel id w blocks w'
                eq_refl Ht Hfetch) as [He _].
    intros b Hb Hc. unfold entriesOf in He. rewrite Forall_forall in He.
    destruct (He b Hb Hc) as (kb & Hkb & _). eauto.
  - intros k v Hk. eapply lookup_weaken; eassumption.
Qed.

(** * The earlier version of the program *)

Lemma offline_refl (w : world) : offline w w.
Proof. repeat split. exists "". now rewrite append_nil_r. Qed.

Lemma offline_trans (w1 w2 w3 : world) : offline w1 w2 -> offline w2 w3 -> offline w1 w3.
Proof.
  intros (Hs1 & Hm1 & He1 & Hr1 & Hc1 & Hn1 & o1 & Ho1)
         (Hs2 & Hm2 & He2 & Hr2 & Hc2 & Hn2 & o2 & Ho2).
  repeat (split; [congruence|]).
  exists (o1 +:+ o2). now rewrite Ho2, Ho1, append_assoc.
Qed.

Lemma do_printBlock_offline block depth :
  preserves offline (do_printBlock block depth : M unit).
Proof.
  unfold do_printBlock. destruct (printBlock block depth) as [out|].
  - intros w o w' H. injection H as <- <-. repeat split. now exists out.
  - apply preserves_stop, offline_refl.
Qed.

Lemma earlier_print_offline fuel :
  forall blocks depth,
    preserves offline (Earlier.printBlocksRecursive fuel blocks depth : M unit).
Proof.
  induction fuel as [|fuel IH]; intros blocks depth.
  - apply preserves_stop, offline_refl.
  - apply (preserves_forBlocks offline offline_refl offline_trans). intros b.
    apply (preserves_bind offline offline_trans); [apply do_printBlock_offline|].
    intros _ w o w' H. destruct (blockChildren w !! GetID b) as [kids|].
    + eapply IH. exact H.
    + injection H as <- <-. apply offline_refl.
Qed.

Lemma neverErr_bind {A B} (m : M A) (k : A -> M B) :
  neverErr m -> (forall a, neverErr (k a)) -> neverErr (bind m k).
Proof.
  intros Hm Hk w e w' H. unfold bind in H.
  destruct (m w) as [[a|e1| |] w1] eqn:E; try discriminate H.
  - exact (Hk a w1 e w' H).
  - exact (Hm w e1 w1 E).
Qed.

Lemma neverErr_forBlocks (loopBody : Block -> M unit) (blocks : list Block) :
  (forall b, neverErr (loopBody b)) -> neverErr (forBlocks loopBody blocks).
Proof.
  intros Hb. induction blocks as [|b rest IH].
  - intros w e w' H. discriminate H.
  - change (forBlocks loopBody (b :: rest))
      with (bind (loopBody b) (fun _ => forBlocks loopBody rest)).
    apply neverErr_bind; [apply Hb | intros _; exact IH].
Qed.

Lemma earlier_print_neverErr fuel :
  forall blocks depth,
    neverErr (Earlier.printBlocksRecursive fuel blocks depth : M unit).
Proof.
  induction fuel as [|fuel IH]; intros blocks depth.
  - intros w e w' H. discriminate H.
  - apply neverErr_forBlocks. intros b. apply neverErr_bind.
    + unfold do_printBlock. destruct (printBlock b depth); intros w e w' H; discriminate H.
    + intros _ w e w' H. destruct (blockChildren w !! GetID b) as [kids|].
      * exact (IH _ _ _ _ _ H).
      * discriminate H.
Qed.

(** X15: the earlier [printBlocksRecursive] walks the map and nothing else:
    whatever the blocks and the map, it sends no request, leaves the
    server, the map, the environment, the error stream and the builder as
    they are, only appends to the standard output, and never ends in an
    error. *)
Theorem earlier_print_sends_no_request fuel blocks depth (w : world) o w' :
  Earlier.printBlocksRecursive fuel blocks depth w = (o, w') ->
  offline w w' /\ forall e, o <> Err e.
Proof.
  intros H. split.
  - exact (earlier_print_offline fuel blocks depth w o w' H).
  - intros e ->. exact (earlier_print_neverErr fuel blocks depth w e w' H).
Qed.

(** X16: the earlier [main] prints all or nothing.  When it ends with
    status 1 nothing was written to the standard output and one line was
    logged; when it does not, nothing was logged
    and every request sent was answered: the whole tree was fetched before
    the first block was printed. *)
Theorem earlier_main_prints_all_or_nothing fuel args (w : world) e w' :
  Earlier.main GetChildren fuel args w = (e, w') ->
  (e = ExitCode 1 ->
   stdout w' = stdout w /\ exists msg, stderr w' = stderr w ++ [msg]) /\
  (e <> ExitCode 1 ->
   stderr w' = stderr w /\
   exists tr, net w' = net w ++ tr /\ Forall answered tr).
Proof.
  unfold Earlier.main. destruct (String.eqb (os_Getenv "NOTION_API_TOKEN" w) "").
  { intros H. injection H as <- <-. split; [|intros Hne; now contradiction Hne].
    intros _. split; [reflexivity | eexists; reflexivity]. }
  destruct (Nat.ltb (length args) 2).
  { intros H. injection H as <- <-. split; [|intros Hne; now contradiction Hne].
    intros _. split; [reflexivity | eexists; reflexivity]. }
  cbv zeta.
  destruct (fetchChildBlocks GetChildren fuel (formatPageID (nth 1 args ""))
              {| Token := os_Getenv "NOTION_API_TOKEN" w |} w) as [o w1] eqn:Hfetch.
  pose proof (fetchChildBlocks_fetchFrame _ _ _ _ _ _ Hfetch) as (_ & Ho1 & Hr1 & _).
  pose proof (shaped_fetchChildBlocks _ _ _ _ _ _ Hfetch) as (tr & Htr & Hn1).
  destruct o as [blocks|err| |].
  - destruct (Earlier.printBlocksRecursive fuel blocks 0 w1) as [o2 w2] eqn:Hprint.
    pose proof (earlier_print_offline _ _ _ _ _ _ Hprint)
      as (_ & _ & _ & Hr2 & _ & Hn2 & _).
    assert (stderr w2 = stderr w /\
            exists tr, net w2 = net w ++ tr /\ Forall answered tr) as Hgood.
    { split; [congruence|]. exists tr. split; [congruence | exact Htr]. }
    destruct o2 as [u|err| |]; intros H; injection H as <- <-;
      (split; [intros Habs; discriminate Habs | intros _; exact Hgood]).
  - intros H. injection H as <- <-. split; [|intros Hne; now contradiction Hne].
    intros _. split; [exact Ho1|]. eexists. simpl. now rewrite Hr1.
  - intros H. injection H as <- <-. split; [intros Habs; discriminate Habs|].
    intros _. split; [exact Hr1|]. exists tr. split; [exact Hn1 | exact Htr].
  - intros H. injection H as <- <-. split; [intros Habs; discriminate Habs|].
    intros _. split; [exact Hr1|]. exists tr. split; [exact Hn1 | exact Htr].
Qed.

Section EarlierOnConstantServer.

Variable s : Srv.
Hypothesis stateless : forall c id p, fst (GetChildren s c id p) = s.
Variable hc : BlockID -> bool.
Hypothesis flags :
  forall c id p r,
    snd (GetChildren s c id p) = inr r ->
    Forall (fun b => GetHasChildren b = hc (GetID b)) (Results r).
Hypothesis safe :
  forall c id p r,
    snd (GetChildren s c id p) = inr r ->
    Forall (fun b => nilDeref b = false) (Results r).

(** On a map that holds the whole tree the earlier walk is one print of the
    rendering. *)
Lemma earlier_print_render client n :
  forall blocks depth (w : world),
    TreeOK GetChildren client hc s (blockChildren w) ->
    Forall (fun b => GetHasChildren b = hc (GetID b)) blocks ->
    Forall (fun b => nilDeref b = false) blocks ->
    Deep n (blockChildren w) blocks ->
    Earlier.printBlocksRecursive n blocks depth w
    = fmt_Print (render n depth (blockChildren w) blocks) w.
Proof.
  induction n as [|n IH]; intros blocks depth w Ht Hfl Hsafe Hd; [contradiction Hd|].
  revert w Ht Hd. induction blocks as [|b rest IHb]; intros w Ht Hd.
  - symmetry. apply fmt_Print_nil.
  - pose proof (Forall_inv Hfl) as Hb. pose proof (Forall_inv_tail Hfl) as Hfl'.
    pose proof (Forall_inv Hsafe) as Hbs. pose proof (Forall_inv_tail Hsafe) as Hsafe'.
    simpl in Hd. pose proof (Forall_inv Hd) as Hdb. pose proof (Forall_inv_tail Hd) as Hd'.
    simpl in Hb, Hbs, Hdb.
    destruct (printBlock_safe b depth Hbs) as [out Hout].
    change (Earlier.printBlocksRecursive (S n) (b :: rest) depth w)
      with (bind (Earlier.printLoopBody (Earlier.printBlocksRecursive n) depth b)
              (fun _ => Earlier.printBlocksRecursive (S n) rest depth) w).
    rewrite render_cons, Hout. simpl default.
    unfold bind at 1. unfold Earlier.printLoopBody, bind, do_printBlock. rewrite Hout.
    change (fmt_Print out w) with (Ok tt, snd (fmt_Print out w)). cbv iota.
    change (blockChildren (snd (fmt_Print out w))) with (blockChildren w).
    destruct (GetHasChildren b) eqn:Hc.
    + destruct (Hdb eq_refl) as (kb & Hkb & Hdk). rewrite Hkb.
      destruct (Ht _ _ Hkb) as [_ Hkids].
      rewrite (IH kb (depth + 1) (snd (fmt_Print out w)) Ht
                 (Kids_flags s stateless hc flags _ _ _ Hkids)
                 (Kids_safe s stateless safe _ _ _ Hkids) Hdk).
      change (blockChildren (snd (fmt_Print out w))) with (blockChildren w).
      rewrite fmt_Print_twice.
      change (fmt_Print (out +:+ render n (depth + 1) (blockChildren w) kb) w)
        with (Ok tt, snd (fmt_Print (out +:+ render n (depth + 1) (blockChildren w) kb) w)).
      cbv iota.
      rewrite (IHb Hfl' Hsafe'
                 (snd (fmt_Print (out +:+ render n (depth + 1) (blockChildren w) kb) w))
                 Ht Hd').
      change (blockChildren (snd (fmt_Print (out +:+ render n (depth + 1) (blockChildren w) kb) w)))
        with (blockChildren w).
      rewrite fmt_Print_twice. now rewrite append_assoc.
    + destruct (blockChildren w !! GetID b) as [v|] eqn:Hl.
      { destruct (Ht _ _ Hl) as [Hhc _]. congruence. }
      rewrite (IHb Hfl' Hsafe' (snd (fmt_Print out w)) Ht Hd').
      change (blockChildren (snd (fmt_Print out w))) with (blockChildren w).
      rewrite fmt_Print_twice. now rewrite append_nil_l.
Qed.

End EarlierOnConstantServer.

(** X17: both versions print the same.  On a server that answers every
    request the same way, flags the blocks that have children and serves no
    block on which [printBlock] panics, once the tree below [id] has been
    fetched, the earlier [printBlocksRecursive], which walks the map, and
    the present one, which fetches every subtree again, both return and
    leave the same text on the standard output; the earlier one has sent
    no further request. *)
Theorem both_versions_print_the_same
    (hc : BlockID -> bool) client fuel id depth blocks (w w1 : world) :
  (forall c id p, fst (GetChildren (srv w) c id p) = srv w) ->
  (forall c id p r,
     snd (GetChildren (srv w) c id p) = inr r ->
     Forall (fun b => GetHasChildren b = hc (GetID b)) (Results r)) ->
  (forall c id p r,
     snd (GetChildren (srv w) c id p) = inr r ->
     Forall (fun b => nilDeref b = false) (Results r)) ->
  TreeOK GetChildren client hc (srv w) (blockChildren w) ->
  fetchChildBlocks GetChildren fuel id client w = (Ok blocks, w1) ->
  exists wa wb,
    printBlocksRecursive GetChildren (S fuel) client id depth w = (Ok tt, wa) /\
    Earlier.printBlocksRecursive fuel blocks depth w1 = (Ok tt, wb) /\
    stdout wa = stdout wb /\
    net wb = net w1.
Proof.
  intros Hst Hfl Hsafe Ht Hfetch.
  destruct (printBlocksRecursive_render (srv w) Hst hc Hfl Hsafe client fuel id blocks
              depth (FetchedAt_intro _ _ _ _ _ _ Hfetch) w eq_refl Ht)
    as (wa & Hrun & _ & Hta & Hsuba & _ & Hoa).
  destruct (fetchChildBlocks_post (srv w) Hst hc Hfl client fuel id w blocks w1
              eq_refl Ht Hfetch) as (Hs1 & Ht1 & Hsub1 & Hkids).
  pose proof (fetchChildBlocks_deep (srv w) Hst hc Hfl client fuel id w blocks w1
                eq_refl Ht Hfetch) as Hdeep.
  pose proof (Kids_flags (srv w) Hst hc Hfl _ _ _ Hkids) as Hflb.
  pose proof (Kids_safe (srv w) Hst Hsafe _ _ _ Hkids) as Hsafeb.
  destruct (fetchChildBlocks_fetchFrame _ _ _ _ _ _ Hfetch) as (_ & Ho1 & _).
  exists wa, (snd (fmt_Print (render fuel depth (blockChildren w1) blocks) w1)).
  split; [exact Hrun|]. split; [|split; [|reflexivity]].
  - exact (earlier_print_render (srv w) Hst hc Hfl Hsafe client fuel blocks depth w1
             Ht1 Hflb Hsafeb Hdeep).
  - rewrite (Hoa (blockChildren wa) ltac:(reflexivity) Hta). simpl. rewrite Ho1.
    f_equal. symmetry.
    (* the fetch inside the present walk starts from [w] as well *)
    destruct fuel as [|fuel']; [discriminate Hfetch|].
    apply (render_weaken (srv w) Hst hc Hfl client); [ | exact Hta | exact Hflb | exact Hdeep].
    change (printBlocksRecursive GetChildren (S (S fuel')) client id depth w)
      with (bind (fetchChildBlocks GetChildren (S fuel') id client)
              (fun blocks =>
                 forBlocks
                   (printLoopBody (printBlocksRecursive GetChildren (S fuel') client)
                      depth) blocks) w) in Hrun.
    rewrite (bind_Ok _ _ _ _ _ Hfetch) in Hrun.
    pose proof (printLoop_render (srv w) hc client fuel'
                  (blockChildren w1)
                  (printBlocksRecursive_render (srv w) Hst hc Hfl Hsafe client fuel')
                  blocks depth w1 Hs1 Ht1 ltac:(reflexivity)) as Hloop.
    destruct (fetchChildBlocks_entries (srv w) Hst hc Hfl client fuel' id w blocks w1
                eq_refl Ht Hfetch) as [He _].
    destruct (Hloop He Hflb Hsafeb) as (w' & Hrun' & _ & _ & Hsub' & _).
    rewrite Hrun in Hrun'. injection Hrun' as <-. exact Hsub'.
Qed.
(** ** [main] *)

Section Main.

Variable ChatCompletion : string -> string -> string + list string.

Lemma os_Getenv_environ key (w w' : world) :
  environ w' = environ w -> os_Getenv key w' = os_Getenv key w.
Proof. intros H. unfold os_Getenv. now rewrite H. Qed.

Lemma summarizeContent_no_key content (w : world) :
  os_Getenv "OPENAI_API_KEY" w = "" ->
  summarizeContent ChatCompletion content w = (Err "OPENAI_API_KEY is not set", w).
Proof. intros H. unfold summarizeContent. now rewrite H. Qed.

(** Without the Notion token [main] stops before the first call. *)
Lemma main_no_token fuel args (w : world) :
  os_Getenv "NOTION_API_TOKEN" w = "" ->
  exists w',
    main GetChildren ChatCompletion fuel args w = (ExitCode 1, w') /\
    net w' = net w /\ blockChildren w' = blockChildren w.
Proof.
  intros H. unfold main. destruct (negb (length args =? 2)).
  - eexists. split; [reflexivity|]. split; reflexivity.
  - rewrite H. simpl. eexists. split; [reflexivity|]. split; reflexivity.
Qed.

(** Without the summarizer key [main] runs both walks, then reports the
    error of [summarizeContent] and returns. *)
Lemma main_no_summarizer_key fuel prog arg (w w1 w2 : world) :
  os_Getenv "NOTION_API_TOKEN" w <> "" ->
  os_Getenv "OPENAI_API_KEY" w = "" ->
  let client := {| Token := os_Getenv "NOTION_API_TOKEN" w |} in
  printBlocksRecursive GetChildren fuel client (formatPageID arg) 0 w = (Ok tt, w1) ->
  collectContent GetChildren fuel client (formatPageID arg) (resetBuilder w1)
    = (Ok tt, w2) ->
  main GetChildren ChatCompletion fuel [prog; arg] w
  = (ExitCode 0,
     log_Print "Error generating summary: OPENAI_API_KEY is not set"
       (snd (fmt_Print summaryBanner w2))).
Proof.
  intros Ht Hk client Hp Hc. unfold main. simpl length. simpl negb. cbv iota.
  apply String.eqb_neq in Ht. rewrite Ht. cbv zeta. simpl nth.
  fold client. rewrite Hp, Hc.
  rewrite summarizeContent_no_key; [reflexivity|].
  etransitivity; [|exact Hk]. apply os_Getenv_environ. simpl.
  apply collectContent_walkFrame in Hc as [-> _]. simpl.
  now apply printBlocksRecursive_walkFrame in Hp as [-> _].
Qed.

(** C4, as the code has it: without [NOTION_API_TOKEN] the process ends
    with status 1 before any network activity; without [OPENAI_API_KEY] (the
    token being set) the start is not affected: once the page is fetched,
    printed and collected, the summary step fails without a call to the
    summarizer, the error is logged and the process ends with status 0. *)
Theorem credentials_checked_where_used fuel prog arg (w : world) :
  (os_Getenv "NOTION_API_TOKEN" w = "" ->
   forall args,
   exists w',
     main GetChildren ChatCompletion fuel args w = (ExitCode 1, w') /\
     net w' = net w) /\
  (os_Getenv "NOTION_API_TOKEN" w <> "" ->
   os_Getenv "OPENAI_API_KEY" w = "" ->
   forall w1 w2,
     let client := {| Token := os_Getenv "NOTION_API_TOKEN" w |} in
     printBlocksRecursive GetChildren fuel client (formatPageID arg) 0 w
       = (Ok tt, w1) ->
     collectContent GetChildren fuel client (formatPageID arg) (resetBuilder w1)
       = (Ok tt, w2) ->
     exists w',
       main GetChildren ChatCompletion fuel [prog; arg] w = (ExitCode 0, w') /\
       net w' = net w2 /\
       stdout w' = stdout w2 +:+ summaryBanner /\
       stderr w'
       = stderr w2 ++ ["Error generating summary: OPENAI_API_KEY is not set"]).
Proof.
  split.
  - intros H args. destruct (main_no_token fuel args w H) as (w' & Hm & Hn & _).
    eauto.
  - intros Ht Hk w1 w2 client Hp Hc.
    rewrite (main_no_summarizer_key fuel prog arg w w1 w2 Ht Hk Hp Hc).
    eexists. split; [reflexivity|]. repeat split.
Qed.

Lemma firstCallOn_netGrows id (w w1 w2 : world) :
  firstCallOn id w w1 -> netGrows w1 w2 -> firstCallOn id w w2.
Proof.
  intros (reply & tr & H1) [tr2 H2]. exists reply, (tr ++ tr2).
  rewrite H2, H1, <- app_assoc. reflexivity.
Qed.

Lemma bind_firstCallOn {A B} id (m : M A) (k : A -> M B) :
  preserves (firstCallOn id) m -> (forall a, preserves netGrows (k a)) ->
  preserves (firstCallOn id) (bind m k).
Proof.
  intros Hm Hk w o w' H. unfold bind in H.
  destruct (m w) as [[a|e| |] w1] eqn:E; specialize (Hm _ _ _ E);
    try (inversion H; subst; exact Hm).
  eapply firstCallOn_netGrows; [exact Hm | eapply Hk; exact H].
Qed.

Lemma fetchPages_firstCallOn fuel client id blocks :
  preserves (firstCallOn id) (fetchPages GetChildren (S fuel) client id "" blocks).
Proof.
  intros w o w' H. rewrite fetchPages_step in H. cbv zeta in H.
  destruct (snd (GetChildren (srv w) client id
                   {| StartCursor := ""; PageSize := 100 |})) as [e|r] eqn:Hr.
  - inversion H; subst. eexists _, []. reflexivity.
  - destruct (HasMore r).
    + apply fetchPages_afterCalls in H as [tr ->]. eexists _, tr. simpl.
      rewrite <- app_assoc. reflexivity.
    + inversion H; subst. eexists _, []. reflexivity.
Qed.

Lemma netGrows_store id kids (w : world) : netGrows w (snd (storeChildren id kids w)).
Proof. exists []. simpl. now rewrite app_nil_r. Qed.

Lemma netGrows_print out (w : world) : netGrows w (snd (fmt_Print out w)).
Proof. exists []. simpl. now rewrite app_nil_r. Qed.

Lemma netGrows_write out (w : world) : netGrows w (snd (WriteString out w)).
Proof. exists []. simpl. now rewrite app_nil_r. Qed.

Lemma netGrows_call s tr (w : world) : netGrows w (afterCalls s tr w).
Proof. now exists tr. Qed.

Lemma printBlocksRecursive_netGrows fuel client blockID depth :
  preserves netGrows (printBlocksRecursive GetChildren fuel client blockID depth).
Proof.
  exact (printBlocksRecursive_preserves netGrows netGrows_refl netGrows_trans
           (fetchPages_respects netGrows netGrows_call) netGrows_store netGrows_print
           fuel client blockID depth).
Qed.

Lemma collectContent_netGrows fuel client blockID :
  preserves netGrows (collectContent GetChildren fuel client blockID).
Proof.
  exact (collectContent_preserves netGrows netGrows_refl netGrows_trans
           (fetchPages_respects netGrows netGrows_call) netGrows_store netGrows_write
           fuel client blockID).
Qed.

Lemma fetchChildBlocks_firstCallOn fuel id client :
  preserves (firstCallOn id) (fetchChildBlocks GetChildren (S (S fuel)) id client).
Proof.
  change (fetchChildBlocks GetChildren (S (S fuel)) id client)
    with (bind (fetchPages GetChildren (S fuel) client id "" [])
            (fun blocks =>
               bind (forBlocks
                       (expandLoopBody
                          (fun id => fetchChildBlocks GetChildren (S fuel) id client))
                       blocks)
                    (fun _ => ret blocks))).
  apply bind_firstCallOn; [apply fetchPages_firstCallOn|].
  intros blocks. apply (preserves_bind _ netGrows_trans).
  - apply (preserves_forBlocks _ netGrows_refl netGrows_trans).
    intros b.
    apply (expandLoopBody_preserves netGrows netGrows_refl netGrows_trans
             netGrows_store).
    intros id'. apply fetchChildBlocks_netGrows.
  - intros _. apply preserves_ret, netGrows_refl.
Qed.

Lemma printBlocksRecursive_firstCallOn fuel client id depth :
  preserves (firstCallOn id)
    (printBlocksRecursive GetChildren (S (S (S fuel))) client id depth).
Proof.
  change (printBlocksRecursive GetChildren (S (S (S fuel))) client id depth)
    with (bind (fetchChildBlocks GetChildren (S (S fuel)) id client)
            (fun blocks =>
               forBlocks
                 (printLoopBody
                    (printBlocksRecursive GetChildren (S (S fuel)) client) depth)
                 blocks)).
  apply bind_firstCallOn; [apply fetchChildBlocks_firstCallOn|].
  intros blocks. apply (preserves_forBlocks _ netGrows_refl netGrows_trans).
  intros b.
  apply (printLoopBody_preserves netGrows netGrows_refl netGrows_trans
           netGrows_print).
  intros id' d. apply printBlocksRecursive_netGrows.
Qed.

Lemma summarizeContent_netGrows content :
  preserves netGrows (summarizeContent (Srv := Srv) ChatCompletion content).
Proof.
  intros w o w' H. unfold summarizeContent in H.
  destruct (String.eqb (os_Getenv "OPENAI_API_KEY" w) "").
  - inversion H; subst. apply netGrows_refl.
  - destruct (ChatCompletion _ content) as [e|[|c cs]];
      inversion H; subst; eexists; reflexivity.
Qed.

(** The first call of [main] asks for the children of the normalized page
    id. *)
Lemma main_firstCallOn fuel prog arg (w : world) :
  os_Getenv "NOTION_API_TOKEN" w <> "" ->
  3 <= fuel ->
  firstCallOn (formatPageID arg) w
    (snd (main GetChildren ChatCompletion fuel [prog; arg] w)).
Proof.
  intros Ht Hf. do 3 (destruct fuel as [|fuel]; [lia|]).
  unfold main. simpl length. simpl negb. cbv iota.
  apply String.eqb_neq in Ht. rewrite Ht. cbv zeta. simpl nth.
  set (client := {| Token := os_Getenv "NOTION_API_TOKEN" w |}).
  destruct (printBlocksRecursive GetChildren (S (S (S fuel))) client
              (formatPageID arg) 0 w) as [o w1] eqn:Hp.
  apply printBlocksRecursive_firstCallOn in Hp.
  destruct o as [[]|e| |]; try exact Hp.
  destruct (collectContent GetChildren (S (S (S fuel))) client (formatPageID arg)
              (resetBuilder w1)) as [o2 w2] eqn:Hc.
  apply collectContent_netGrows in Hc.
  assert (firstCallOn (formatPageID arg) w w2) as H2
    by (eapply firstCallOn_netGrows; [exact Hp | exact Hc]).
  destruct o2 as [[]|e| |]; try exact H2.
  destruct (summarizeContent ChatCompletion (contentBuilder w2)
              (snd (fmt_Print summaryBanner w2))) as [o3 w3] eqn:Hs.
  apply summarizeContent_netGrows in Hs.
  assert (firstCallOn (formatPageID arg) w w3) as H3
    by (eapply firstCallOn_netGrows; [exact H2 | exact Hs]).
  destruct o3 as [summary|e| |]; exact H3.
Qed.

(** [main] reads its argument through [formatPageID] only. *)
Lemma main_normalized_argument fuel prog arg (w : world) :
  main GetChildren ChatCompletion fuel [prog; arg] w
  = main GetChildren ChatCompletion fuel [prog; formatPageID arg] w.
Proof.
  unfold main. simpl length. simpl nth. now rewrite formatPageID_idempotent_aux.
Qed.

(** C7: [formatPageID] returns an identifier that contains a hyphen
    unchanged, cuts an identifier of 32 bytes without hyphen into groups of
    8, 4, 4, 4 and 12 bytes joined by hyphens, and returns every other
    input unchanged; [main] uses its argument only through [formatPageID]
    (a run on the argument is the run on the normalized identifier), and
    its first request to the document API is made for the normalized
    identifier. *)
Theorem page_id_normalized :
  (forall id,
     (Contains id "-" = true -> formatPageID id = id) /\
     (Contains id "-" = false -> len id = 32 -> hyphenated id (formatPageID id)) /\
     (Contains id "-" = false -> len id <> 32 -> formatPageID id = id)) /\
  (forall fuel prog arg (w : world),
     main GetChildren ChatCompletion fuel [prog; arg] w
     = main GetChildren ChatCompletion fuel [prog; formatPageID arg] w) /\
  (forall fuel prog arg (w : world),
     os_Getenv "NOTION_API_TOKEN" w <> "" ->
     3 <= fuel ->
     exists reply tr,
       net (snd (main GetChildren ChatCompletion fuel [prog; arg] w))
       = net w
         ++ NotionGetChildren (formatPageID arg)
              {| StartCursor := ""; PageSize := 100 |} reply
         :: tr).
Proof.
  split; [exact formatPageID_cases|]. split.
  - exact main_normalized_argument.
  - intros fuel prog arg w Ht Hf. exact (main_firstCallOn fuel prog arg w Ht Hf).
Qed.

(** ** More on [main] *)

Lemma answered_listRequest e : answered e -> listRequest e.
Proof.
  destruct e as [id p [msg|r]|k c]; simpl; intros H; first [exact H | contradiction H].
Qed.

Lemma traceShape_requests {A} (o : outcome A) (w w' : world) :
  traceShape o w w' ->
  exists tr, net w' = net w ++ tr /\ Forall listRequest tr /\
             ((forall e, o <> Err e) -> Forall answered tr).
Proof.
  intros (tr & Htr & Hn).
  assert (Forall listRequest tr) as Hl
    by (eapply Forall_impl; [exact Htr | exact answered_listRequest]).
  destruct o as [a|e| |];
    try (exists tr; split; [exact Hn|]; split; [exact Hl | intros _; exact Htr]).
  destruct Hn as (id & p & msg & Hp & _ & Hn).
  exists (tr ++ [NotionGetChildren id p (inl msg)]). split; [exact Hn|]. split.
  - apply Forall_app. split; [exact Hl|]. constructor; [exact Hp | constructor].
  - intros Hne. now contradiction (Hne e).
Qed.

(** X18: [main] calls the summarizer at most once, and last.  Whatever the
    arguments, the environment and the server, the requests of a run are
    list-children requests for pages of 100, followed by at most one
    request to the summarizer.  When that request is made, the summarizer
    key is set, every list-children request was answered, the content sent
    is what the builder holds, and the process ends with status 0 or
    crashes; a run that ends with status 1 or is cut short has not called
    the summarizer. *)
Theorem summarizer_called_once_at_the_end fuel args (w : world) e w' :
  main GetChildren ChatCompletion fuel args w = (e, w') ->
  exists tr,
    Forall listRequest tr /\
    (net w' = net w ++ tr \/
     (net w' = net w ++ tr
                ++ [OpenAIChatCompletion (os_Getenv "OPENAI_API_KEY" w)
                      (contentBuilder w')] /\
      os_Getenv "OPENAI_API_KEY" w <> "" /\
      Forall answered tr /\
      (e = ExitCode 0 \/ e = Crash))).
Proof.
  unfold main. destruct (negb (length args =? 2)).
  { intros H. injection H as <- <-. exists []. split; [constructor|].
    left. simpl. now rewrite app_nil_r. }
  destruct (String.eqb (os_Getenv "NOTION_API_TOKEN" w) "").
  { intros H. injection H as <- <-. exists []. split; [constructor|].
    left. simpl. now rewrite app_nil_r. }
  cbv zeta.
  set (client := {| Token := os_Getenv "NOTION_API_TOKEN" w |}).
  set (pageID := formatPageID (nth 1 args "")).
  destruct (printBlocksRecursive GetChildren fuel client pageID 0 w) as [o1 w1] eqn:Hp.
  destruct (traceShape_requests _ _ _ (shaped_printBlocksRecursive _ _ _ _ _ _ _ Hp))
    as (tr1 & Hn1 & Hl1 & Ha1).
  pose proof (printBlocksRecursive_walkFrame _ _ _ _ _ _ _ Hp) as [He1 _].
  destruct o1 as [[]|err| |];
    try (intros H; injection H as <- <-; exists tr1; split; [exact Hl1|]; left;
         exact Hn1).
  destruct (collectContent GetChildren fuel client pageID (resetBuilder w1))
    as [o2 w2] eqn:Hc.
  destruct (traceShape_requests _ _ _ (shaped_collectContent _ _ _ _ _ _ Hc))
    as (tr2 & Hn2 & Hl2 & Ha2).
  pose proof (collectContent_walkFrame _ _ _ _ _ _ Hc) as [He2 _].
  simpl in Hn2, He2.
  assert (net w2 = net w ++ (tr1 ++ tr2)) as Hn12 by (now rewrite Hn2, Hn1, app_assoc).
  assert (Forall listRequest (tr1 ++ tr2)) as Hl12 by (apply Forall_app; auto).
  destruct o2 as [[]|err| |];
    try (intros H; injection H as <- <-; exists (tr1 ++ tr2); split; [exact Hl12|];
         left; exact Hn12).
  unfold summarizeContent.
  assert (os_Getenv "OPENAI_API_KEY" (snd (fmt_Print summaryBanner w2))
          = os_Getenv "OPENAI_API_KEY" w) as ->.
  { apply os_Getenv_environ. simpl. congruence. }
  destruct (String.eqb (os_Getenv "OPENAI_API_KEY" w) "") eqn:Hk.
  { intros H. injection H as <- <-. exists (tr1 ++ tr2). split; [exact Hl12|].
    left. exact Hn12. }
  apply String.eqb_neq in Hk. cbv zeta.
  assert (Forall answered (tr1 ++ tr2)) as Ha12.
  { apply Forall_app. split; [apply Ha1 | apply Ha2]; discriminate. }
  destruct (ChatCompletion (os_Getenv "OPENAI_API_KEY" w) (contentBuilder w2))
    as [err|[|choice choices]];
    intros H; injection H as <- <-; exists (tr1 ++ tr2); (split; [exact Hl12|]);
    right; simpl; rewrite Hn12, <- app_assoc; auto.
Qed.

(** X19: what the last step of [main] does.  Once both walks have returned
    and the summarizer key is set, [main] prints the banner and asks the
    summarizer once.  An error of the summarizer is logged behind the
    prefixes ["Error generating summary: "] and ["summarization failed: "]
    and the process ends with status 0; a response without choices is a
    crash (index out of range); otherwise the first choice is printed,
    followed by a line feed, the other choices are ignored, nothing is
    logged and the process ends with status 0. *)
Theorem main_summary_step fuel prog arg (w w1 w2 : world) :
  os_Getenv "NOTION_API_TOKEN" w <> "" ->
  os_Getenv "OPENAI_API_KEY" w <> "" ->
  let client := {| Token := os_Getenv "NOTION_API_TOKEN" w |} in
  printBlocksRecursive GetChildren fuel client (formatPageID arg) 0 w = (Ok tt, w1) ->
  collectContent GetChildren fuel client (formatPageID arg) (resetBuilder w1)
    = (Ok tt, w2) ->
  exists e w',
    main GetChildren ChatCompletion fuel [prog; arg] w = (e, w') /\
    match ChatCompletion (os_Getenv "OPENAI_API_KEY" w) (contentBuilder w2) with
    | inl err =>
        e = ExitCode 0 /\
        stdout w' = stdout w1 +:+ summaryBanner /\
        stderr w'
        = stderr w ++ ["Error generating summary: summarization failed: " +:+ err]
    | inr [] =>
        e = Crash /\ stdout w' = stdout w1 +:+ summaryBanner /\ stderr w' = stderr w
    | inr (summary :: _) =>
        e = ExitCode 0 /\
        stdout w' = stdout w1 +:+ summaryBanner +:+ summary +:+ nl /\
        stderr w' = stderr w
    end.
Proof.
  intros Ht Hk client Hp Hc. unfold main. simpl length. simpl negb. cbv iota.
  apply String.eqb_neq in Ht. rewrite Ht. cbv zeta. simpl nth.
  fold client. rewrite Hp, Hc.
  pose proof (printBlocksRecursive_walkFrame _ _ _ _ _ _ _ Hp) as [He1 Hr1].
  pose proof (collectContent_walkFrame _ _ _ _ _ _ Hc) as [He2 Hr2].
  pose proof (collectContent_collectFrame _ _ _ _ _ _ Hc) as (_ & _ & Ho2 & _).
  simpl in He2, Hr2, Ho2.
  unfold summarizeContent.
  assert (os_Getenv "OPENAI_API_KEY" (snd (fmt_Print summaryBanner w2))
          = os_Getenv "OPENAI_API_KEY" w) as ->.
  { apply os_Getenv_environ. simpl. congruence. }
  apply String.eqb_neq in Hk. rewrite Hk. cbv zeta.
  destruct (ChatCompletion (os_Getenv "OPENAI_API_KEY" w) (contentBuilder w2))
    as [err|[|choice choices]]; eexists _, _; (split; [reflexivity|]); simpl.
  - split; [reflexivity|]. split; [now rewrite Ho2|].
    rewrite Hr2, Hr1. now rewrite <- append_assoc.
  - split; [reflexivity|]. split; [now rewrite Ho2 | congruence].
  - split; [reflexivity|]. split; [|congruence].
    rewrite Ho2. now rewrite !append_assoc.
Qed.

(** X20: a whole run on a server that answers the same way.  With both
    credentials set, a summarizer that answers every content with a first
    choice [reply content], and a server that answers every request the
    same way, flags the blocks that have children and serves no block on
    which [printBlock] panics, once the tree below the normalized page id
    can be fetched, [main] ends with status 0; the standard output has
    received the rendering of the tree, the banner, and the summary of the
    flattened text of the tree followed by a line feed; nothing is logged;
    every request to the server was answered and the one request to the
    summarizer, the last of the run, carried the flattened text. *)
Theorem main_on_a_constant_server
    (hc : BlockID -> bool) (reply : string -> string)
    fuel prog arg blocks (w w1 : world) :
  (forall c id p, fst (GetChildren (srv w) c id p) = srv w) ->
  (forall c id p r,
     snd (GetChildren (srv w) c id p) = inr r ->
     Forall (fun b => GetHasChildren b = hc (GetID b)) (Results r)) ->
  (forall c id p r,
     snd (GetChildren (srv w) c id p) = inr r ->
     Forall (fun b => nilDeref b = false) (Results r)) ->
  TreeOK GetChildren {| Token := os_Getenv "NOTION_API_TOKEN" w |} hc (srv w)
    (blockChildren w) ->
  os_Getenv "NOTION_API_TOKEN" w <> "" ->
  os_Getenv "OPENAI_API_KEY" w <> "" ->
  (forall content,
     exists others,
       ChatCompletion (os_Getenv "OPENAI_API_KEY" w) content
       = inr (reply content :: others)) ->
  fetchChildBlocks GetChildren fuel (formatPageID arg)
    {| Token := os_Getenv "NOTION_API_TOKEN" w |} w = (Ok blocks, w1) ->
  exists w',
    main GetChildren ChatCompletion (S fuel) [prog; arg] w = (ExitCode 0, w') /\
    let content := flatten fuel (blockChildren w') blocks in
    contentBuilder w' = content /\
    stdout w'
    = stdout w +:+ render fuel 0 (blockChildren w') blocks
      +:+ summaryBanner +:+ reply content +:+ nl /\
    stderr w' = stderr w /\
    exists tr,
      Forall answered tr /\
      net w' = net w ++ tr
                 ++ [OpenAIChatCompletion (os_Getenv "OPENAI_API_KEY" w) content].
Proof.
  intros Hst Hfl Hsafe Htree Ht Hk Hsum Hfetch.
  set (client := {| Token := os_Getenv "NOTION_API_TOKEN" w |}) in *.
  pose proof (FetchedAt_intro _ _ _ _ _ _ Hfetch) as Hfetched.
  destruct (printBlocksRecursive_render (srv w) Hst hc Hfl Hsafe client fuel
              (formatPageID arg) blocks 0 Hfetched w eq_refl Htree)
    as (wp & Hp & Hsp & Htp & Hsubp & Hcp & Hop).
  destruct (collectContent_flatten (srv w) Hst hc Hfl client fuel (formatPageID arg)
              blocks Hfetched (resetBuilder wp) Hsp Htp)
    as (wc & Hc & Hsc & Htc & Hsubc & Hoc & Hcc).
  simpl in Hsubc, Hoc.
  pose proof (printBlocksRecursive_walkFrame _ _ _ _ _ _ _ Hp) as [He1 Hr1].
  pose proof (collectContent_walkFrame _ _ _ _ _ _ Hc) as [He2 Hr2].
  simpl in He2, Hr2.
  destruct (shaped_printBlocksRecursive _ _ _ _ _ _ _ Hp) as (tr1 & Ha1 & Hn1).
  destruct (shaped_collectContent _ _ _ _ _ _ Hc) as (tr2 & Ha2 & Hn2).
  simpl in Hn2.
  specialize (Hop (blockChildren wc) Hsubc Htc).
  specialize (Hcc (blockChildren wc) ltac:(reflexivity) Htc).
  simpl in Hcc. rewrite append_nil_l in Hcc.
  destruct (Hsum (contentBuilder wc)) as [others Hreply].
  unfold main. simpl length. simpl negb. cbv iota.
  pose proof Ht as Ht'. apply String.eqb_neq in Ht'. rewrite Ht'. cbv zeta. simpl nth.
  fold client. rewrite Hp, Hc.
  unfold summarizeContent.
  assert (os_Getenv "OPENAI_API_KEY" (snd (fmt_Print summaryBanner wc))
          = os_Getenv "OPENAI_API_KEY" w) as ->.
  { apply os_Getenv_environ. simpl. congruence. }
  pose proof Hk as Hk'. apply String.eqb_neq in Hk'. rewrite Hk'. cbv zeta.
  rewrite Hreply.
  eexists. split; [reflexivity|]. simpl.
  split; [exact Hcc|]. split; [|split; [congruence|]].
  - rewrite Hoc, Hop, Hcc. now rewrite !append_assoc.
  - exists (tr1 ++ tr2). split; [apply Forall_app; auto|].
    rewrite Hn2, Hn1, Hcc. now rewrite <- !app_assoc.
Qed.

(** X23: the three ways [main] ends with status 1.  Either the number of
    arguments is not 2, and the usage line is printed on the standard
    output (nothing is logged, whatever the environment); or the token is
    not set, and that is logged; or a list-children request failed with a
    message [err]: then every earlier request was answered, the failed one
    is the last of the run, and the one line logged is the stage
    (["Error fetching blocks: "] or ["Error collecting content: "])
    followed by ["failed to get blocks: "] and [err]. *)
Theorem main_fatal_errors fuel args (w w' : world) :
  main GetChildren ChatCompletion fuel args w = (ExitCode 1, w') ->
  (length args <> 2 /\
   w' = snd (fmt_Print ("Usage: go run main.go <page-id>" +:+ nl) w)) \/
  (length args = 2 /\ os_Getenv "NOTION_API_TOKEN" w = "" /\
   w' = log_Print "NOTION_API_TOKEN is not set" w) \/
  (length args = 2 /\ os_Getenv "NOTION_API_TOKEN" w <> "" /\
   exists stage err id p tr,
     (stage = "Error fetching blocks: " \/ stage = "Error collecting content: ") /\
     stderr w' = stderr w ++ [stage +:+ "failed to get blocks: " +:+ err] /\
     net w' = net w ++ tr ++ [NotionGetChildren id p (inl err)] /\
     Forall answered tr).
Proof.
  intros H. unfold main in H.
  destruct (length args =? 2) eqn:Hlen; simpl negb in H; cbv iota in H.
  2:{ apply Nat.eqb_neq in Hlen. injection H as <-. left. split; [exact Hlen|].
      reflexivity. }
  apply Nat.eqb_eq in Hlen. right.
  destruct (String.eqb (os_Getenv "NOTION_API_TOKEN" w) "") eqn:Htok.
  { apply String.eqb_eq in Htok. injection H as <-. left.
    split; [exact Hlen|]. split; [exact Htok | reflexivity]. }
  apply String.eqb_neq in Htok. right. split; [exact Hlen|]. split; [exact Htok|].
  cbv zeta in H.
  set (client := {| Token := os_Getenv "NOTION_API_TOKEN" w |}) in *.
  set (pageID := formatPageID (nth 1 args "")) in *.
  destruct (printBlocksRecursive GetChildren fuel client pageID 0 w) as [o1 w1] eqn:Hp.
  pose proof (shaped_printBlocksRecursive _ _ _ _ _ _ _ Hp) as (tr1 & Ha1 & Hn1).
  pose proof (printBlocksRecursive_walkFrame _ _ _ _ _ _ _ Hp) as [_ Hr1].
  destruct o1 as [[]|err1| |]; try discriminate H.
  - destruct (collectContent GetChildren fuel client pageID (resetBuilder w1))
      as [o2 w2] eqn:Hc.
    pose proof (shaped_collectContent _ _ _ _ _ _ Hc) as (tr2 & Ha2 & Hn2).
    pose proof (collectContent_walkFrame _ _ _ _ _ _ Hc) as [_ Hr2].
    simpl in Hn2, Hr2.
    destruct o2 as [[]|err2| |]; try discriminate H.
    + destruct (summarizeContent ChatCompletion (contentBuilder w2)
                  (snd (fmt_Print summaryBanner w2))) as [[summary|err3| |] w4];
        discriminate H.
    + injection H as <-.
      destruct Hn2 as (id & p & msg & _ & -> & Hn2).
      exists "Error collecting content: ", msg, id, p, (tr1 ++ tr2).
      split; [now right|]. split; [simpl; now rewrite Hr2, Hr1|]. split.
      * simpl. rewrite Hn2, Hn1. now rewrite <- !app_assoc.
      * apply Forall_app. split; assumption.
  - injection H as <-.
    destruct Hn1 as (id & p & msg & _ & -> & Hn1).
    exists "Error fetching blocks: ", msg, id, p, tr1.
    split; [now left|]. split; [simpl; now rewrite Hr1|]. split; [exact Hn1 | exact Ha1].
Qed.

End Main.

End Facts.

(** * The program on concrete inputs *)

Example formatPageID_example :
  formatPageID "0123456789abcdef0123456789abcdef"
  = "01234567-89ab-cdef-0123-456789abcdef".
Proof. reflexivity. Qed.

Example printBlock_quote :
  printBlock (leaf "q" (QuoteBlock (text ("a" +:+ nl +:+ "b")))) 1
  = Some ("    > a" +:+ nl +:+ "    > b" +:+ nl +:+ nl).
Proof. reflexivity. Qed.

(** The round trip of a heading and a bulleted item with a nested item. *)
Example intro_round_trip :
  let w := snd (main static echoSummary 10 ["prog"; "root"]
                  (initWorld introDoc bothKeys)) in
  stdout w = "# Intro" +:+ nl +:+ nl +:+ "- item" +:+ nl +:+ "    - Sub" +:+ nl
             +:+ summaryBanner +:+ "- summary" +:+ nl /\
  contentBuilder w = "Intro" +:+ nl +:+ nl +:+ "item" +:+ nl +:+ nl +:+ "Sub" +:+ nl +:+ nl.
Proof. vm_compute. split; reflexivity. Qed.

(** ** Fetch errors and partial output *)

(** C2, the failing run: the server answers the fetch of the whole tree
    (the children of the page, then those of ["p"]) and fails when
    [printBlocksRecursive] asks for the children of ["p"] once more; by then
    the paragraph ["p"] is printed, and the run ends with the fetch error
    after this output. *)
Theorem refetch_error_after_partial_output :
  let run := main scripted echoSummary 10 ["prog"; "root"]
               (initWorld flakyScript bothKeys) in
  fst run = ExitCode 1 /\
  stderr (snd run) = ["Error fetching blocks: failed to get blocks: rate_limited"] /\
  stdout (snd run) = "Hello" +:+ nl +:+ nl /\
  stdout (snd run) <> "".
Proof. vm_compute. repeat split. discriminate. Qed.

(** C3, the failing run: on a document that never changes, the children of
    ["b"] are listed four times (twice by each walk) and those of the page
    twice; and when the document is edited between two requests, the
    recursive call of [printBlocksRecursive] adds the key ["q2"] to the map
    that the fetch of the whole tree had built. *)
Theorem tree_fetched_again_by_each_walk :
  (let w := snd (main static echoSummary 10 ["prog"; "root"]
                   (initWorld introDoc bothKeys)) in
   length (callsFor "b" (net w)) = 4 /\ length (callsFor "root" (net w)) = 2) /\
  (let w0 := initWorld editedScript bothKeys in
   let fetched := snd (fetchChildBlocks scripted 9 "root" someClient w0) in
   let printed := snd (printBlocksRecursive scripted 10 someClient "root" 0 w0) in
   blockChildren fetched !! "q2" = None /\
   blockChildren printed !! "q2" = Some [leaf "r" (ParagraphBlock (text "Newer"))]).
Proof. vm_compute. repeat split. Qed.

(** ** Credentials *)

(** C4 as stated fails: with the token set and the summarizer key absent
    the process is not stopped at startup; it makes six calls to the
    document API and ends with status 0. *)
Lemma missing_summarizer_key_is_not_fatal :
  let w0 := initWorld introDoc onlyNotionToken in
  let run := main static echoSummary 10 ["prog"; "root"] w0 in
  os_Getenv "OPENAI_API_KEY" w0 = "" /\
  fst run = ExitCode 0 /\
  length (net (snd run)) = 6 /\
  stderr (snd run) = ["Error generating summary: OPENAI_API_KEY is not set"].
Proof. vm_compute. repeat split. Qed.

Lemma credentials_checked_where_used_witness :
  let w0 := initWorld introDoc onlyNotionToken in
  exists w',
    main static echoSummary 10 ["prog"; "root"] w0 = (ExitCode 0, w') /\
    length (net w') = 6 /\
    stderr w' = ["Error generating summary: OPENAI_API_KEY is not set"].
Proof.
  intros w0.
  destruct (credentials_checked_where_used static echoSummary 10 "prog" "root" w0)
    as [_ H].
  pose (w1 := snd (printBlocksRecursive static 10 {| Token := "secret" |} "root" 0 w0)).
  pose (w2 := snd (collectContent static 10 {| Token := "secret" |} "root"
                     (resetBuilder w1))).
  destruct (H ltac:(vm_compute; discriminate) ltac:(vm_compute; reflexivity) w1 w2
              ltac:(vm_compute; reflexivity) ltac:(vm_compute; reflexivity))
    as (w' & Hm & Hn & _ & He).
  exists w'. split; [exact Hm|]. split.
  - rewrite Hn. vm_compute. reflexivity.
  - rewrite He. vm_compute. reflexivity.
Defined.

(** ** Keys of the map *)

Lemma tree_keys_are_flagged_blocks_witness :
  let w0 := initWorld introDoc bothKeys in
  let w' := snd (fetchChildBlocks static 5 "root" someClient w0) in
  (forall k,
     k ∈ dom (blockChildren w') <->
     k ∈ dom (blockChildren w0) \/
     exists b, b ∈ fetchedBlocks (net w') /\ GetID b = k /\ GetHasChildren b = true) /\
  dom (blockChildren w') = {["b"]}.
Proof.
  intros w0 w'.
  destruct (tree_keys_are_flagged_blocks static 5 "root" someClient w0
              [leaf "h" (Heading1Block (text "Intro"));
               parent "b" (BulletedListItemBlock (text "item"))] w'
              ltac:(vm_compute; reflexivity)) as [(tr & Hn & Hk) _].
  change (net w0) with (@nil NetEvent) in Hn. simpl in Hn. rewrite Hn.
  split; [exact Hk|]. vm_compute. reflexivity.
Defined.

(** ** Pagination *)


(** ** Numbered items *)

Lemma numbered_items_literal_prefix_witness :
  forBlocks (printLoopBody (printBlocksRecursive static 3 someClient) 1) twoNumbered
    (initWorld introDoc bothKeys)
  = fmt_Print ("    1. first" +:+ nl +:+ "    1. second" +:+ nl)
      (initWorld introDoc bothKeys).
Proof.
  apply (proj2 (@numbered_items_literal_prefix (gmap BlockID (list Block)))).
  - repeat constructor; eexists; reflexivity.
  - repeat constructor.
Defined.

(** ** The flattened text *)

(** C1 as stated fails: a divider, a kind without text payload, adds the
    two line feeds of the separator to the flattened text, where the claim
    has it contribute no character at all. *)
Lemma divider_contributes_separator :
  let run := collectContent static 5 someClient "root" (initWorld dividerDoc bothKeys) in
  fst run = Ok tt /\
  hasTextPayload (leaf "d" DividerBlock) = false /\
  contentBuilder (snd run) = nl +:+ nl /\
  flattenSpec 4 (blockChildren (snd run)) [leaf "d" DividerBlock] = "" /\
  contentBuilder (snd run)
  <> flattenSpec 4 (blockChildren (snd run)) [leaf "d" DividerBlock].
Proof. vm_compute. repeat split. discriminate. Qed.

Lemma static_stateless (doc : gmap BlockID (list Block)) c id p :
  fst (static doc c id p) = doc.
Proof. unfold static. destruct (doc !! id); reflexivity. Qed.

Lemma introDoc_flags c id p r :
  snd (static introDoc c id p) = inr r ->
  Forall (fun b => GetHasChildren b = String.eqb (GetID b) "b") (Results r).
Proof.
  unfold static. destruct (introDoc !! id) as [children|] eqn:Hl; [|discriminate].
  intros H. injection H as <-. simpl. apply Forall_take.
  assert (Forall (fun b => GetHasChildren b = String.eqb (GetID b) "b") children) as Hc.
  { unfold introDoc in Hl.
    destruct (decide ("root" = id)) as [<-|Hr].
    - rewrite lookup_insert_eq in Hl. injection Hl as <-. repeat constructor.
    - rewrite lookup_insert_ne in Hl by exact Hr.
      destruct (decide ("b" = id)) as [<-|Hb].
      + rewrite lookup_insert_eq in Hl. injection Hl as <-. repeat constructor.
      + rewrite lookup_insert_ne in Hl by exact Hb. discriminate Hl. }
  destruct (String.eqb (StartCursor p) ""); [exact Hc|].
  clear Hl. induction Hc as [|b l Hb Hl IH]; simpl; [constructor|].
  destruct (String.eqb (GetID b) (StartCursor p)); [constructor|]; assumption.
Qed.

Lemma collectContent_writes_flattened_text_witness :
  let w := initWorld introDoc bothKeys in
  exists w',
    collectContent static 5 someClient "root" w = (Ok tt, w') /\
    contentBuilder w'
    = "Intro" +:+ nl +:+ nl +:+ "item" +:+ nl +:+ nl +:+ "Sub" +:+ nl +:+ nl.
Proof.
  intros w.
  destruct (collectContent_writes_flattened_text static
              (fun id => String.eqb id "b") someClient 4 "root"
              [leaf "h" (Heading1Block (text "Intro"));
               parent "b" (BulletedListItemBlock (text "item"))]
              w (snd (fetchChildBlocks static 4 "root" someClient w))
              (static_stateless introDoc) introDoc_flags
              ltac:(intros k v Hk; simpl in Hk; rewrite lookup_empty in Hk;
                    discriminate Hk)
              ltac:(vm_compute; reflexivity))
    as [(w' & Hrun & _ & Hc) _].
  exists w'. split; [exact Hrun|]. rewrite Hc.
  assert (w' = snd (collectContent static 5 someClient "root" w)) as ->
    by now rewrite Hrun.
  vm_compute. reflexivity.
Defined.

(** ** Indentation *)



(** ** Page identifiers *)

Lemma page_id_normalized_witness :
  hyphenated "0123456789abcdef0123456789abcdef"
    (formatPageID "0123456789abcdef0123456789abcdef") /\
  exists reply tr,
    net (snd (main static echoSummary 10
                ["prog"; "0123456789abcdef0123456789abcdef"]
                (initWorld introDoc bothKeys)))
    = NotionGetChildren "01234567-89ab-cdef-0123-456789abcdef"
        {| StartCursor := ""; PageSize := 100 |} reply :: tr.
Proof.
  destruct (page_id_normalized static echoSummary) as (Hf & _ & Hm). split.
  - apply (Hf "0123456789abcdef0123456789abcdef"); reflexivity.
  - apply (Hm 10 "prog" "0123456789abcdef0123456789abcdef"
              (initWorld introDoc bothKeys)).
    + vm_compute. discriminate.
    + lia.
Defined.

(** * Further properties on concrete inputs *)

Lemma TreeOK_empty {Srv}
    (GetChildren :
       Srv -> Client -> BlockID -> Pagination -> Srv * (string + GetChildrenResponse))
    client hc s :
  TreeOK GetChildren client hc s ∅.
Proof. intros k v Hk. rewrite lookup_empty in Hk. discriminate Hk. Qed.

(** The pages of [static] hold blocks of the document only. *)
Lemma static_Forall (P : Block -> Prop) (doc : gmap BlockID (list Block)) c id p r :
  (forall k v, doc !! k = Some v -> Forall P v) ->
  snd (static doc c id p) = inr r ->
  Forall P (Results r).
Proof.
  intros Hdoc. unfold static. destruct (doc !! id) as [children|] eqn:Hl; [|discriminate].
  intros H. injection H as <-. simpl. apply Forall_take.
  pose proof (Hdoc _ _ Hl) as Hc.
  destruct (String.eqb (StartCursor p) ""); [exact Hc|].
  clear Hl. induction Hc as [|b l Hb Hl IH]; simpl; [constructor|].
  destruct (String.eqb (GetID b) (StartCursor p)); [constructor|]; assumption.
Qed.

Lemma introDoc_safe c id p r :
  snd (static introDoc c id p) = inr r ->
  Forall (fun b => nilDeref b = false) (Results r).
Proof.
  apply static_Forall. intros k v Hl. unfold introDoc in Hl.
  destruct (decide ("root" = k)) as [<-|Hr].
  - rewrite lookup_insert_eq in Hl. injection Hl as <-. repeat constructor.
  - rewrite lookup_insert_ne in Hl by exact Hr.
    destruct (decide ("b" = k)) as [<-|Hb].
    + rewrite lookup_insert_eq in Hl. injection Hl as <-. repeat constructor.
    + rewrite lookup_insert_ne in Hl by exact Hb. discriminate Hl.
Qed.

Lemma printBlock_ends_the_line_witness :
  let out := "    ---" +:+ nl +:+ nl in
  out = "" \/ exists pre, out = pre +:+ nl.
Proof.
  exact (printBlock_ends_the_line (leaf "d" DividerBlock) 1 _ eq_refl).
Defined.

Lemma printBlock_quote_line_by_line_witness :
  exists pieces,
    Join pieces nl = getRichTextContent twoLineQuote /\
    Forall (fun piece => lineFree piece = true) pieces /\
    pieces <> [] /\
    printBlock (leaf "q" (QuoteBlock twoLineQuote)) 1
    = Some (unlines (map (fun piece => Repeat "    " 1 +:+ "> " +:+ piece) pieces)
            +:+ nl).
Proof.
  exact (printBlock_quote_line_by_line (leaf "q" (QuoteBlock twoLineQuote)) 1
           twoLineQuote eq_refl).
Defined.

Lemma endless_pagination_never_returns_witness :
  let w := initWorld tt bothKeys in
  (exists w',
     fetchChildBlocks endless 4 "root" someClient w = (OutOfFuel, w') /\
     length (net w') = length (net w) + 3) /\
  (exists w',
     printBlocksRecursive endless 5 someClient "root" 0 w = (OutOfFuel, w') /\
     stdout w' = stdout w) /\
  (exists w',
     collectContent endless 5 someClient "root" w = (OutOfFuel, w') /\
     contentBuilder w' = contentBuilder w).
Proof.
  intros w.
  apply (endless_pagination_never_returns endless
           ltac:(intros s c id p; eexists _, _; split; reflexivity)
           3 someClient "root" 0 w).
Defined.

Lemma cyclic_document_never_returns_witness :
  fst (fetchChildBlocks static 50 "root" someClient (initWorld cyclicDoc bothKeys))
  = OutOfFuel.
Proof.
  apply (cyclic_document_never_returns static
           (fun id => id = "root" \/ id = "a") (fun s => s = cyclicDoc) someClient).
  - intros s id -> [ -> | -> ].
    + exists cyclicDoc,
        {| Results := [leaf "t" (ParagraphBlock (text "top"));
                       parent "a" (ToggleBlock (text "a"))];
           NextCursor := ""; HasMore := false |}.
      split; [vm_compute; reflexivity|]. split; [reflexivity|].
      split; [reflexivity|]. split.
      * right. left. reflexivity.
      * constructor; [intros H; discriminate H|].
        constructor; [intros _; right; reflexivity | constructor].
    + exists cyclicDoc,
        {| Results := [parent "root" (ToggleBlock (text "back"))];
           NextCursor := ""; HasMore := false |}.
      split; [vm_compute; reflexivity|]. split; [reflexivity|].
      split; [reflexivity|]. split.
      * left. reflexivity.
      * constructor; [intros _; left; reflexivity | constructor].
  - reflexivity.
  - left. reflexivity.
Defined.

Lemma printBlocksRecursive_prints_the_tree_witness :
  let w := initWorld introDoc bothKeys in
  exists w',
    printBlocksRecursive static 5 someClient "root" 0 w = (Ok tt, w') /\
    stdout w'
    = "# Intro" +:+ nl +:+ nl +:+ "- item" +:+ nl +:+ "    - Sub" +:+ nl.
Proof.
  intros w.
  destruct (printBlocksRecursive_prints_the_tree static
              (fun id => String.eqb id "b") someClient 4 "root" 0
              [leaf "h" (Heading1Block (text "Intro"));
               parent "b" (BulletedListItemBlock (text "item"))]
              w (snd (fetchChildBlocks static 4 "root" someClient w))
              (static_stateless introDoc) introDoc_flags introDoc_safe
              (TreeOK_empty static _ _ _)
              ltac:(vm_compute; reflexivity))
    as (w' & Hrun & _ & Ho).
  exists w'. split; [exact Hrun|]. rewrite Ho.
  assert (w' = snd (printBlocksRecursive static 5 someClient "root" 0 w)) as ->
    by now rewrite Hrun.
  vm_compute. reflexivity.
Defined.

Lemma fetched_entries_hold_the_served_children_witness :
  let w := initWorld introDoc bothKeys in
  let w' := snd (fetchChildBlocks static 4 "root" someClient w) in
  Kids static someClient introDoc "root"
    [leaf "h" (Heading1Block (text "Intro"));
     parent "b" (BulletedListItemBlock (text "item"))] /\
  (forall k v, blockChildren w' !! k = Some v -> Kids static someClient introDoc k v) /\
  is_Some (blockChildren w' !! "b").
Proof.
  intros w w'.
  destruct (fetched_entries_hold_the_served_children static
              (fun id => String.eqb id "b") someClient 4 "root"
              [leaf "h" (Heading1Block (text "Intro"));
               parent "b" (BulletedListItemBlock (text "item"))]
              w w'
              (static_stateless introDoc) introDoc_flags
              (TreeOK_empty static _ _ _)
              ltac:(vm_compute; reflexivity))
    as (_ & Hkids & Hentries & Hflagged & _).
  split; [exact Hkids|]. split; [exact Hentries|].
  apply (Hflagged (parent "b" (BulletedListItemBlock (text "item")))); [|reflexivity].
  constructor. constructor.
Defined.

Lemma earlier_print_sends_no_request_witness :
  let w := snd (fetchChildBlocks static 4 "root" someClient
                  (initWorld introDoc bothKeys)) in
  let run :=
    Earlier.printBlocksRecursive 4
      [leaf "h" (Heading1Block (text "Intro"));
       parent "b" (BulletedListItemBlock (text "item"))] 0 w in
  offline w (snd run) /\ forall e, fst run <> Err e.
Proof.
  intros w run.
  exact (earlier_print_sends_no_request 4
           [leaf "h" (Heading1Block (text "Intro"));
            parent "b" (BulletedListItemBlock (text "item"))] 0 w (fst run) (snd run)
           ltac:(vm_compute; reflexivity)).
Defined.

Lemma earlier_main_prints_all_or_nothing_witness :
  let w := initWorld brokenDoc onlyNotionToken in
  let run := Earlier.main static 5 ["prog"; "root"] w in
  fst run = ExitCode 1 /\
  stdout (snd run) = stdout w /\
  exists msg, stderr (snd run) = stderr w ++ [msg].
Proof.
  intros w run.
  destruct (earlier_main_prints_all_or_nothing static 5 ["prog"; "root"] w
              (fst run) (snd run) ltac:(vm_compute; reflexivity)) as [H _].
  split; [vm_compute; reflexivity|].
  exact (H ltac:(vm_compute; reflexivity)).
Defined.

Lemma both_versions_print_the_same_witness :
  let w := initWorld introDoc bothKeys in
  let blocks := [leaf "h" (Heading1Block (text "Intro"));
                 parent "b" (BulletedListItemBlock (text "item"))] in
  let w1 := snd (fetchChildBlocks static 4 "root" someClient w) in
  exists wa wb,
    printBlocksRecursive static 5 someClient "root" 0 w = (Ok tt, wa) /\
    Earlier.printBlocksRecursive 4 blocks 0 w1 = (Ok tt, wb) /\
    stdout wa = stdout wb /\
    net wb = net w1.
Proof.
  intros w blocks w1.
  exact (both_versions_print_the_same static
           (fun id => String.eqb id "b") someClient 4 "root" 0 blocks w w1
           (static_stateless introDoc) introDoc_flags introDoc_safe
           (TreeOK_empty static _ _ _)
           ltac:(vm_compute; reflexivity)).
Defined.

Lemma summarizer_called_once_at_the_end_witness :
  let w := initWorld introDoc bothKeys in
  let run := main static echoSummary 10 ["prog"; "root"] w in
  exists tr,
    Forall listRequest tr /\
    (net (snd run) = net w ++ tr \/
     (net (snd run)
      = net w ++ tr
          ++ [OpenAIChatCompletion (os_Getenv "OPENAI_API_KEY" w)
                (contentBuilder (snd run))] /\
      os_Getenv "OPENAI_API_KEY" w <> "" /\
      Forall answered tr /\
      (fst run = ExitCode 0 \/ fst run = Crash))).
Proof.
  intros w run.
  exact (summarizer_called_once_at_the_end static echoSummary 10 ["prog"; "root"] w
           (fst run) (snd run) ltac:(vm_compute; reflexivity)).
Defined.

Lemma main_summary_step_witness :
  let w := initWorld introDoc bothKeys in
  exists e w',
    main static echoSummary 10 ["prog"; "root"] w = (e, w') /\
    e = ExitCode 0 /\
    stdout w'
    = "# Intro" +:+ nl +:+ nl +:+ "- item" +:+ nl +:+ "    - Sub" +:+ nl
      +:+ summaryBanner +:+ "- summary" +:+ nl /\
    stderr w' = [].
Proof.
  intros w.
  pose (w1 := snd (printBlocksRecursive static 10 {| Token := "secret" |} "root" 0 w)).
  pose (w2 := snd (collectContent static 10 {| Token := "secret" |} "root"
                     (resetBuilder w1))).
  destruct (main_summary_step static echoSummary 10 "prog" "root" w w1 w2
              ltac:(vm_compute; discriminate) ltac:(vm_compute; discriminate)
              ltac:(vm_compute; reflexivity) ltac:(vm_compute; reflexivity))
    as (e & w' & Hm & He & Ho & Hr).
  exists e, w'. split; [exact Hm|]. split; [exact He|]. split.
  - rewrite Ho. vm_compute. reflexivity.
  - exact Hr.
Defined.

Lemma main_on_a_constant_server_witness :
  let w := initWorld introDoc bothKeys in
  exists w',
    main static echoSummary 5 ["prog"; "root"] w = (ExitCode 0, w') /\
    contentBuilder w'
    = "Intro" +:+ nl +:+ nl +:+ "item" +:+ nl +:+ nl +:+ "Sub" +:+ nl +:+ nl /\
    stdout w'
    = "# Intro" +:+ nl +:+ nl +:+ "- item" +:+ nl +:+ "    - Sub" +:+ nl
      +:+ summaryBanner +:+ "- summary" +:+ nl /\
    stderr w' = [].
Proof.
  intros w.
  destruct (main_on_a_constant_server static echoSummary
              (fun id => String.eqb id "b") (fun _ => "- summary")
              4 "prog" "root"
              [leaf "h" (Heading1Block (text "Intro"));
               parent "b" (BulletedListItemBlock (text "item"))]
              w (snd (fetchChildBlocks static 4 "root" {| Token := "secret" |} w))
              (static_stateless introDoc) introDoc_flags introDoc_safe
              (TreeOK_empty static _ _ _)
              ltac:(vm_compute; discriminate) ltac:(vm_compute; discriminate)
              ltac:(intros content; exists []; reflexivity)
              ltac:(vm_compute; reflexivity))
    as (w' & Hm & Hc & Ho & Hr & _).
  exists w'. split; [exact Hm|].
  assert (w' = snd (main static echoSummary 5 ["prog"; "root"] w)) as Hw
    by now rewrite Hm.
  split; [|split].
  - rewrite Hc, Hw. vm_compute. reflexivity.
  - rewrite Ho, Hw. vm_compute. reflexivity.
  - exact Hr.
Defined.

Lemma main_fatal_errors_witness :
  let w := initWorld brokenDoc bothKeys in
  let w' := snd (main static echoSummary 5 ["prog"; "root"] w) in
  exists stage err id p tr,
    (stage = "Error fetching blocks: " \/ stage = "Error collecting content: ") /\
    stderr w' = stderr w ++ [stage +:+ "failed to get blocks: " +:+ err] /\
    net w' = net w ++ tr ++ [NotionGetChildren id p (inl err)] /\
    Forall answered tr.
Proof.
  intros w w'.
  destruct (main_fatal_errors static echoSummary 5 ["prog"; "root"] w w'
              ltac:(vm_compute; reflexivity)) as [[H _]|[(_ & H & _)|(_ & _ & H)]].
  - exfalso. apply H. reflexivity.
  - exfalso. revert H. vm_compute. discriminate.
  - exact H.
Defined.
